(** * meu_compilador.py: tokenizer, identifier automaton and expression parser

    A shallow embedding of [src/meu_compilador.py].

    - A Python [str] is a sequence of Unicode code points: [list N].
    - The [re] patterns [MASTER] and [ExprLexer.TOKEN_RE] are written with a
      few backtracking combinators (character class, greedy star and plus,
      ordered alternation) that follow the matching order of Python's engine,
      and [finditer] scans the text with them.
    - [ExprLexer] is a record of a token list and a cursor; the nested
      functions [F], [T] and [E] of [parse_expression] thread it through a
      state-and-exception monad.
    - The call stack.  The interpreter raises RecursionError where the nesting
      of calls passes its limit.  [pretty_print_ast] is given the number of
      nested calls that the interpreter still allows, and stops there.  The
      parser is modelled without this limit: a call of [parse_expression]
      that returns a tree or raises a SyntaxError in the source does so in
      the model, and the source can raise RecursionError instead where the
      parentheses of the text are nested deeply.  What is stated of texts
      with any nesting of parentheses is therefore stated of the tree
      returned and of the SyntaxError raised. *)

From Stdlib Require Import String Ascii List NArith ZArith Bool Arith Lia.
From Stdlib Require Import Sorting.Sorted.
Import ListNotations.

Set Implicit Arguments.

(** ** Python strings *)

Definition char := N.
Definition str := list char.

Definition chr (a : ascii) : char := N_of_ascii a.

(** An ASCII literal of the source, as a Python string. *)
Definition str_of (s : string) : str := map chr (list_ascii_of_string s).

Definition char_eqb (a b : char) : bool := N.eqb a b.

Fixpoint str_eqb (a b : str) : bool :=
  match a, b with
  | [], [] => true
  | x :: a', y :: b' => char_eqb x y && str_eqb a' b'
  | _, _ => false
  end.

(** [x in xs] for a container of strings. *)
Definition str_in (x : str) (xs : list str) : bool := existsb (str_eqb x) xs.

(** [x in s] for two strings: [x] occurs in [s]. *)
Fixpoint is_prefix (x s : str) : bool :=
  match x, s with
  | [], _ => true
  | a :: x', b :: s' => char_eqb a b && is_prefix x' s'
  | _ :: _, [] => false
  end.

Fixpoint substr_in (x s : str) : bool :=
  is_prefix x s || match s with [] => false | _ :: s' => substr_in x s' end.

Definition in_range (lo hi : ascii) (c : char) : bool :=
  (chr lo <=? c)%N && (c <=? chr hi)%N.

Definition code_range (lo hi : N) (c : char) : bool :=
  (lo <=? c)%N && (c <=? hi)%N.

(** ** Character predicates of the Python runtime

    [str.isalpha], [str.isalnum] and the classes [\d] and [\s] of [re] are
    decided by the interpreter's Unicode database, which is not part of the
    repository.  Code points below 256 (ASCII and Latin-1) are written out
    here; the database beyond them is the parameter [UnicodeTables]. *)

Record UnicodeTables : Type := {
  uni_alpha : char -> bool;
  uni_alnum : char -> bool;
  uni_decimal : char -> bool;
  uni_space : char -> bool
}.

Definition ascii_letter (c : char) : bool :=
  in_range "A" "Z" c || in_range "a" "z" c.

Definition ascii_digit (c : char) : bool := in_range "0" "9" c.

Definition latin1_alpha (c : char) : bool :=
  ascii_letter c
  || (c =? 170)%N || (c =? 181)%N || (c =? 186)%N
  || code_range 192 214 c || code_range 216 246 c || code_range 248 255 c.

Definition latin1_alnum (c : char) : bool :=
  latin1_alpha c || ascii_digit c
  || (c =? 178)%N || (c =? 179)%N || (c =? 185)%N || code_range 188 190 c.

Definition latin1_space (c : char) : bool :=
  code_range 9 13 c || code_range 28 32 c || (c =? 133)%N || (c =? 160)%N.

Section Runtime.

Variable U : UnicodeTables.

(** [ch.isalpha()] on a one-character string. *)
Definition isalpha (c : char) : bool :=
  if (c <? 256)%N then latin1_alpha c else uni_alpha U c.

(** [ch.isalnum()] on a one-character string. *)
Definition isalnum (c : char) : bool :=
  if (c <? 256)%N then latin1_alnum c else uni_alnum U c.

(** The class [\d] of a [str] pattern. *)
Definition re_digit (c : char) : bool :=
  if (c <? 256)%N then ascii_digit c else uni_decimal U c.

(** The class [\s] of a [str] pattern. *)
Definition re_space (c : char) : bool :=
  if (c <? 256)%N then latin1_space c else uni_space U c.

End Runtime.

(** ** Backtracking matchers

    A matcher is given the text from the current position on and returns the
    number of characters of the match, with what the pattern captured.  Each
    combinator takes the rest of the pattern as a continuation, so that a
    greedy repetition gives characters back when the rest fails. *)

Definition matcher (A : Type) := str -> option (nat * A).

Definition advance (A : Type) (r : option (nat * A)) : option (nat * A) :=
  match r with
  | Some (n, a) => Some (S n, a)
  | None => None
  end.

(** The end of the pattern. *)
Definition m_end : matcher unit := fun _ => Some (0, tt).

(** One character of the class [p], then [k]. *)
Definition m_class (A : Type) (p : char -> bool) (k : matcher A) : matcher A :=
  fun s =>
    match s with
    | c :: rest => if p c then advance (k rest) else None
    | [] => None
    end.

(** [p*] (greedy), then [k]. *)
Fixpoint m_star (A : Type) (p : char -> bool) (k : matcher A) (s : str)
    : option (nat * A) :=
  match s with
  | c :: rest =>
      if p c then
        match m_star p k rest with
        | Some r => advance (Some r)
        | None => k s
        end
      else k s
  | [] => k []
  end.

(** [p+] (greedy), then [k]. *)
Definition m_plus (A : Type) (p : char -> bool) (k : matcher A) : matcher A :=
  m_class p (m_star p k).

(** A literal string, then [k]. *)
Definition m_lit (A : Type) (w : string) (k : matcher A) : matcher A :=
  fold_right (fun c k' => m_class (char_eqb c) k') k (str_of w).

(** Ordered alternation [a|b]. *)
Definition m_alt (A : Type) (a b : matcher A) : matcher A :=
  fun s => match a s with Some r => Some r | None => b s end.

(** A capturing group that ends the pattern: the text it matched. *)
Definition m_capture (A : Type) (m : matcher unit) (f : str -> A) : matcher A :=
  fun s =>
    match m s with
    | Some (n, _) => Some (n, f (firstn n s))
    | None => None
    end.

(** [.] without DOTALL: any character but the newline. *)
Definition re_dot (c : char) : bool := negb (char_eqb c (chr "010")).

(** [[A-Za-z_]] and [[A-Za-z0-9_]]. *)
Definition id_start (c : char) : bool :=
  ascii_letter c || char_eqb c (chr "_").

Definition id_part (c : char) : bool :=
  ascii_letter c || ascii_digit c || char_eqb c (chr "_").

(** ** [finditer] *)

Record Match (G : Type) : Type := {
  m_start : nat;      (* m.start() *)
  m_group : str;      (* m.group() *)
  m_groups : G        (* m.lastgroup, or m.groups() *)
}.

(** [finditer re pos skip s] scans [s], which begins at offset [pos] of the
    text.  With [skip = 0] the pattern is tried here: a match of [n]
    characters is yielded and the scan resumes after it (the next [n - 1]
    characters are passed over); without a match the scan moves on by one
    character.  The patterns of this program never match the empty string
    ([MASTER_ok], [TOKEN_RE_ok]). *)
Fixpoint finditer (G : Type) (re : str -> option (nat * G))
    (pos skip : nat) (s : str) {struct s} : list (Match G) :=
  match skip with
  | S k =>
      match s with
      | [] => []
      | _ :: rest => finditer re (S pos) k rest
      end
  | O =>
      match re s with
      | Some (n, g) =>
          {| m_start := pos; m_group := firstn n s; m_groups := g |}
          :: match s with
             | [] => []
             | _ :: rest => finditer re (S pos) (pred n) rest
             end
      | None =>
          match s with
          | [] => []
          | _ :: rest => finditer re (S pos) 0 rest
          end
      end
  end.

(** ** The tokenizer *)

Inductive TokKind : Type :=
  | FLOAT | INT | ID | OP | LPAREN | RPAREN | SEMI | COMMA | SKIP | UNKNOWN
  | KEYWORD | ERROR.

Definition TokKind_eqb (a b : TokKind) : bool :=
  match a, b with
  | FLOAT, FLOAT | INT, INT | ID, ID | OP, OP | LPAREN, LPAREN
  | RPAREN, RPAREN | SEMI, SEMI | COMMA, COMMA | SKIP, SKIP
  | UNKNOWN, UNKNOWN | KEYWORD, KEYWORD | ERROR, ERROR => true
  | _, _ => false
  end.

Definition skip_char (c : char) : bool :=
  char_eqb c (chr " ") || char_eqb c (chr "009")
  || char_eqb c (chr "013") || char_eqb c (chr "010").

Section Tokenizer.

Variable U : UnicodeTables.

Definition TOKEN_SPEC : list (TokKind * matcher unit) :=
  [ (FLOAT, m_plus (re_digit U) (m_lit "." (m_plus (re_digit U) m_end)));
    (INT, m_plus (re_digit U) m_end);
    (ID, m_class id_start (m_star id_part m_end));
    (OP, m_alt (m_lit "==" m_end) (m_alt (m_lit "!=" m_end)
         (m_alt (m_lit "<=" m_end) (m_alt (m_lit ">=" m_end)
         (m_alt (m_lit "+" m_end) (m_alt (m_lit "-" m_end)
         (m_alt (m_lit "*" m_end) (m_alt (m_lit "/" m_end)
                (m_lit "=" m_end)))))))));
    (LPAREN, m_lit "(" m_end);
    (RPAREN, m_lit ")" m_end);
    (SEMI, m_lit ";" m_end);
    (COMMA, m_lit "," m_end);
    (SKIP, m_plus skip_char m_end);
    (UNKNOWN, m_class re_dot m_end) ].

(** The alternation of the named groups, in the order of the list; the
    group of the first alternative that matches is [m.lastgroup]. *)
Fixpoint first_group (spec : list (TokKind * matcher unit)) (s : str)
    : option (nat * TokKind) :=
  match spec with
  | [] => None
  | (name, p) :: spec' =>
      match p s with
      | Some (n, _) => Some (n, name)
      | None => first_group spec' s
      end
  end.

Definition MASTER : str -> option (nat * TokKind) := first_group TOKEN_SPEC.

Definition KEYWORDS : list str :=
  map str_of ["if"; "else"; "while"; "return"; "int"; "float"; "for";
              "break"; "continue"]%string.

Definition Token : Type := TokKind * str * nat.

Definition tok_kind (t : Token) : TokKind := fst (fst t).
Definition tok_val (t : Token) : str := snd (fst t).
Definition tok_pos (t : Token) : nat := snd t.

(** One iteration of the loop of [tokenize]: the tokens list after the
    match [m]. *)
Definition tokenize_step (tokens : list Token) (m : Match TokKind)
    : list Token :=
  let kind := m_groups m in
  let val := m_group m in
  let pos := m_start m in
  if TokKind_eqb kind SKIP then tokens
  else
    let kind :=
      if TokKind_eqb kind ID && str_in val KEYWORDS then KEYWORD else kind in
    if TokKind_eqb kind UNKNOWN then tokens ++ [(ERROR, val, pos)]
    else tokens ++ [(kind, val, pos)].

Definition tokenize (src : str) : list Token :=
  fold_left tokenize_step (finditer MASTER 0 0 src) [].

End Tokenizer.

(** ** The identifier automaton *)

Definition afd_identificador (U : UnicodeTables) (s : str) : bool :=
  match s with
  | [] => false
  | first :: tail =>
      if negb (isalpha U first || char_eqb first (chr "_")) then false
      else forallb (fun ch => isalnum U ch || char_eqb ch (chr "_")) tail
  end.

(** ** The abstract syntax tree *)

Inductive AST : Type :=
  | Number (value : str)
  | Identifier (name : str)
  | BinOp (op : str) (left right : AST).

(** ** The lexer of the parser

    An expression token is the pair of its kind and its text; the kind is a
    string, and the kind of an operator or parenthesis is its own text. *)

Definition ExprToken : Type := str * str.

(** [m.groups()] of [TOKEN_RE]: the three groups are the branches of one
    alternation, so one of them took part in the match and the other two
    are [None]. *)
Inductive Groups : Type :=
  | GNum (num : str)
  | GIdent (ident : str)
  | GOther (other : str).

Definition TOKEN_RE (U : UnicodeTables) : matcher Groups :=
  m_star (re_space U)
    (m_alt (m_capture
              (m_alt (m_plus (re_digit U)
                        (m_lit "." (m_plus (re_digit U) m_end)))
                     (m_plus (re_digit U) m_end))
              GNum)
    (m_alt (m_capture (m_class id_start (m_star id_part m_end)) GIdent)
           (m_capture (m_class re_dot m_end) GOther))).

(** Truth value of a string: it is not empty. *)
Definition truthy (s : str) : bool :=
  match s with [] => false | _ :: _ => true end.

(** One iteration of the loop of [ExprLexer.__init__].  A group that did not
    take part in the match is [None], which is false in a test, so the test
    [other in "+-*/()"] is reached with the third group only.  The group
    that took part is never empty ([TOKEN_RE_groups]): the branches
    [else tokens] of the first two cases are never taken. *)
Definition lexer_step (tokens : list ExprToken) (m : Match Groups)
    : list ExprToken :=
  match m_groups m with
  | GNum num =>
      if truthy num then
        if substr_in (str_of ".") num
        then tokens ++ [(str_of "NUMBER", num)]
        else tokens ++ [(str_of "NUMBER", num)]
      else tokens
  | GIdent ident =>
      if truthy ident then tokens ++ [(str_of "ID", ident)] else tokens
  | GOther other =>
      if substr_in other (str_of "+-*/()") then tokens ++ [(other, other)]
      else if str_eqb other [] then tokens
      else tokens ++ [(str_of "ERROR", other)]
  end.

Record ExprLexer : Type := {
  tokens : list ExprToken;
  pos : nat
}.

Definition ExprLexer_init (U : UnicodeTables) (text : str) : ExprLexer :=
  {| tokens := fold_left lexer_step (finditer (TOKEN_RE U) 0 0 text) [];
     pos := 0 |}.

Definition EOF_token : ExprToken := (str_of "EOF", []).

Definition peek (lex : ExprLexer) : ExprToken :=
  if pos lex <? length (tokens lex)
  then nth (pos lex) (tokens lex) EOF_token
  else EOF_token.

(** [next] returns the token and the lexer with its cursor moved. *)
Definition next (lex : ExprLexer) : ExprToken * ExprLexer :=
  let t := peek lex in
  (t, {| tokens := tokens lex; pos := pos lex + 1 |}).

(** [n] calls of [next] in a row: the tokens returned and the lexer left. *)
Fixpoint next_n (n : nat) (lex : ExprLexer) : list ExprToken * ExprLexer :=
  match n with
  | 0 => ([], lex)
  | S n' =>
      let (t, lex1) := next lex in
      let (ts, lex2) := next_n n' lex1 in
      (t :: ts, lex2)
  end.

(** ** The parser

    [F], [T] and [E] share the lexer and leave by [raise]: a computation
    takes the lexer and gives a value with the lexer after it, or the
    exception raised.  [OutOfFuel] is not an outcome of the program: it marks
    a recursion or a loop cut by the fuel of the model, and
    [parse_expression_fuel] shows that [parse_expression] never meets it. *)

Inductive Message : Type :=
  | CloseParenExpected            (* "Parentese de fechamento esperado" *)
  | UnexpectedTokenInF (tok : ExprToken)  (* f"Token inesperado em F: {tok}" *)
  | ExtraInput.                   (* "Entrada extra apos expressao" *)

Inductive Exn : Type :=
  | SyntaxError (msg : Message).

Inductive Result (A : Type) : Type :=
  | Ok (a : A)
  | Raise (e : Exn)
  | OutOfFuel.

Arguments Raise {A} e.
Arguments OutOfFuel {A}.

Definition Parser (A : Type) : Type := ExprLexer -> Result (A * ExprLexer).

Definition ret (A : Type) (a : A) : Parser A := fun lex => Ok (a, lex).

Definition bind (A B : Type) (m : Parser A) (f : A -> Parser B) : Parser B :=
  fun lex =>
    match m lex with
    | Ok (a, lex') => f a lex'
    | Raise e => Raise e
    | OutOfFuel => OutOfFuel
    end.

Definition raise (A : Type) (e : Exn) : Parser A := fun _ => Raise e.

Arguments raise {A} e.

Definition lex_peek : Parser ExprToken := fun lex => Ok (peek lex, lex).

Definition lex_next : Parser ExprToken := fun lex => Ok (next lex).

Notation "x <- m ;; f" := (bind m (fun x => f))
  (at level 61, m at next level, right associativity).

(** [while cond: node = body(node)], with the loop cut after [fuel] turns. *)
Fixpoint while_ (fuel : nat) (cond : ExprToken -> bool)
    (body : AST -> Parser AST) (node : AST) : Parser AST :=
  fun lex =>
    if cond (peek lex) then
      match fuel with
      | 0 => OutOfFuel
      | S fuel' =>
          match body node lex with
          | Ok (node', lex') => while_ fuel' cond body node' lex'
          | Raise e => Raise e
          | OutOfFuel => OutOfFuel
          end
      end
    else Ok (node, lex).

Definition kind_is (k : string) (tok : ExprToken) : bool :=
  str_eqb (fst tok) (str_of k).

Definition kind_in (ks : list string) (tok : ExprToken) : bool :=
  str_in (fst tok) (map str_of ks).

(** The body of [F], given [E]. *)
Definition F_ (E : Parser AST) : Parser AST :=
  tok <- lex_peek ;;
  if kind_is "NUMBER" tok then
    _ <- lex_next ;; ret (Number (snd tok))
  else if kind_is "ID" tok then
    _ <- lex_next ;; ret (Identifier (snd tok))
  else if kind_is "(" tok then
    _ <- lex_next ;;
    node <- E ;;
    tok' <- lex_peek ;;
    if negb (kind_is ")" tok') then raise (SyntaxError CloseParenExpected)
    else _ <- lex_next ;; ret node
  else raise (SyntaxError (UnexpectedTokenInF tok)).

(** The body of [T], given [F]. *)
Definition T_ (fuel : nat) (F : Parser AST) : Parser AST :=
  node <- F ;;
  while_ fuel (kind_in ["*"; "/"]%string)
    (fun node =>
       t <- lex_next ;;
       let op := fst t in
       right <- F ;;
       ret (BinOp op node right))
    node.

(** The body of [E], given [T]. *)
Definition E_ (fuel : nat) (T : Parser AST) : Parser AST :=
  node <- T ;;
  while_ fuel (kind_in ["+"; "-"]%string)
    (fun node =>
       t <- lex_next ;;
       let op := fst t in
       right <- T ;;
       ret (BinOp op node right))
    node.

Fixpoint E (fuel : nat) : Parser AST :=
  match fuel with
  | 0 => fun _ => OutOfFuel
  | S fuel' => E_ fuel' (T_ fuel' (F_ (E fuel')))
  end.

Definition F (fuel : nat) : Parser AST := F_ (E fuel).

Definition T (fuel : nat) : Parser AST := T_ fuel (F fuel).

Definition parse_expression (U : UnicodeTables) (text : str) : Result AST :=
  let lex := ExprLexer_init U text in
  match E (S (length (tokens lex))) lex with
  | Ok (ast, lex') =>
      if negb (kind_is "EOF" (peek lex')) then Raise (SyntaxError ExtraInput)
      else Ok ast
  | Raise e => Raise e
  | OutOfFuel => OutOfFuel
  end.



(** ** The tree printer

    [pretty_print_ast] calls [print] once in each call of itself.  The model
    gives the strings printed, in the order of the calls of [print], and
    whether the call returned.  [stack] is the number of nested calls of
    [pretty_print_ast] that the interpreter still allows: with none left the
    call raises RecursionError before it prints, no caller handles it, and
    what was printed before stays printed.  [indent] is a Python [int], and
    the product of a string and a negative number is the empty string.  A
    tree is made of the three classes above, as the trees of
    [parse_expression] are; the last branch of the source, for an object of
    another class, is outside the model. *)

Definition pad (indent : Z) : str :=
  concat (repeat (str_of "  ") (Z.to_nat indent)).

Fixpoint pretty_print_ast (stack : nat) (node : AST) (indent : Z)
    : list str * bool :=
  match stack with
  | 0 => ([], false)
  | S stack' =>
      match node with
      | BinOp op l r =>
          let line := pad indent ++ str_of "BINOP " ++ op in
          let (ls, returned) := pretty_print_ast stack' l (indent + 1) in
          if returned then
            let (rs, returned') := pretty_print_ast stack' r (indent + 1) in
            (line :: ls ++ rs, returned')
          else (line :: ls, false)
      | Number value => ([pad indent ++ str_of "NUMBER: " ++ value], true)
      | Identifier name => ([pad indent ++ str_of "ID: " ++ name], true)
      end
  end.

(** ** Notions used in the statements *)

(** A pattern that never matches the empty string and never reads past the
    end of the text. *)
Definition re_ok (G : Type) (re : matcher G) : Prop :=
  forall s n g, re s = Some (n, g) -> 1 <= n <= length s.

Definition bounded (A : Type) (m : matcher A) : Prop :=
  forall s n a, m s = Some (n, a) -> n <= length s.

Definition positive (A : Type) (m : matcher A) : Prop :=
  forall s n a, m s = Some (n, a) -> 1 <= n.

(** All characters of a match belong to [P]. *)
Definition chars_in (A : Type) (P : char -> Prop) (m : matcher A) : Prop :=
  forall s n a, m s = Some (n, a) -> Forall P (firstn n s).

(** The match [m] reported [d] characters further. *)
Definition shift_match (G : Type) (d : nat) (m : Match G) : Match G :=
  {| m_start := d + m_start m; m_group := m_group m; m_groups := m_groups m |}.

Definition shift_token (d : nat) (t : Token) : Token :=
  (tok_kind t, tok_val t, d + tok_pos t).

(** [val] occupies the offsets [pos .. pos + len(val) - 1] of [src]. *)
Definition substring_at (src val : str) (pos : nat) : Prop :=
  exists pre post, src = pre ++ val ++ post /\ length pre = pos.

(** The kind [tokenize] gives to a match of group [kind] and text [val]. *)
Definition out_kind (kind : TokKind) (val : str) : TokKind :=
  if TokKind_eqb kind ID && str_in val KEYWORDS then KEYWORD
  else if TokKind_eqb kind UNKNOWN then ERROR
  else kind.

(** A character that no rule of [TOKEN_SPEC] before [UNKNOWN] can read,
    wherever it stands: no digit, letter or underscore, none of the
    characters of the operators and punctuation, not the dot of [FLOAT] and
    no skipped space. *)
Definition unmatched_char (U : UnicodeTables) (c : char) : bool :=
  negb (re_digit U c) && negb (id_part c)
  && negb (existsb (char_eqb c) (str_of "=!<>+-*/();,."))
  && negb (skip_char c).

(** The pattern [m] reads no further than a character [c]: what follows
    an occurrence of [c] is of no import to the match. *)
Definition stops_at (A : Type) (c : char) (m : matcher A) : Prop :=
  forall s post, m (s ++ c :: post) = m s.

(** A runtime whose Unicode database ends with Latin-1. *)
Definition latin1_only : UnicodeTables :=
  {| uni_alpha := fun _ => false; uni_alnum := fun _ => false;
     uni_decimal := fun _ => false; uni_space := fun _ => false |}.

(** The whole of [s] matches [[A-Za-z_][A-Za-z0-9_]*]. *)
Definition fullmatch_ident (s : str) : bool :=
  match s with
  | [] => false
  | c :: rest => id_start c && forallb id_part rest
  end.

(** [parse_expression] from the tokens of the lexer on. *)
Definition parse_tokens (ts : list ExprToken) : Result AST :=
  let lex := {| tokens := ts; pos := 0 |} in
  match E (S (length (tokens lex))) lex with
  | Ok (ast, lex') =>
      if negb (kind_is "EOF" (peek lex')) then Raise (SyntaxError ExtraInput)
      else Ok ast
  | Raise e => Raise e
  | OutOfFuel => OutOfFuel
  end.

(** A token that is a whole factor, and its leaf. *)
Definition is_atom (t : ExprToken) : bool :=
  kind_is "NUMBER" t || kind_is "ID" t.

Definition atom (t : ExprToken) : AST :=
  if kind_is "NUMBER" t then Number (snd t) else Identifier (snd t).

(** The tokens of a chain of operators, each with its right operand, and
    the tree that folds them to the left from [node]. *)
Definition chain (pairs : list (ExprToken * ExprToken)) : list ExprToken :=
  flat_map (fun p => [fst p; snd p]) pairs.

Definition fold_binop (node : AST) (pairs : list (ExprToken * ExprToken))
    : AST :=
  fold_left (fun acc p => BinOp (fst (fst p)) acc (atom (snd p))) pairs node.

(** The tokens left to read. *)
Definition remaining (lex : ExprLexer) : nat :=
  length (tokens lex) - pos lex.

(** [lex'] is [lex] after at least one token was read, none past the end. *)
Definition advances (lex lex' : ExprLexer) : Prop :=
  tokens lex' = tokens lex /\ pos lex < pos lex' <= length (tokens lex).

Definition advancing (A : Type) (p : Parser A) : Prop :=
  forall lex a lex', p lex = Ok (a, lex') -> advances lex lex'.

(** [q] gives every outcome that [p] reaches within its fuel. *)
Definition refines (A : Type) (p q : Parser A) : Prop :=
  forall lex r, p lex = r -> r <> OutOfFuel -> q lex = r.

(** [p] does not run out of fuel when at most [n] tokens are left. *)
Definition safe_upto (A : Type) (n : nat) (p : Parser A) : Prop :=
  forall lex, remaining lex <= n -> p lex <> OutOfFuel.

(** The common shape of [T] and [E]: an operand, then operators of [ops]
    each with one more operand. *)
Definition level (fuel : nat) (ops : list string) (operand : Parser AST)
    : Parser AST :=
  node <- operand ;;
  while_ fuel (kind_in ops)
    (fun node =>
       t <- lex_next ;;
       let op := fst t in
       right <- operand ;;
       ret (BinOp op node right))
    node.

(** [E] parses [ast] from [lex] and leaves [lex']. *)
Definition parses (lex : ExprLexer) (ast : AST) (lex' : ExprLexer) : Prop :=
  exists fuel, E fuel lex = Ok (ast, lex').

(** What one match adds to the tokens of [tokenize]. *)
Definition emitted (m : Match TokKind) : list Token :=
  if TokKind_eqb (m_groups m) SKIP then []
  else [(out_kind (m_groups m) (m_group m), m_group m, m_start m)].

(** The number of nodes of a tree. *)
Fixpoint nodes (a : AST) : nat :=
  match a with
  | BinOp _ l r => S (nodes l + nodes r)
  | Number _ | Identifier _ => 1
  end.

(** The nesting of calls that printing a tree needs. *)
Fixpoint height (a : AST) : nat :=
  match a with
  | BinOp _ l r => S (Nat.max (height l) (height r))
  | Number _ | Identifier _ => 1
  end.

(** What the line of a node says after its indentation. *)
Definition label (a : AST) : str :=
  match a with
  | BinOp op _ _ => str_of "BINOP " ++ op
  | Number value => str_of "NUMBER: " ++ value
  | Identifier name => str_of "ID: " ++ name
  end.

(** The node reached from the root by a path, where [false] goes to the
    left operand and [true] to the right one. *)
Fixpoint subtree (path : list bool) (a : AST) : option AST :=
  match path, a with
  | [], _ => Some a
  | false :: path', BinOp _ l _ => subtree path' l
  | true :: path', BinOp _ _ r => subtree path' r
  | _ :: _, _ => None
  end.

(** The number of nodes that come before the node of a path when the root
    comes first, then the left operand with all below it, then the right
    one. *)
Fixpoint line_no (path : list bool) (a : AST) : nat :=
  match path, a with
  | false :: path', BinOp _ l _ => S (line_no path' l)
  | true :: path', BinOp _ l r => S (nodes l + line_no path' r)
  | _, _ => 0
  end.

(** The lines of a call of [pretty_print_ast] that returns. *)
Fixpoint lines_of (a : AST) (indent : Z) : list str :=
  match a with
  | BinOp op l r =>
      (pad indent ++ str_of "BINOP " ++ op)
      :: lines_of l (indent + 1) ++ lines_of r (indent + 1)
  | Number value => [pad indent ++ str_of "NUMBER: " ++ value]
  | Identifier name => [pad indent ++ str_of "ID: " ++ name]
  end.

(** The length of the longest prefix of [s] in the class [p]. *)
Fixpoint run (p : char -> bool) (s : str) : nat :=
  match s with
  | c :: rest => if p c then S (run p rest) else 0
  | [] => 0
  end.

(** One or more digits of the class of the pattern. *)
Definition digits (U : UnicodeTables) (v : str) : Prop :=
  v <> [] /\ Forall (fun c => re_digit U c = true) v.

(** The texts that each kind of token of [tokenize] can carry. *)
Definition token_shape (U : UnicodeTables) (t : Token) : Prop :=
  match tok_kind t with
  | FLOAT =>
      exists a b, tok_val t = a ++ chr "." :: b /\ digits U a /\ digits U b
  | INT => digits U (tok_val t)
  | ID => fullmatch_ident (tok_val t) = true /\ ~ In (tok_val t) KEYWORDS
  | KEYWORD => In (tok_val t) KEYWORDS
  | OP =>
      In (tok_val t)
        (map str_of ["=="; "!="; "<="; ">="; "+"; "-"; "*"; "/"; "="]%string)
  | LPAREN => tok_val t = str_of "("
  | RPAREN => tok_val t = str_of ")"
  | SEMI => tok_val t = str_of ";"
  | COMMA => tok_val t = str_of ","
  | ERROR => exists c, tok_val t = [c] /\ skip_char c = false
  | SKIP | UNKNOWN => False
  end.

(** The text is one token, an identifier or a reserved word. *)
Definition one_word (U : UnicodeTables) (s : str) : Prop :=
  tokenize U s = [(ID, s, 0)] \/ tokenize U s = [(KEYWORD, s, 0)].

(** The text of a number of the parser's lexer: digits, or digits, a dot
    and digits. *)
Definition number_text (U : UnicodeTables) (v : str) : Prop :=
  digits U v \/
  exists a b, v = a ++ chr "." :: b /\ digits U a /\ digits U b.

(** The tokens that [ExprLexer] makes. *)
Definition expr_token_shape (U : UnicodeTables) (t : ExprToken) : Prop :=
  (fst t = str_of "NUMBER" /\ number_text U (snd t)) \/
  (fst t = str_of "ID" /\ fullmatch_ident (snd t) = true) \/
  (exists c, In c (str_of "+-*/()") /\ t = ([c], [c])) \/
  (exists c, fst t = str_of "ERROR" /\ snd t = [c] /\
             ~ In c (str_of "+-*/()") /\ c <> chr "010" /\
             re_digit U c = false /\ id_start c = false).

(** What a match of [TOKEN_RE] can capture. *)
Definition groups_shape (U : UnicodeTables) (g : Groups) : Prop :=
  match g with
  | GNum num => number_text U num
  | GIdent ident => fullmatch_ident ident = true
  | GOther other =>
      exists c, other = [c] /\ c <> chr "010" /\
                re_digit U c = false /\ id_start c = false
  end.

(** *** The grammar of the parser

    The comment of the source before [parse_expression] gives it as

      E -> T { (+|-) T }
      T -> F { ( *|/) F }
      F -> NUMBER | ID | "(" E ")"

    [g_rep ops X node ts a]: [ts] is a sequence [{ op X }] of operators of
    [ops], each with an operand of [X], and [a] is the tree that puts them
    on [node] from left to right. *)
Inductive g_rep (ops : list string) (X : list ExprToken -> AST -> Prop)
    : AST -> list ExprToken -> AST -> Prop :=
  | g_rep_nil node : g_rep ops X node [] node
  | g_rep_cons node op ts b rest a :
      kind_in ops op = true ->
      X ts b ->
      g_rep ops X (BinOp (fst op) node b) rest a ->
      g_rep ops X node (op :: ts ++ rest) a.

(** [X { op X }]. *)
Inductive g_level (ops : list string) (X : list ExprToken -> AST -> Prop)
    : list ExprToken -> AST -> Prop :=
  | g_level_intro ts0 a0 rest a :
      X ts0 a0 -> g_rep ops X a0 rest a -> g_level ops X (ts0 ++ rest) a.

(** [NUMBER | ID | "(" E ")"], for the expressions [Ex]. *)
Inductive g_factor (Ex : list ExprToken -> AST -> Prop)
    : list ExprToken -> AST -> Prop :=
  | g_number t :
      kind_is "NUMBER" t = true -> g_factor Ex [t] (Number (snd t))
  | g_ident t :
      kind_is "ID" t = true -> g_factor Ex [t] (Identifier (snd t))
  | g_paren l ts a r :
      kind_is "(" l = true -> Ex ts a -> kind_is ")" r = true ->
      g_factor Ex (l :: ts ++ [r]) a.

(** The expressions with parentheses nested less than [depth] deep. *)
Fixpoint g_E (depth : nat) : list ExprToken -> AST -> Prop :=
  match depth with
  | 0 => fun _ _ => False
  | S d =>
      g_level ["+"; "-"]%string
        (g_level ["*"; "/"]%string (g_factor (g_E d)))
  end.

(** The tokens [ts] are an expression of the grammar, with the tree [a]. *)
Definition derives (ts : list ExprToken) (a : AST) : Prop :=
  exists depth, g_E depth ts a.

(** The tokens [ts] are an expression without parentheses, with the tree
    [a]: numbers and identifiers with operators between them. *)
Definition flat_expr (ts : list ExprToken) (a : AST) : Prop := g_E 1 ts a.

(** From [lex] to [lex'] the tokens [ts] were read. *)
Definition reads (lex : ExprLexer) (ts : list ExprToken) (lex' : ExprLexer)
    : Prop :=
  tokens lex' = tokens lex /\
  pos lex' = pos lex + length ts /\
  skipn (pos lex) (tokens lex) = ts ++ skipn (pos lex') (tokens lex).

(** What [p] parses is in [X]. *)
Definition sound (X : list ExprToken -> AST -> Prop) (p : Parser AST)
    : Prop :=
  forall lex a lex', p lex = Ok (a, lex') -> exists ts, reads lex ts lex' /\ X ts a.

(** [p] parses what is in [X], wherever it stands in the tokens, when at
    most [m] tokens are left and the token after it is not in [fol]. *)
Definition complete_upto (m : nat) (fol : ExprToken -> bool)
    (X : list ExprToken -> AST -> Prop) (p : Parser AST) : Prop :=
  forall all n ts post a,
    X ts a ->
    skipn n all = ts ++ post ->
    fol (hd EOF_token post) = false ->
    length (ts ++ post) <= m ->
    p {| tokens := all; pos := n |}
    = Ok (a, {| tokens := all; pos := n + length ts |}).

(** The tokens that end an operand too early when they follow it: none for
    [F], which reads no further; [*] and [/] for [T]; these and [+] and [-]
    for [E]. *)
Definition follow_F (t : ExprToken) : bool := false.

Definition follow_T (t : ExprToken) : bool :=
  follow_F t || kind_in ["*"; "/"]%string t.

Definition follow_E (t : ExprToken) : bool :=
  follow_T t || kind_in ["+"; "-"]%string t.

(** The operands and operators of a tree, from left to right. *)
Fixpoint inorder (a : AST) : list str :=
  match a with
  | BinOp op l r => inorder l ++ op :: inorder r
  | Number value => [value]
  | Identifier name => [name]
  end.

Definition is_paren (t : ExprToken) : bool := kind_in ["("; ")"]%string t.

(** The kinds of tokens that an expression is made of. *)
Definition accepted_kind (t : ExprToken) : bool :=
  kind_in ["NUMBER"; "ID"; "+"; "-"; "*"; "/"; "("; ")"]%string t.

(** The number of parentheses open after the tokens [ts], when [d] were
    open before them; [None] when one closes that was not open. *)
Fixpoint paren_depth (d : nat) (ts : list ExprToken) : option nat :=
  match ts with
  | [] => Some d
  | t :: rest =>
      if kind_is "(" t then paren_depth (S d) rest
      else if kind_is ")" t then
        match d with
        | 0 => None
        | S d' => paren_depth d' rest
        end
      else paren_depth d rest
  end.

(** A whitespace character of ASCII or Latin-1 other than the newline:
    a space or a tab, for example. *)
Definition blank (c : char) : bool := latin1_space c && re_dot c.

(** * Properties *)

(** ** Strings *)

Lemma char_eqb_eq (a b : char) : char_eqb a b = true <-> a = b.
Proof. apply N.eqb_eq. Qed.


Lemma str_eqb_eq (a b : str) : str_eqb a b = true <-> a = b.
Proof.
  revert b; induction a as [|x a IH]; intros [|y b]; simpl;
    try (split; [discriminate | discriminate]); try tauto.
  rewrite andb_true_iff, char_eqb_eq, IH.
  split; [intros [-> ->]; reflexivity | intros H; inversion H; auto].
Qed.


(** ** Matchers *)

Lemma advance_Some (A : Type) (r : option (nat * A)) n a :
  advance r = Some (n, a) -> exists n', n = S n' /\ r = Some (n', a).
Proof.
  destruct r as [[n' a']|]; simpl; [|discriminate].
  intros H; inversion H; subst; eauto.
Qed.

Lemma bounded_end : bounded m_end.
Proof. intros s n a H; inversion H; apply Nat.le_0_l. Qed.

Lemma bounded_class (A : Type) p (k : matcher A) :
  bounded k -> bounded (m_class p k).
Proof.
  intros Hk [|c rest] n a; simpl; [discriminate|].
  destruct (p c); [|discriminate].
  intros H; apply advance_Some in H as (n' & -> & H).
  apply Hk in H. lia.
Qed.

Lemma bounded_star (A : Type) p (k : matcher A) :
  bounded k -> bounded (m_star p k).
Proof.
  intros Hk s; induction s as [|c rest IH]; intros n a; simpl.
  - apply Hk.
  - destruct (p c); [|apply (Hk (c :: rest))].
    destruct (m_star p k rest) as [[n' a']|] eqn:E.
    + simpl. intros H; inversion H; subst. specialize (IH _ _ eq_refl). lia.
    + apply (Hk (c :: rest)).
Qed.

Lemma bounded_plus (A : Type) p (k : matcher A) :
  bounded k -> bounded (m_plus p k).
Proof. intros; apply bounded_class, bounded_star; assumption. Qed.

Lemma bounded_alt (A : Type) (a b : matcher A) :
  bounded a -> bounded b -> bounded (m_alt a b).
Proof.
  intros Ha Hb s n x; unfold m_alt.
  destruct (a s) as [[n' a']|] eqn:E.
  - intros H; inversion H; subst; eapply Ha; eauto.
  - apply Hb.
Qed.

Lemma bounded_lit (A : Type) w (k : matcher A) :
  bounded k -> bounded (m_lit w k).
Proof.
  intros Hk; unfold m_lit.
  induction (str_of w); simpl; [assumption | apply bounded_class; assumption].
Qed.

Lemma bounded_capture (A : Type) m (f : str -> A) :
  bounded m -> bounded (m_capture m f).
Proof.
  intros Hm s n a; unfold m_capture.
  destruct (m s) as [[n' u]|] eqn:E; [|discriminate].
  intros H; inversion H; subst; eapply Hm; eauto.
Qed.

Lemma positive_class (A : Type) p (k : matcher A) : positive (m_class p k).
Proof.
  intros [|c rest] n a; simpl; [discriminate|].
  destruct (p c); [|discriminate].
  intros H; apply advance_Some in H as (n' & -> & _). lia.
Qed.

Lemma positive_star (A : Type) p (k : matcher A) :
  positive k -> positive (m_star p k).
Proof.
  intros Hk s; induction s as [|c rest IH]; intros n a; simpl.
  - apply Hk.
  - destruct (p c); [|apply (Hk (c :: rest))].
    destruct (m_star p k rest) as [[n' a']|] eqn:E.
    + simpl. intros H; inversion H; subst. lia.
    + apply (Hk (c :: rest)).
Qed.

Lemma positive_plus (A : Type) p (k : matcher A) : positive (m_plus p k).
Proof. apply positive_class. Qed.

Lemma positive_alt (A : Type) (a b : matcher A) :
  positive a -> positive b -> positive (m_alt a b).
Proof.
  intros Ha Hb s n x; unfold m_alt.
  destruct (a s) as [[n' a']|] eqn:E.
  - intros H; inversion H; subst; eapply Ha; eauto.
  - apply Hb.
Qed.

Lemma positive_lit (A : Type) c w (k : matcher A) :
  positive (m_lit (String c w) k).
Proof. unfold m_lit; simpl. apply positive_class. Qed.

Lemma positive_capture (A : Type) m (f : str -> A) :
  positive m -> positive (m_capture m f).
Proof.
  intros Hm s n a; unfold m_capture.
  destruct (m s) as [[n' u]|] eqn:E; [|discriminate].
  intros H; inversion H; subst; eapply Hm; eauto.
Qed.

Create HintDb matchers.

#[local] Hint Resolve bounded_end bounded_class bounded_star bounded_plus
  bounded_alt bounded_lit bounded_capture positive_class positive_star
  positive_plus positive_alt positive_lit positive_capture : matchers.

Lemma first_group_In spec s n g :
  first_group spec s = Some (n, g) ->
  exists p, In (g, p) spec /\ p s = Some (n, tt).
Proof.
  induction spec as [|[name p] spec IH]; simpl; [discriminate|].
  destruct (p s) as [[n' []]|] eqn:E.
  - intros H; inversion H; subst. exists p; auto.
  - intros H; destruct (IH H) as (q & Hq & Hs). exists q; auto.
Qed.

Lemma TOKEN_SPEC_ok U :
  Forall (fun e => bounded (snd e) /\ positive (snd e)) (TOKEN_SPEC U).
Proof.
  unfold TOKEN_SPEC.
  repeat (apply Forall_cons; [split; simpl; auto 20 with matchers|]).
  apply Forall_nil.
Qed.

Lemma MASTER_ok U : re_ok (MASTER U).
Proof.
  intros s n g H. apply first_group_In in H as (p & Hin & Hp).
  pose proof (TOKEN_SPEC_ok U) as Hall.
  rewrite Forall_forall in Hall. destruct (Hall _ Hin) as [Hb Hpos].
  split; [eapply Hpos | eapply Hb]; eauto.
Qed.

Lemma TOKEN_RE_ok U : re_ok (TOKEN_RE U).
Proof.
  intros s n g H; split.
  - revert H. apply positive_star. auto 20 with matchers.
  - revert H. apply bounded_star. auto 20 with matchers.
Qed.

(** ** [finditer] *)

Lemma finditer_shift (G : Type) (re : matcher G) d pos k s :
  finditer re (d + pos) k s = map (shift_match d) (finditer re pos k s).
Proof.
  revert pos k; induction s as [|c rest IH]; intros pos k.
  - destruct k; simpl; [|reflexivity].
    destruct (re []) as [[n g]|]; reflexivity.
  - destruct k; simpl.
    + destruct (re (c :: rest)) as [[n g]|]; simpl;
        rewrite <- IH, <- plus_n_Sm; reflexivity.
    + rewrite <- IH, <- plus_n_Sm; reflexivity.
Qed.

Section Finditer.

Variable G : Type.
Variable re : matcher G.
Hypothesis Hre : re_ok re.

Lemma re_nil : re [] = None.
Proof.
  destruct (re []) as [[n g]|] eqn:E; [|reflexivity].
  apply Hre in E; simpl in E; lia.
Qed.

Lemma finditer_nil pos k : finditer re pos k [] = [].
Proof. destruct k; simpl; [rewrite re_nil|]; reflexivity. Qed.

Lemma finditer_skip pos k s :
  finditer re pos k s = finditer re (pos + k) 0 (skipn k s).
Proof.
  revert pos k; induction s as [|c rest IH]; intros pos k.
  - rewrite skipn_nil, !finditer_nil; reflexivity.
  - destruct k.
    + rewrite Nat.add_0_r; reflexivity.
    + change (finditer re pos (S k) (c :: rest))
        with (finditer re (S pos) k rest).
      rewrite IH. simpl skipn. f_equal. lia.
Qed.

(** The scan, one match at a time. *)
Lemma finditer_cons pos c rest :
  finditer re pos 0 (c :: rest) =
  match re (c :: rest) with
  | Some (n, g) =>
      {| m_start := pos; m_group := firstn n (c :: rest); m_groups := g |}
      :: finditer re (pos + n) 0 (skipn n (c :: rest))
  | None => finditer re (S pos) 0 rest
  end.
Proof.
  simpl finditer.
  destruct (re (c :: rest)) as [[n g]|] eqn:E; [|reflexivity].
  apply Hre in E. destruct n as [|n]; [lia|].
  f_equal. simpl pred. rewrite finditer_skip. simpl skipn. f_equal. lia.
Qed.

(** Every match is a piece of the text, found by the pattern where it
    starts. *)
Lemma finditer_In s : forall pos m,
  In m (finditer re pos 0 s) ->
  exists pre post,
    s = pre ++ m_group m ++ post /\
    m_start m = pos + length pre /\
    re (m_group m ++ post) = Some (length (m_group m), m_groups m).
Proof.
  remember (length s) as len eqn:Hlen. revert s Hlen.
  induction len as [len IH] using lt_wf_ind; intros s Hlen pos m Hin.
  destruct s as [|c rest]; [rewrite finditer_nil in Hin; destruct Hin|].
  rewrite finditer_cons in Hin.
  destruct (re (c :: rest)) as [[n g]|] eqn:E.
  - pose proof (Hre E) as Hn.
    destruct Hin as [<-|Hin]; simpl m_group; simpl m_start; simpl m_groups.
    + exists [], (skipn n (c :: rest)). simpl app.
      rewrite firstn_skipn, firstn_length_le by lia.
      repeat split; auto.
    + apply (IH (length (skipn n (c :: rest)))) in Hin;
        [|rewrite length_skipn; subst len; lia | reflexivity].
      destruct Hin as (pre & post & Hs & Hst & Hm).
      exists (firstn n (c :: rest) ++ pre), post.
      rewrite <- app_assoc, <- Hs, firstn_skipn, length_app,
        firstn_length_le by lia.
      repeat split; auto; lia.
  - apply (IH (length rest)) in Hin; [|subst len; simpl; lia | reflexivity].
    destruct Hin as (pre & post & Hs & Hst & Hm).
    exists (c :: pre), post. simpl. rewrite <- Hs.
    repeat split; auto; lia.
Qed.

Lemma finditer_nonempty s pos m :
  In m (finditer re pos 0 s) -> m_group m <> [].
Proof.
  intros Hin. apply finditer_In in Hin as (pre & post & _ & _ & Hm).
  apply Hre in Hm. destruct (m_group m); simpl in Hm; [lia | discriminate].
Qed.

(** The matches come in the order of the text and do not overlap. *)
Lemma finditer_sorted s : forall pos,
  StronglySorted (fun a b => m_start a + length (m_group a) <= m_start b)
    (finditer re pos 0 s).
Proof.
  remember (length s) as len eqn:Hlen. revert s Hlen.
  induction len as [len IH] using lt_wf_ind; intros s Hlen pos.
  destruct s as [|c rest]; [rewrite finditer_nil; constructor|].
  rewrite finditer_cons.
  destruct (re (c :: rest)) as [[n g]|] eqn:E.
  - pose proof (Hre E) as Hn. apply SSorted_cons.
    + apply (IH (length (skipn n (c :: rest))));
        [rewrite length_skipn; subst len; lia | reflexivity].
    + apply Forall_forall; intros m Hin.
      apply finditer_In in Hin as (pre & post & _ & Hst & _).
      simpl m_start; simpl m_group.
      rewrite firstn_length_le by lia. lia.
  - apply (IH (length rest)); [subst len; simpl; lia | reflexivity].
Qed.

(** When the pattern matches at every position, the matches tile the text. *)
Lemma finditer_tile :
  (forall c rest, re (c :: rest) <> None) ->
  forall s pos, concat (map (@m_group G) (finditer re pos 0 s)) = s.
Proof.
  intros Htot s. remember (length s) as len eqn:Hlen. revert s Hlen.
  induction len as [len IH] using lt_wf_ind; intros s Hlen pos.
  destruct s as [|c rest]; [rewrite finditer_nil; reflexivity|].
  rewrite finditer_cons.
  destruct (re (c :: rest)) as [[n g]|] eqn:E; [|destruct (Htot _ _ E)].
  pose proof (Hre E) as Hn. simpl map; simpl concat.
  rewrite (IH (length (skipn n (c :: rest))));
    [apply firstn_skipn | rewrite length_skipn; subst len; lia | reflexivity].
Qed.

End Finditer.

(** ** Characters *)

Ltac char_unfold :=
  cbv [isalpha isalnum re_digit re_space latin1_alpha latin1_alnum
       latin1_space ascii_letter ascii_digit id_start id_part skip_char
       re_dot in_range code_range char_eqb chr unmatched_char str_of
       list_ascii_of_string map existsb] in *;
  repeat match goal with
  | |- context [N_of_ascii ?a] =>
      let v := eval vm_compute in (N_of_ascii a) in
      change (N_of_ascii a) with v
  | H : context [N_of_ascii ?a] |- _ =>
      let v := eval vm_compute in (N_of_ascii a) in
      change (N_of_ascii a) with v in H
  end.

Ltac bool_to_prop :=
  repeat match goal with
  | H : _ = true |- _ =>
      progress rewrite ?orb_true_iff, ?andb_true_iff, ?negb_true_iff,
        ?orb_false_iff, ?andb_false_iff, ?negb_false_iff,
        ?N.leb_le, ?N.ltb_lt, ?N.eqb_eq, ?N.leb_gt, ?N.ltb_ge, ?N.eqb_neq in H
  | H : _ = false |- _ =>
      progress rewrite ?orb_true_iff, ?andb_true_iff, ?negb_true_iff,
        ?orb_false_iff, ?andb_false_iff, ?negb_false_iff,
        ?N.leb_le, ?N.ltb_lt, ?N.eqb_eq, ?N.leb_gt, ?N.ltb_ge, ?N.eqb_neq in H
  end;
  rewrite ?orb_true_iff, ?andb_true_iff, ?negb_true_iff,
    ?orb_false_iff, ?andb_false_iff, ?negb_false_iff,
    ?N.leb_le, ?N.ltb_lt, ?N.eqb_eq, ?N.leb_gt, ?N.ltb_ge, ?N.eqb_neq.

Ltac char_solve :=
  char_unfold;
  repeat match goal with
  | |- context [if (?a <? ?b)%N then _ else _] => destruct (N.ltb_spec a b)
  | H : context [if (?a <? ?b)%N then _ else _] |- _ =>
      destruct (N.ltb_spec a b)
  end;
  bool_to_prop; try lia.

Lemma re_digit_not_skip U c : re_digit U c = true -> skip_char c = false.
Proof. intros H. char_solve. Qed.

Lemma id_part_not_skip c : id_part c = true -> skip_char c = false.
Proof. intros H. char_solve. Qed.

Lemma id_start_part c : id_start c = true -> id_part c = true.
Proof. intros H. char_solve. Qed.

Lemma skip_char_dot c : re_dot c = false -> skip_char c = true.
Proof. intros H. char_solve. Qed.

Lemma chars_in_end P : chars_in P m_end.
Proof. intros s n a H; inversion H; constructor. Qed.

Lemma chars_in_class (A : Type) (P : char -> Prop) p (k : matcher A) :
  (forall c, p c = true -> P c) -> chars_in P k -> chars_in P (m_class p k).
Proof.
  intros Hp Hk [|c rest] n a; simpl; [discriminate|].
  destruct (p c) eqn:Epc; [|discriminate].
  intros H; apply advance_Some in H as (n' & -> & H).
  simpl; constructor; [auto | eapply Hk; eauto].
Qed.

Lemma chars_in_star (A : Type) (P : char -> Prop) p (k : matcher A) :
  (forall c, p c = true -> P c) -> chars_in P k -> chars_in P (m_star p k).
Proof.
  intros Hp Hk s; induction s as [|c rest IH]; intros n a; simpl.
  - apply Hk.
  - destruct (p c) eqn:Epc; [|apply (Hk (c :: rest))].
    destruct (m_star p k rest) as [[n' a']|] eqn:E.
    + simpl. intros H; inversion H; subst.
      simpl; constructor; [auto | eapply IH; eauto].
    + apply (Hk (c :: rest)).
Qed.

Lemma chars_in_plus (A : Type) (P : char -> Prop) p (k : matcher A) :
  (forall c, p c = true -> P c) -> chars_in P k -> chars_in P (m_plus p k).
Proof. intros; apply chars_in_class, chars_in_star; assumption. Qed.

Lemma chars_in_alt (A : Type) (P : char -> Prop) (a b : matcher A) :
  chars_in P a -> chars_in P b -> chars_in P (m_alt a b).
Proof.
  intros Ha Hb s n x; unfold m_alt.
  destruct (a s) as [[n' a']|] eqn:E.
  - intros H; inversion H; subst; eapply Ha; eauto.
  - apply Hb.
Qed.

Lemma chars_in_lit (A : Type) (P : char -> Prop) w (k : matcher A) :
  Forall P (str_of w) -> chars_in P k -> chars_in P (m_lit w k).
Proof.
  intros Hw Hk; unfold m_lit.
  induction Hw as [|c l Hc Hl IH]; simpl; [assumption|].
  apply chars_in_class; [|assumption].
  intros c' Hc'; apply char_eqb_eq in Hc'; subst; assumption.
Qed.

(** ** The pattern [MASTER] *)

Lemma TokKind_eqb_eq a b : TokKind_eqb a b = true <-> a = b.
Proof. destruct a, b; simpl; split; congruence. Qed.


Lemma first_group_ext spec s1 s2 :
  Forall (fun e => snd e s1 = snd e s2) spec ->
  first_group spec s1 = first_group spec s2.
Proof.
  induction 1 as [|[name p] spec Hp _ IH]; simpl; [reflexivity|].
  simpl in Hp. rewrite Hp, IH. reflexivity.
Qed.

Lemma m_star_end_total p s : m_star p m_end s <> None.
Proof.
  induction s as [|c rest IH]; simpl; [discriminate|].
  destruct (p c); [|discriminate].
  destruct (m_star p m_end rest) as [[n u]|]; simpl; [discriminate|].
  destruct (IH eq_refl).
Qed.

(** The sequence of the alternatives of [MASTER] at [s]: one case for each
    group that matches, with the failure of those before it. *)
Ltac master_cases s :=
  unfold MASTER, TOKEN_SPEC; cbn [first_group];
  repeat match goal with
  | |- context [match ?m s with Some _ => _ | None => _ end] =>
      destruct (m s) as [[? []]|] eqn:?
  end.

(** At every character some alternative matches: the last one takes any
    character but the newline, which [SKIP] takes. *)
Lemma MASTER_total U c rest : MASTER U (c :: rest) <> None.
Proof.
  master_cases (c :: rest); try discriminate.
  exfalso.
  match goal with
  | Hs : m_plus skip_char m_end _ = None,
    Hu : m_class re_dot m_end _ = None |- _ =>
      unfold m_plus in Hs; simpl in Hs, Hu;
      destruct (re_dot c) eqn:Ed; [discriminate Hu|];
      rewrite (skip_char_dot _ Ed) in Hs;
      destruct (m_star skip_char m_end rest) as [[n u]|] eqn:Es;
        [discriminate Hs | exact (m_star_end_total _ _ Es)]
  end.
Qed.

(** A match of the last alternative is one character that [SKIP] refused. *)
Lemma MASTER_UNKNOWN U s n :
  MASTER U s = Some (n, UNKNOWN) ->
  exists c rest, s = c :: rest /\ n = 1 /\ skip_char c = false.
Proof.
  master_cases s; intros H; inversion H; subst.
  match goal with
  | Hs : m_plus skip_char m_end _ = None,
    Hu : m_class re_dot m_end _ = Some _ |- _ =>
      destruct s as [|c rest]; simpl in Hu; [discriminate Hu|];
      destruct (re_dot c); inversion Hu; subst;
      exists c, rest; repeat split;
      unfold m_plus in Hs; simpl in Hs;
      destruct (skip_char c); [|reflexivity];
      destruct (m_star skip_char m_end rest) as [[k u]|] eqn:Es;
        [discriminate Hs | destruct (m_star_end_total _ _ Es)]
  end.
Qed.

Lemma TOKEN_SPEC_chars U :
  Forall (fun e => fst e <> SKIP -> fst e <> UNKNOWN ->
                   chars_in (fun c => skip_char c = false) (snd e))
    (TOKEN_SPEC U).
Proof.
  assert (Hlit : forall (x c : char),
            skip_char x = false -> char_eqb x c = true -> skip_char c = false).
  { intros x c Hx Hc; apply char_eqb_eq in Hc; subst; assumption. }
  unfold TOKEN_SPEC.
  repeat (apply Forall_cons;
    [simpl; intros Hs Hu; try congruence;
     repeat first
       [ apply chars_in_end
       | apply chars_in_plus; [apply re_digit_not_skip|]
       | apply chars_in_class;
           [intros c Hc; apply id_part_not_skip, id_start_part, Hc|]
       | apply chars_in_star; [apply id_part_not_skip|]
       | apply chars_in_alt
       | apply chars_in_lit; [repeat constructor|] ]
    |]).
  apply Forall_nil.
Qed.

(** No match outside [SKIP] holds a character of the class of [SKIP]. *)
Lemma MASTER_chars U s n g :
  MASTER U s = Some (n, g) -> g <> SKIP ->
  Forall (fun c => skip_char c = false) (firstn n s).
Proof.
  intros H Hg.
  destruct (TokKind_eqb g UNKNOWN) eqn:Eu.
  - apply TokKind_eqb_eq in Eu; subst g.
    apply MASTER_UNKNOWN in H as (c & rest & -> & -> & Hc).
    simpl; repeat constructor; assumption.
  - assert (g <> UNKNOWN) as Hu
      by (intros ->; discriminate Eu).
    apply first_group_In in H as (p & Hin & Hp).
    pose proof (TOKEN_SPEC_chars U) as Hall.
    rewrite Forall_forall in Hall.
    exact (Hall _ Hin Hg Hu _ _ _ Hp).
Qed.

(** ** The loop of [tokenize] *)

Lemma tokenize_step_eq acc m : tokenize_step acc m = acc ++ emitted m.
Proof.
  unfold tokenize_step, emitted, out_kind.
  destruct (TokKind_eqb (m_groups m) SKIP); [rewrite app_nil_r; reflexivity|].
  destruct (TokKind_eqb (m_groups m) ID && str_in (m_group m) KEYWORDS);
    simpl; [reflexivity|].
  destruct (TokKind_eqb (m_groups m) UNKNOWN); reflexivity.
Qed.

Lemma fold_tokenize_step ms : forall acc,
  fold_left tokenize_step ms acc = acc ++ flat_map emitted ms.
Proof.
  induction ms as [|m ms IH]; intros acc; simpl.
  - rewrite app_nil_r; reflexivity.
  - rewrite IH, tokenize_step_eq, <- app_assoc; reflexivity.
Qed.

Lemma tokenize_flat_map U src :
  tokenize U src = flat_map emitted (finditer (MASTER U) 0 0 src).
Proof. unfold tokenize; rewrite fold_tokenize_step; reflexivity. Qed.

Lemma In_emitted t m :
  In t (emitted m) <->
  m_groups m <> SKIP /\
  t = (out_kind (m_groups m) (m_group m), m_group m, m_start m).
Proof.
  unfold emitted. destruct (TokKind_eqb (m_groups m) SKIP) eqn:E.
  - apply TokKind_eqb_eq in E. simpl; split; [tauto | intros [H _]; auto].
  - assert (m_groups m <> SKIP) by (intros H; rewrite H in E; discriminate).
    simpl; split; [intros [<-|[]]; auto | intros [_ ->]; auto].
Qed.

Lemma In_tokenize U src t :
  In t (tokenize U src) <->
  exists m, In m (finditer (MASTER U) 0 0 src) /\ m_groups m <> SKIP /\
            t = (out_kind (m_groups m) (m_group m), m_group m, m_start m).
Proof.
  rewrite tokenize_flat_map, in_flat_map.
  split; intros (m & Hm & Ht); exists m; split; auto; apply In_emitted; auto.
Qed.

Lemma out_kind_not_SKIP g v : g <> SKIP -> out_kind g v <> SKIP.
Proof.
  unfold out_kind; intros Hg.
  destruct (TokKind_eqb g ID && str_in v KEYWORDS); [discriminate|].
  destruct (TokKind_eqb g UNKNOWN); [discriminate | assumption].
Qed.

Lemma firstn_length_app (A : Type) (l1 l2 : list A) :
  firstn (length l1) (l1 ++ l2) = l1.
Proof.
  rewrite firstn_app, firstn_all, Nat.sub_diag, firstn_O, app_nil_r.
  reflexivity.
Qed.


(** The tokens follow one another in the text without overlap. *)
Lemma tokenize_sorted U src :
  StronglySorted (fun a b => tok_pos a + length (tok_val a) <= tok_pos b)
    (tokenize U src).
Proof.
  rewrite tokenize_flat_map.
  pose proof (finditer_sorted (MASTER_ok U) src 0) as Hs.
  induction Hs as [|m ms Hms IH Hall]; simpl; [constructor|].
  unfold emitted at 1.
  destruct (TokKind_eqb (m_groups m) SKIP); simpl; [assumption|].
  apply SSorted_cons; [assumption|].
  apply Forall_flat_map. rewrite Forall_forall in Hall.
  apply Forall_forall; intros m' Hin.
  apply Forall_forall; intros t Ht. apply In_emitted in Ht as [_ ->].
  unfold tok_pos, tok_val; simpl. apply Hall, Hin.
Qed.

(** Every token is a piece of the text that is not empty, holds no skipped
    space and stands at its offset. *)
Lemma tokenize_token U src t :
  In t (tokenize U src) ->
  tok_val t <> [] /\ substring_at src (tok_val t) (tok_pos t) /\
  tok_kind t <> SKIP /\ Forall (fun c => skip_char c = false) (tok_val t).
Proof.
  intros Ht. apply In_tokenize in Ht as (m & Hm & Hg & ->).
  unfold tok_val, tok_pos, tok_kind; simpl.
  pose proof (finditer_nonempty (MASTER_ok U) _ _ _ Hm) as Hne.
  apply (finditer_In (MASTER_ok U)) in Hm as (pre & post & Hs & Hst & Hre).
  repeat split.
  - assumption.
  - exists pre, post; split; [assumption | simpl in Hst; auto].
  - apply out_kind_not_SKIP; assumption.
  - apply MASTER_chars in Hre; [|assumption].
    rewrite firstn_length_app in Hre; assumption.
Qed.

(** ** Claims on the tokenizer *)

(** C8.  For every source text the tokens of [tokenize] have non-decreasing
    offsets (each token even ends before the next one starts), the text of a
    token is a non-empty contiguous piece of the source that starts at the
    token's offset, and no whitespace token is in the output: no token has
    the kind SKIP, nor holds a character of the class of SKIP.  The text
    [x1 = 3.14;] gives the kinds ID, OP, FLOAT, SEMI with the texts [x1],
    [=], [3.14], [;] at the offsets 0, 3, 5, 9. *)
Theorem tokenize_invariants (U : UnicodeTables) :
  (forall src,
     StronglySorted (fun a b => tok_pos a <= tok_pos b) (tokenize U src) /\
     StronglySorted (fun a b => tok_pos a + length (tok_val a) <= tok_pos b)
       (tokenize U src) /\
     Forall (fun t => tok_val t <> [] /\
                      substring_at src (tok_val t) (tok_pos t))
       (tokenize U src) /\
     Forall (fun t => tok_kind t <> SKIP /\
                      Forall (fun c => skip_char c = false) (tok_val t))
       (tokenize U src)) /\
  tokenize U (str_of "x1 = 3.14;") =
    [ (ID, str_of "x1", 0); (OP, str_of "=", 3);
      (FLOAT, str_of "3.14", 5); (SEMI, str_of ";", 9) ].
Proof.
  split; [|vm_compute; reflexivity].
  intros src. pose proof (tokenize_sorted U src) as Hs.
  repeat split.
  - induction Hs as [|t ts Hts IH Hall]; constructor; [assumption|].
    eapply Forall_impl; [|exact Hall]. simpl; intros; lia.
  - assumption.
  - apply Forall_forall; intros t Ht.
    apply tokenize_token in Ht; tauto.
  - apply Forall_forall; intros t Ht.
    apply tokenize_token in Ht; tauto.
Qed.

Lemma str_in_In x xs : str_in x xs = true <-> In x xs.
Proof.
  unfold str_in. rewrite existsb_exists. split.
  - intros (y & Hy & E). apply str_eqb_eq in E; subst; assumption.
  - intros H; exists x; split; [assumption | apply str_eqb_eq; reflexivity].
Qed.

(** The groups of [MASTER] are those of [TOKEN_SPEC]: neither KEYWORD nor
    ERROR is the group of a match. *)
Lemma MASTER_group U s n g :
  MASTER U s = Some (n, g) -> g <> KEYWORD /\ g <> ERROR.
Proof.
  intros H. apply first_group_In in H as (p & Hin & _).
  unfold TOKEN_SPEC in Hin; simpl in Hin.
  repeat (destruct Hin as [Hin|Hin];
          [inversion Hin; split; discriminate|]).
  destruct Hin.
Qed.

Lemma finditer_MASTER_group U src m :
  In m (finditer (MASTER U) 0 0 src) ->
  m_groups m <> KEYWORD /\ m_groups m <> ERROR.
Proof.
  intros Hm.
  apply (finditer_In (MASTER_ok U)) in Hm as (pre & post & _ & _ & Hre).
  eapply MASTER_group; eauto.
Qed.

Lemma out_kind_KEYWORD g v :
  g <> KEYWORD -> out_kind g v = KEYWORD -> g = ID /\ In v KEYWORDS.
Proof.
  unfold out_kind; intros Hg.
  destruct (TokKind_eqb g ID) eqn:Ei; cbn [andb].
  - apply TokKind_eqb_eq in Ei.
    destruct (str_in v KEYWORDS) eqn:Ek.
    + intros _; split; [assumption | apply str_in_In; assumption].
    + subst g; cbn [TokKind_eqb]; discriminate.
  - destruct (TokKind_eqb g UNKNOWN); [discriminate | congruence].
Qed.

Lemma out_kind_ID g v : out_kind g v = ID -> g = ID /\ ~ In v KEYWORDS.
Proof.
  unfold out_kind.
  destruct (TokKind_eqb g ID) eqn:Ei; cbn [andb].
  - apply TokKind_eqb_eq in Ei.
    destruct (str_in v KEYWORDS) eqn:Ek; [discriminate|].
    intros _; split; [assumption|].
    intros Hin; apply str_in_In in Hin; congruence.
  - destruct (TokKind_eqb g UNKNOWN); [discriminate|].
    intros ->; discriminate.
Qed.

(** C7.  A match of the group ID enters the output of [tokenize] with the
    kind KEYWORD when its text is one of the reserved words, and with the
    kind ID otherwise; so a token of kind KEYWORD always carries a reserved
    word and a token of kind ID never does.  Each reserved word alone is one
    KEYWORD token, and [if x] gives the kinds KEYWORD, ID. *)
Theorem keyword_reclassification (U : UnicodeTables) :
  (forall src m,
     In m (finditer (MASTER U) 0 0 src) -> m_groups m = ID ->
     In (if str_in (m_group m) KEYWORDS then KEYWORD else ID,
         m_group m, m_start m) (tokenize U src)) /\
  (forall src t,
     In t (tokenize U src) ->
     (tok_kind t = KEYWORD -> In (tok_val t) KEYWORDS) /\
     (tok_kind t = ID -> ~ In (tok_val t) KEYWORDS)) /\
  KEYWORDS = map str_of ["if"; "else"; "while"; "return"; "int"; "float";
                         "for"; "break"; "continue"]%string /\
  Forall (fun w => tokenize U w = [(KEYWORD, w, 0)]) KEYWORDS /\
  map tok_kind (tokenize U (str_of "if x")) = [KEYWORD; ID].
Proof.
  split; [|split; [|split; [reflexivity|split]]].
  - intros src m Hm Hg. apply In_tokenize. exists m.
    split; [assumption|]. split; [rewrite Hg; discriminate|].
    unfold out_kind; rewrite Hg; simpl.
    destruct (str_in (m_group m) KEYWORDS); reflexivity.
  - intros src t Ht. apply In_tokenize in Ht as (m & Hm & _ & ->).
    unfold tok_kind, tok_val; cbn [fst snd].
    apply finditer_MASTER_group in Hm as [Hk _].
    split; intros H.
    + apply out_kind_KEYWORD in H; tauto.
    + apply out_kind_ID in H; tauto.
  - unfold KEYWORDS; simpl map.
    repeat (apply Forall_cons; [vm_compute; reflexivity|]).
    apply Forall_nil.
  - vm_compute; reflexivity.
Qed.

Lemma keyword_reclassification_witness :
  In (KEYWORD, str_of "if", 0) (tokenize latin1_only (str_of "if x")) /\
  In (ID, str_of "x", 3) (tokenize latin1_only (str_of "if x")).
Proof.
  split.
  - apply (proj1 (keyword_reclassification latin1_only) (str_of "if x")
             {| m_start := 0; m_group := str_of "if"; m_groups := ID |});
      [vm_compute; tauto | reflexivity].
  - apply (proj1 (keyword_reclassification latin1_only) (str_of "if x")
             {| m_start := 3; m_group := str_of "x"; m_groups := ID |});
      [vm_compute; tauto | reflexivity].
Defined.

(** ** Characters that no rule reads *)

Lemma stops_end c : stops_at c m_end.
Proof. intros s post; reflexivity. Qed.

Lemma stops_class (A : Type) c p (k : matcher A) :
  p c = false -> stops_at c k -> stops_at c (m_class p k).
Proof.
  intros Hp Hk [|x s] post; simpl.
  - rewrite Hp; reflexivity.
  - rewrite Hk; reflexivity.
Qed.

Lemma stops_star (A : Type) c p (k : matcher A) :
  p c = false -> stops_at c k -> stops_at c (m_star p k).
Proof.
  intros Hp Hk s post; induction s as [|x s IH]; simpl.
  - rewrite Hp. apply (Hk []).
  - rewrite IH.
    change (x :: s ++ c :: post) with ((x :: s) ++ c :: post).
    rewrite (Hk (x :: s)). reflexivity.
Qed.

Lemma stops_plus (A : Type) c p (k : matcher A) :
  p c = false -> stops_at c k -> stops_at c (m_plus p k).
Proof. intros; apply stops_class, stops_star; assumption. Qed.

Lemma stops_alt (A : Type) c (a b : matcher A) :
  stops_at c a -> stops_at c b -> stops_at c (m_alt a b).
Proof. intros Ha Hb s post; unfold m_alt; rewrite Ha, Hb; reflexivity. Qed.

Lemma stops_lit (A : Type) c w (k : matcher A) :
  Forall (fun x => char_eqb x c = false) (str_of w) ->
  stops_at c k -> stops_at c (m_lit w k).
Proof.
  intros Hw Hk; unfold m_lit.
  induction Hw as [|x l Hx Hl IH]; simpl; [assumption|].
  apply stops_class; assumption.
Qed.

Lemma first_group_app l1 l2 s :
  first_group (l1 ++ l2) s =
  match first_group l1 s with
  | Some r => Some r
  | None => first_group l2 s
  end.
Proof.
  induction l1 as [|[name p] l1 IH]; simpl; [reflexivity|].
  destruct (p s) as [[n []]|]; [reflexivity | apply IH].
Qed.

Lemma TOKEN_SPEC_split U :
  TOKEN_SPEC U = firstn 9 (TOKEN_SPEC U) ++ [(UNKNOWN, m_class re_dot m_end)].
Proof. reflexivity. Qed.

Lemma unmatched_char_facts U c :
  unmatched_char U c = true ->
  re_digit U c = false /\ id_start c = false /\ id_part c = false /\
  skip_char c = false /\ re_dot c = true /\
  Forall (fun x => char_eqb x c = false) (str_of "=!<>+-*/();,.").
Proof.
  intros H.
  assert (Hd : re_digit U c = false).
  { unfold unmatched_char in H.
    destruct (re_digit U c); [discriminate H | reflexivity]. }
  assert (Hrest : negb (id_part c)
            && negb (existsb (char_eqb c) (str_of "=!<>+-*/();,."))
            && negb (skip_char c) = true).
  { unfold unmatched_char in H. rewrite Hd in H. exact H. }
  clear H. split; [assumption|]. clear Hd.
  repeat split; try (repeat constructor); char_solve.
Qed.

Lemma rules_stop U c :
  unmatched_char U c = true ->
  Forall (fun e => stops_at c (snd e)) (firstn 9 (TOKEN_SPEC U)).
Proof.
  intros H.
  destruct (unmatched_char_facts U c H) as (Hd & Hs & Hp & Hk & _ & Hl).
  assert (Hlit : forall w, Forall (fun x => In x (str_of "=!<>+-*/();,."))
                             (str_of w) ->
                           Forall (fun x => char_eqb x c = false) (str_of w)).
  { intros w Hw. rewrite Forall_forall in *. intros x Hx.
    apply Hl, Hw, Hx. }
  unfold TOKEN_SPEC; cbn [firstn snd].
  repeat (apply Forall_cons;
    [cbn [snd];
     repeat first
       [ apply stops_end
       | apply stops_plus; [assumption|]
       | apply stops_class; [assumption|]
       | apply stops_star; [assumption|]
       | apply stops_alt
       | apply stops_lit; [apply Hlit; repeat constructor; simpl; tauto|] ]
    |]).
  apply Forall_nil.
Qed.

(** Where the scan meets such a character, the match is the last
    alternative. *)
Lemma MASTER_unmatched U c post :
  unmatched_char U c = true -> MASTER U (c :: post) = Some (1, UNKNOWN).
Proof.
  intros H. pose proof (rules_stop U c H) as Hst.
  destruct (unmatched_char_facts U c H) as (_ & _ & _ & _ & Hdot & _).
  unfold MASTER. rewrite TOKEN_SPEC_split, first_group_app.
  rewrite (@first_group_ext (firstn 9 (TOKEN_SPEC U)) (c :: post) []).
  - simpl. rewrite Hdot. reflexivity.
  - eapply Forall_impl; [|exact Hst]. intros e He. apply (He [] post).
Qed.

(** Before it, the match is the one of the text that ends there. *)
Lemma MASTER_stops U c x s post :
  unmatched_char U c = true ->
  MASTER U ((x :: s) ++ c :: post) = MASTER U (x :: s).
Proof.
  intros H. pose proof (rules_stop U c H) as Hst.
  unfold MASTER. rewrite TOKEN_SPEC_split, !first_group_app.
  rewrite (@first_group_ext (firstn 9 (TOKEN_SPEC U))
             ((x :: s) ++ c :: post) (x :: s)).
  - reflexivity.
  - eapply Forall_impl; [|exact Hst]. intros e He. apply He.
Qed.

Lemma finditer_unmatched U c post s : forall pos,
  unmatched_char U c = true ->
  finditer (MASTER U) pos 0 (s ++ c :: post) =
  finditer (MASTER U) pos 0 s
  ++ {| m_start := pos + length s; m_group := [c]; m_groups := UNKNOWN |}
  :: finditer (MASTER U) (S (pos + length s)) 0 post.
Proof.
  remember (length s) as len eqn:Hlen. revert s Hlen.
  induction len as [len IH] using lt_wf_ind; intros s Hlen pos H.
  destruct s as [|x s].
  - simpl app. rewrite (finditer_cons (MASTER_ok U)), MASTER_unmatched by auto.
    subst len; simpl.
    rewrite Nat.add_0_r, Nat.add_1_r. reflexivity.
  - change ((x :: s) ++ c :: post) with (x :: (s ++ c :: post)).
    rewrite !(finditer_cons (MASTER_ok U)).
    change (x :: (s ++ c :: post)) with ((x :: s) ++ c :: post).
    rewrite MASTER_stops by assumption.
    destruct (MASTER U (x :: s)) as [[n g]|] eqn:E;
      [|destruct (MASTER_total _ _ _ E)].
    pose proof (MASTER_ok U _ E) as Hn.
    rewrite firstn_app, skipn_app.
    replace (n - length (x :: s)) with 0 by lia.
    rewrite firstn_O, skipn_O, app_nil_r.
    rewrite (IH (length (skipn n (x :: s)))) by
      (try rewrite length_skipn; subst len; auto; lia).
    rewrite length_skipn.
    replace (pos + n + (length (x :: s) - n)) with (pos + len) by (subst len; lia).
    reflexivity.
Qed.

Lemma emitted_shift d m :
  emitted (shift_match d m) = map (shift_token d) (emitted m).
Proof.
  unfold emitted, shift_match, shift_token; simpl.
  destruct (TokKind_eqb (m_groups m) SKIP); reflexivity.
Qed.

Lemma flat_map_emitted_shift d ms :
  flat_map emitted (map (shift_match d) ms)
  = map (shift_token d) (flat_map emitted ms).
Proof.
  induction ms as [|m ms IH]; simpl; [reflexivity|].
  rewrite map_app, IH, emitted_shift. reflexivity.
Qed.

(** The tokens of a text that follows [d] characters. *)
Lemma tokenize_shift U d src :
  flat_map emitted (finditer (MASTER U) d 0 src)
  = map (shift_token d) (tokenize U src).
Proof.
  rewrite tokenize_flat_map, <- flat_map_emitted_shift, <- finditer_shift.
  rewrite Nat.add_0_r. reflexivity.
Qed.

Lemma out_kind_ERROR g v : g <> ERROR -> out_kind g v = ERROR -> g = UNKNOWN.
Proof.
  unfold out_kind; intros Hg.
  destruct (TokKind_eqb g ID && str_in v KEYWORDS); [discriminate|].
  destruct (TokKind_eqb g UNKNOWN) eqn:E; [|congruence].
  intros _; apply TokKind_eqb_eq; assumption.
Qed.

(** A match of the last alternative is one character of the text. *)
Lemma finditer_UNKNOWN U src m :
  In m (finditer (MASTER U) 0 0 src) -> m_groups m = UNKNOWN ->
  exists c, m_group m = [c] /\ nth_error src (m_start m) = Some c.
Proof.
  intros Hm Hg.
  apply (finditer_In (MASTER_ok U)) in Hm as (pre & post & Hs & Hst & Hre).
  rewrite Hg in Hre.
  apply MASTER_UNKNOWN in Hre as (c & rest & Hc & Hlen & _).
  destruct (m_group m) as [|c' [|c'' g']]; try discriminate Hlen.
  simpl in Hc; inversion Hc; subst c' rest.
  exists c; split; [reflexivity|].
  rewrite Hs, Hst; simpl.
  rewrite nth_error_app2, Nat.sub_diag by lia. reflexivity.
Qed.

Lemma StronglySorted_inj (A : Type) (R : A -> A -> Prop) (f : A -> nat) l :
  StronglySorted R l ->
  (forall a b, In a l -> R a b -> f a < f b) ->
  forall a b, In a l -> In b l -> f a = f b -> a = b.
Proof.
  induction 1 as [|x l Hl IH Hall]; intros HR a b Ha Hb Hf.
  - destruct Ha.
  - rewrite Forall_forall in Hall.
    destruct Ha as [<-|Ha], Hb as [<-|Hb].
    + reflexivity.
    + pose proof (HR _ _ (or_introl eq_refl) (Hall _ Hb)); lia.
    + pose proof (HR _ _ (or_introl eq_refl) (Hall _ Ha)); lia.
    + apply IH; auto. intros a' b' Ha'; apply HR; right; assumption.
Qed.

(** No two tokens share an offset. *)
Lemma tokenize_offset_unique U src t1 t2 :
  In t1 (tokenize U src) -> In t2 (tokenize U src) ->
  tok_pos t1 = tok_pos t2 -> t1 = t2.
Proof.
  apply (@StronglySorted_inj _ _ tok_pos _ (tokenize_sorted U src)).
  intros a b Ha Hab. apply tokenize_token in Ha as (Hne & _).
  destruct (tok_val a); [congruence | simpl in Hab; lia].
Qed.

Lemma MASTER_SKIP U s n :
  MASTER U s = Some (n, SKIP) ->
  Forall (fun c => skip_char c = true) (firstn n s).
Proof.
  intros H. apply first_group_In in H as (p & Hin & Hp).
  unfold TOKEN_SPEC in Hin; cbn [In] in Hin.
  repeat (destruct Hin as [Hin|Hin]; [inversion Hin; subst; clear Hin|]);
    try destruct Hin.
  revert Hp. apply chars_in_plus; [auto | apply chars_in_end].
Qed.

Lemma filter_none (A : Type) (f : A -> bool) l :
  Forall (fun x => f x = false) l -> filter f l = [].
Proof.
  induction 1 as [|x l Hx _ IH]; simpl; [reflexivity|].
  rewrite Hx; assumption.
Qed.

Lemma filter_all (A : Type) (f : A -> bool) l :
  Forall (fun x => f x = true) l -> filter f l = l.
Proof.
  induction 1 as [|x l Hx _ IH]; simpl; [reflexivity|].
  rewrite Hx, IH; reflexivity.
Qed.

(** The texts of the tokens, one after the other, are the text without the
    characters that [SKIP] takes: no other character is lost. *)
Lemma tokenize_cover U src :
  concat (map tok_val (tokenize U src))
  = filter (fun c => negb (skip_char c)) src.
Proof.
  rewrite tokenize_flat_map.
  rewrite <- (finditer_tile (MASTER_ok U) (@MASTER_total U) src 0) at 2.
  assert (Hall : Forall (fun m =>
            exists post, MASTER U (m_group m ++ post)
                         = Some (length (m_group m), m_groups m))
            (finditer (MASTER U) 0 0 src)).
  { apply Forall_forall; intros m Hm.
    apply (finditer_In (MASTER_ok U)) in Hm as (pre & post & _ & _ & Hre).
    exists post; assumption. }
  induction Hall as [|m ms (post & Hm) _ IH]; [reflexivity|].
  cbn [flat_map map concat]. rewrite map_app, concat_app, filter_app, IH.
  f_equal. unfold emitted.
  destruct (TokKind_eqb (m_groups m) SKIP) eqn:Ek.
  - apply TokKind_eqb_eq in Ek. rewrite Ek in Hm.
    apply MASTER_SKIP in Hm. rewrite firstn_length_app in Hm.
    symmetry; apply filter_none.
    eapply Forall_impl; [|exact Hm]. intros c Hc; cbv beta.
    rewrite Hc; reflexivity.
  - apply MASTER_chars in Hm;
      [|intros Hs; rewrite Hs in Ek; discriminate].
    rewrite firstn_length_app in Hm.
    cbn [map concat tok_val fst snd]. rewrite app_nil_r.
    symmetry; apply filter_all.
    eapply Forall_impl; [|exact Hm]. intros c Hc; cbv beta.
    rewrite Hc; reflexivity.
Qed.

(** C6.  [tokenize] is a total function of the text, and its scan is
    complete: the matches of [MASTER] cover the text from its first to its
    last character, and the texts of the tokens are the text without the
    spaces that [SKIP] takes.  A character where only the last alternative
    matches gives the token ERROR with this one character at the
    character's offset, no other token stands at this offset, and every
    ERROR token comes about this way.  The scan goes on after it: around a character
    that no rule reads, the tokens are those of the text before, the ERROR
    token, and those of the text after.  [@] alone gives a single ERROR
    token with the text [@]. *)
Theorem tokenize_error_tolerant (U : UnicodeTables) :
  (forall src, concat (map (@m_group TokKind) (finditer (MASTER U) 0 0 src))
               = src) /\
  (forall src, concat (map tok_val (tokenize U src))
               = filter (fun c => negb (skip_char c)) src) /\
  (forall src m,
     In m (finditer (MASTER U) 0 0 src) -> m_groups m = UNKNOWN ->
     exists c,
       m_group m = [c] /\ nth_error src (m_start m) = Some c /\
       In (ERROR, [c], m_start m) (tokenize U src) /\
       (forall t, In t (tokenize U src) -> tok_pos t = m_start m ->
                  t = (ERROR, [c], m_start m))) /\
  (forall src t,
     In t (tokenize U src) -> tok_kind t = ERROR ->
     exists c, tok_val t = [c] /\ nth_error src (tok_pos t) = Some c) /\
  (forall pre c post,
     unmatched_char U c = true ->
     tokenize U (pre ++ c :: post)
     = tokenize U pre ++ (ERROR, [c], length pre)
       :: map (shift_token (S (length pre))) (tokenize U post)) /\
  tokenize U (str_of "@") = [(ERROR, str_of "@", 0)].
Proof.
  split; [|split; [apply tokenize_cover|split; [|split; [|split]]]].
  - intros src. apply (finditer_tile (MASTER_ok U)). apply MASTER_total.
  - intros src m Hm Hg.
    destruct (finditer_UNKNOWN _ _ _ Hm Hg) as (c & Hc & Hnth).
    assert (Hin : In (ERROR, [c], m_start m) (tokenize U src)).
    { apply In_tokenize. exists m. split; [assumption|].
      rewrite Hg, Hc. split; [discriminate | reflexivity]. }
    exists c. repeat split; try assumption.
    intros t Ht Hpos. apply (tokenize_offset_unique U src); assumption.
  - intros src t Ht Hk. apply In_tokenize in Ht as (m & Hm & _ & ->).
    unfold tok_kind, tok_val, tok_pos in *; cbn [fst snd] in *.
    apply out_kind_ERROR in Hk;
      [|apply (finditer_MASTER_group U src m Hm)].
    apply (finditer_UNKNOWN U src m Hm Hk).
  - intros pre c post H.
    rewrite (tokenize_flat_map U (pre ++ c :: post)).
    rewrite finditer_unmatched by assumption.
    rewrite flat_map_app. cbn [flat_map].
    rewrite <- tokenize_flat_map, tokenize_shift. reflexivity.
  - vm_compute; reflexivity.
Qed.

Lemma tokenize_error_tolerant_witness :
  unmatched_char latin1_only (chr "@") = true /\
  tokenize latin1_only (str_of "a" ++ chr "@" :: str_of "b") =
    tokenize latin1_only (str_of "a") ++ (ERROR, [chr "@"], 1)
    :: map (shift_token 2) (tokenize latin1_only (str_of "b")).
Proof.
  split; [reflexivity|].
  apply (proj1 (proj2 (proj2 (proj2 (proj2
           (tokenize_error_tolerant latin1_only)))))
           (str_of "a") (chr "@") (str_of "b")).
  reflexivity.
Defined.

(** ** Claims on the identifier automaton *)

Lemma id_start_isalpha U c :
  id_start c = true -> isalpha U c || char_eqb c (chr "_") = true.
Proof. intros H. char_solve. Qed.

Lemma id_part_isalnum U c :
  id_part c = true -> isalnum U c || char_eqb c (chr "_") = true.
Proof. intros H. char_solve. Qed.

Lemma ascii_digit_not_alpha U c :
  ascii_digit c = true -> isalpha U c || char_eqb c (chr "_") = false.
Proof. intros H. char_solve. Qed.

Lemma ascii_isalpha U c :
  (c < 128)%N -> isalpha U c || char_eqb c (chr "_") = id_start c.
Proof. intros Hc. apply Bool.eq_iff_eq_true; split; intros H; char_solve. Qed.

Lemma ascii_isalnum U c :
  (c < 128)%N -> isalnum U c || char_eqb c (chr "_") = id_part c.
Proof. intros Hc. apply Bool.eq_iff_eq_true; split; intros H; char_solve. Qed.

(** C1.  [afd_identificador] accepts every string that matches
    [[A-Za-z_][A-Za-z0-9_]*], and rejects the empty string and every string
    whose first character is one of the digits 0 to 9.  On ASCII strings it
    accepts the strings that match and no other. *)
Theorem afd_identificador_spec (U : UnicodeTables) :
  (forall s, fullmatch_ident s = true -> afd_identificador U s = true) /\
  afd_identificador U [] = false /\
  (forall c rest, ascii_digit c = true ->
                  afd_identificador U (c :: rest) = false) /\
  (forall s, Forall (fun c => (c < 128)%N) s ->
             afd_identificador U s = fullmatch_ident s).
Proof.
  split; [|split; [|split]]; cycle 3.
  { intros [|c rest] Hs; [reflexivity|].
    inversion Hs as [|c' rest' Hc Hrest]; subst.
    cbn [afd_identificador fullmatch_ident].
    rewrite (@ascii_isalpha U c Hc). clear Hs Hc.
    destruct (id_start c); cbn [negb andb]; [|reflexivity].
    induction Hrest as [|x l Hx Hl IH]; [reflexivity|].
    cbn [forallb]. rewrite (@ascii_isalnum U x Hx), IH. reflexivity. }
  - intros [|c rest]; cbn [fullmatch_ident afd_identificador];
      [discriminate|].
    intros H; apply andb_true_iff in H as [Hc Hrest].
    rewrite (id_start_isalpha U c Hc); cbn [negb].
    rewrite forallb_forall in *.
    intros x Hx. apply id_part_isalnum, Hrest, Hx.
  - reflexivity.
  - intros c rest Hc; cbn [afd_identificador].
    rewrite (ascii_digit_not_alpha U c Hc). reflexivity.
Qed.

Lemma afd_identificador_spec_witness :
  afd_identificador latin1_only (str_of "x_1") = true /\
  afd_identificador latin1_only (str_of "1x") = false.
Proof.
  split.
  - apply (proj1 (afd_identificador_spec latin1_only)). reflexivity.
  - apply (proj1 (proj2 (proj2 (afd_identificador_spec latin1_only)))).
    reflexivity.
Defined.

(** C10.  The letter e with acute accent (code point 233) alone is accepted
    by [afd_identificador], while [tokenize] gives the token ERROR for it: it
    is no character of the rule ID.  Every first character of the rule ID is
    accepted by the automaton, so the alphabet of the automaton is strictly
    larger. *)
Theorem acceptor_alphabet_larger (U : UnicodeTables) :
  (exists s : str,
     length s = 1 /\ Forall (fun c => (128 <= c)%N) s /\
     afd_identificador U s = true /\
     tokenize U s = [(ERROR, s, 0)] /\
     fullmatch_ident s = false) /\
  (forall c, id_start c = true -> afd_identificador U [c] = true).
Proof.
  split.
  - exists [233%N].
    repeat split; try reflexivity.
    repeat constructor. discriminate.
  - intros c Hc; cbn [afd_identificador].
    rewrite (id_start_isalpha U c Hc). reflexivity.
Qed.

Lemma acceptor_alphabet_larger_witness :
  afd_identificador latin1_only (str_of "_") = true.
Proof.
  apply (proj2 (acceptor_alphabet_larger latin1_only)). reflexivity.
Defined.

(** ** Claims on the lexer of the parser *)

Lemma peek_past_end lex :
  length (tokens lex) <= pos lex -> peek lex = EOF_token.
Proof.
  intros H; unfold peek.
  destruct (Nat.ltb_spec (pos lex) (length (tokens lex))); [lia | reflexivity].
Qed.

(** C9.  On a lexer whose cursor is at or past the end of its tokens, [peek]
    gives the sentinel EOF with an empty text and leaves the lexer as it is,
    and any number of calls of [next] in a row all give this sentinel: none
    fails, each moves the cursor by one. *)
Theorem ExprLexer_past_end (lex : ExprLexer) :
  length (tokens lex) <= pos lex ->
  EOF_token = (str_of "EOF", []) /\
  lex_peek lex = Ok (EOF_token, lex) /\
  forall n,
    fst (next_n n lex) = repeat EOF_token n /\
    tokens (snd (next_n n lex)) = tokens lex /\
    pos (snd (next_n n lex)) = pos lex + n /\
    peek (snd (next_n n lex)) = EOF_token.
Proof.
  intros H. split; [reflexivity|]. split.
  - unfold lex_peek. rewrite peek_past_end by assumption. reflexivity.
  - intros n. revert lex H.
    induction n as [|n IH]; intros lex H.
    + simpl. rewrite Nat.add_0_r, peek_past_end by assumption. auto.
    + cbn [next_n]. unfold next. rewrite peek_past_end by assumption.
      specialize (IH {| tokens := tokens lex; pos := pos lex + 1 |}).
      destruct (next_n n {| tokens := tokens lex; pos := pos lex + 1 |})
        as [ts lex2].
      simpl in IH |- *.
      destruct IH as (Hts & Htok & Hpos & Hpeek); [lia|].
      rewrite Hts, Htok, Hpos, Hpeek. repeat split; auto; lia.
Qed.

Lemma ExprLexer_past_end_witness :
  fst (next_n 3 {| tokens := [(str_of "NUMBER", str_of "1")]; pos := 1 |})
  = [EOF_token; EOF_token; EOF_token].
Proof.
  apply (ExprLexer_past_end
           {| tokens := [(str_of "NUMBER", str_of "1")]; pos := 1 |}).
  simpl; lia.
Defined.

(** ** The cursor of the parser *)

Lemma kind_is_eq k t : kind_is k t = true <-> fst t = str_of k.
Proof. unfold kind_is; apply str_eqb_eq. Qed.

Lemma kind_in_In ks t : kind_in ks t = true <-> In (fst t) (map str_of ks).
Proof. unfold kind_in; apply str_in_In. Qed.

Lemma peek_real lex :
  kind_is "EOF" (peek lex) = false -> pos lex < length (tokens lex).
Proof.
  unfold peek.
  destruct (Nat.ltb_spec (pos lex) (length (tokens lex))) as [Hlt|Hge];
    [auto|].
  intros HE; vm_compute in HE; discriminate.
Qed.

Lemma kind_is_real k lex :
  str_eqb (str_of k) (str_of "EOF") = false ->
  kind_is k (peek lex) = true -> pos lex < length (tokens lex).
Proof.
  intros Hk H. apply peek_real. apply kind_is_eq in H.
  unfold kind_is. rewrite H. assumption.
Qed.

Lemma kind_in_real ks lex :
  forallb (fun k => negb (str_eqb (str_of k) (str_of "EOF"))) ks = true ->
  kind_in ks (peek lex) = true -> pos lex < length (tokens lex).
Proof.
  intros Hks H. apply peek_real. apply kind_in_In in H.
  apply in_map_iff in H as (k & Hk & Hin).
  rewrite forallb_forall in Hks. specialize (Hks _ Hin).
  unfold kind_is. rewrite <- Hk. apply negb_true_iff. assumption.
Qed.

Lemma next_advances lex :
  pos lex < length (tokens lex) -> advances lex (snd (next lex)).
Proof. intros H; unfold advances; simpl; split; [reflexivity | lia]. Qed.

Lemma advances_trans a b c : advances a b -> advances b c -> advances a c.
Proof.
  unfold advances; intros (Ht & Hp) (Ht' & Hp').
  rewrite Ht in *. split; [congruence | lia].
Qed.

Lemma advances_remaining a b : advances a b -> remaining b < remaining a.
Proof. unfold advances, remaining; intros (Ht & Hp); rewrite Ht; lia. Qed.

Lemma bind_Ok (A B : Type) (m : Parser A) (f : A -> Parser B) lex b lex' :
  bind m f lex = Ok (b, lex') ->
  exists a lex1, m lex = Ok (a, lex1) /\ f a lex1 = Ok (b, lex').
Proof.
  unfold bind. destruct (m lex) as [[a lex1]| |]; try discriminate.
  intros H; exists a, lex1; auto.
Qed.

Lemma F_advancing Erec : advancing Erec -> advancing (F_ Erec).
Proof.
  intros HE lex a lex' H.
  cbv beta iota delta [F_ bind lex_peek lex_next ret raise] in H.
  destruct (kind_is "NUMBER" (peek lex)) eqn:E1.
  { inversion H; subst. apply next_advances.
    eapply kind_is_real; [|eassumption]. reflexivity. }
  destruct (kind_is "ID" (peek lex)) eqn:E2.
  { inversion H; subst. apply next_advances.
    eapply kind_is_real; [|eassumption]. reflexivity. }
  destruct (kind_is "(" (peek lex)) eqn:E3; [|discriminate].
  assert (Hn : advances lex (snd (next lex))).
  { apply next_advances. eapply kind_is_real; [|eassumption]. reflexivity. }
  destruct (next lex) as [t lex1] eqn:En. cbn [snd] in Hn.
  destruct (Erec lex1) as [[node lex2]| |] eqn:Ee; try discriminate.
  apply HE in Ee.
  destruct (kind_is ")" (peek lex2)) eqn:E4; cbn [negb] in H;
    [|discriminate].
  inversion H; subst.
  eapply advances_trans; [eassumption|].
  eapply advances_trans; [eassumption|].
  apply next_advances. eapply kind_is_real; [|eassumption]. reflexivity.
Qed.

Lemma while_steps cond body :
  (forall node lex a lex',
     cond (peek lex) = true -> body node lex = Ok (a, lex') ->
     advances lex lex') ->
  forall fuel node lex a lex',
    while_ fuel cond body node lex = Ok (a, lex') ->
    lex' = lex \/ advances lex lex'.
Proof.
  intros Hb fuel; induction fuel as [|fuel IH]; intros node lex a lex' H;
    cbn [while_] in H; destruct (cond (peek lex)) eqn:Ec;
    try discriminate; try (inversion H; subst; left; reflexivity).
  destruct (body node lex) as [[node1 lex1]| |] eqn:Eb; try discriminate.
  apply Hb in Eb; [|assumption]. right.
  destruct (IH _ _ _ _ H) as [->|Hadv]; [assumption|].
  eapply advances_trans; eassumption.
Qed.

Lemma operator_step_advances ops operand node lex a lex' :
  forallb (fun k => negb (str_eqb (str_of k) (str_of "EOF"))) ops = true ->
  advancing operand ->
  kind_in ops (peek lex) = true ->
  (t <- lex_next ;;
   let op := fst t in
   right <- operand ;; ret (BinOp op node right)) lex = Ok (a, lex') ->
  advances lex lex'.
Proof.
  intros Hops Ho Hc H.
  cbv beta iota zeta delta [bind lex_next ret] in H.
  assert (Hn : advances lex (snd (next lex)))
    by (apply next_advances; eapply kind_in_real; eassumption).
  destruct (next lex) as [t lex1]. cbn [snd] in Hn.
  destruct (operand lex1) as [[right lex2]| |] eqn:Eo; try discriminate.
  inversion H; subst. apply Ho in Eo.
  eapply advances_trans; eassumption.
Qed.

Lemma level_advancing fuel ops operand :
  forallb (fun k => negb (str_eqb (str_of k) (str_of "EOF"))) ops = true ->
  advancing operand -> advancing (level fuel ops operand).
Proof.
  intros Hops Ho lex a lex' H. unfold level in H.
  apply bind_Ok in H as (node & lex1 & H1 & H2).
  apply Ho in H1.
  apply while_steps in H2.
  - destruct H2 as [->|H2]; [assumption|].
    eapply advances_trans; eassumption.
  - intros node0 lex0 a0 lex0' Hc Hb.
    eapply operator_step_advances; eassumption.
Qed.

Lemma T_level fuel F0 : T_ fuel F0 = level fuel ["*"; "/"]%string F0.
Proof. reflexivity. Qed.

Lemma E_level fuel T0 : E_ fuel T0 = level fuel ["+"; "-"]%string T0.
Proof. reflexivity. Qed.

(** A successful [E] reads at least one token and none past the end. *)
Lemma E_advancing fuel : advancing (E fuel).
Proof.
  induction fuel as [|fuel IH]; [intros lex a lex' H; discriminate H|].
  cbn [E]. rewrite E_level, T_level.
  apply level_advancing; [reflexivity|].
  apply level_advancing; [reflexivity|].
  apply F_advancing, IH.
Qed.

(** ** The fuel of the parser *)

Lemma F_safe n Erec :
  (forall lex, remaining lex < n -> Erec lex <> OutOfFuel) ->
  safe_upto n (F_ Erec).
Proof.
  intros HE lex Hr H.
  cbv beta iota delta [F_ bind lex_peek lex_next ret raise] in H.
  destruct (kind_is "NUMBER" (peek lex)); [discriminate|].
  destruct (kind_is "ID" (peek lex)); [discriminate|].
  destruct (kind_is "(" (peek lex)) eqn:E3; [|discriminate].
  assert (Hn : advances lex (snd (next lex))).
  { apply next_advances. eapply kind_is_real; [|eassumption]. reflexivity. }
  destruct (next lex) as [t lex1]. cbn [snd] in Hn.
  apply advances_remaining in Hn.
  destruct (Erec lex1) as [[node lex2]| |] eqn:Ee.
  - destruct (negb (kind_is ")" (peek lex2))); discriminate.
  - discriminate.
  - apply (HE lex1); [lia | assumption].
Qed.

Lemma while_safe n cond body :
  (forall node lex a lex',
     cond (peek lex) = true -> body node lex = Ok (a, lex') ->
     advances lex lex') ->
  (forall lex, cond (peek lex) = true -> pos lex < length (tokens lex)) ->
  (forall node lex, remaining lex <= n -> cond (peek lex) = true ->
                    body node lex <> OutOfFuel) ->
  forall fuel node lex,
    remaining lex <= fuel -> remaining lex <= n ->
    while_ fuel cond body node lex <> OutOfFuel.
Proof.
  intros Hadv Hreal Hsafe fuel.
  induction fuel as [|fuel IH]; intros node lex Hf Hn;
    cbn [while_]; destruct (cond (peek lex)) eqn:Ec; try discriminate.
  - apply Hreal in Ec. unfold remaining in Hf. lia.
  - destruct (body node lex) as [[node1 lex1]| |] eqn:Eb.
    + apply Hadv in Eb; [|assumption]. apply advances_remaining in Eb.
      apply IH; lia.
    + discriminate.
    + intros _. exact (Hsafe node lex Hn Ec Eb).
Qed.

Lemma level_safe n fuel ops operand :
  forallb (fun k => negb (str_eqb (str_of k) (str_of "EOF"))) ops = true ->
  advancing operand -> safe_upto n operand ->
  forall lex, remaining lex <= n -> remaining lex <= fuel ->
              level fuel ops operand lex <> OutOfFuel.
Proof.
  intros Hops Ho Hs lex Hn Hf. unfold level, bind at 1.
  destruct (operand lex) as [[node lex1]| |] eqn:E1.
  - apply Ho in E1. apply advances_remaining in E1.
    apply (while_safe (n := n)); try lia.
    + intros node0 lex0 a0 lex0' Hc Hb.
      eapply operator_step_advances; eassumption.
    + intros lex0 Hc. eapply kind_in_real; eassumption.
    + intros node0 lex0 Hn0 Hc H.
      cbv beta iota zeta delta [bind lex_next ret] in H.
      assert (Hadv : advances lex0 (snd (next lex0)))
        by (apply next_advances; eapply kind_in_real; eassumption).
      destruct (next lex0) as [t lex2]. cbn [snd] in Hadv.
      apply advances_remaining in Hadv.
      destruct (operand lex2) as [[right lex3]| |] eqn:E2; try discriminate.
      apply (Hs lex2); [lia | assumption].
  - discriminate.
  - intros _. exact (Hs lex Hn E1).
Qed.

(** [E] calls [T], which calls [F], which calls [E] between parentheses. *)
Lemma E_calls_T fuel : E (S fuel) = E_ fuel (T fuel).
Proof. reflexivity. Qed.

Lemma E_unfold f :
  E (S f)
  = level f ["+"; "-"]%string (level f ["*"; "/"]%string (F_ (E f))).
Proof. reflexivity. Qed.

(** With one unit of fuel more than tokens are left, [E] does not run out
    of fuel. *)
Lemma E_safe f : safe_upto f (E (S f)).
Proof.
  induction f as [|f IH]; rewrite E_unfold; intros lex Hr.
  - apply (level_safe (n := 0)); try reflexivity; try assumption.
    + apply level_advancing; [reflexivity|]. apply F_advancing, E_advancing.
    + intros lex0 Hr0. apply (level_safe (n := 0)); try reflexivity;
        try assumption.
      * apply F_advancing, E_advancing.
      * apply F_safe. intros; lia.
  - apply (level_safe (n := S f)); try reflexivity; try assumption.
    + apply level_advancing; [reflexivity|]. apply F_advancing, E_advancing.
    + intros lex0 Hr0. apply (level_safe (n := S f)); try reflexivity;
        try assumption.
      * apply F_advancing, E_advancing.
      * apply F_safe. intros lex1 Hr1. apply IH. lia.
Qed.

Lemma refines_refl (A : Type) (p : Parser A) : refines p p.
Proof. intros lex r H _; assumption. Qed.

Lemma refines_bind (A B : Type) (m1 m2 : Parser A) (f1 f2 : A -> Parser B) :
  refines m1 m2 -> (forall a, refines (f1 a) (f2 a)) ->
  refines (bind m1 f1) (bind m2 f2).
Proof.
  intros Hm Hf lex r H Hr. unfold bind in *.
  destruct (m1 lex) as [[a lex1]| |] eqn:E1.
  - rewrite (Hm lex _ E1) by discriminate. apply Hf; assumption.
  - rewrite (Hm lex _ E1) by discriminate. assumption.
  - congruence.
Qed.

Lemma F_refines E1 E2 : refines E1 E2 -> refines (F_ E1) (F_ E2).
Proof.
  intros HE. unfold F_.
  apply refines_bind; [apply refines_refl|]. intros tok.
  destruct (kind_is "NUMBER" tok); [apply refines_refl|].
  destruct (kind_is "ID" tok); [apply refines_refl|].
  destruct (kind_is "(" tok); [|apply refines_refl].
  apply refines_bind; [apply refines_refl|]. intros _.
  apply refines_bind; [assumption|]. intros node. apply refines_refl.
Qed.

Lemma while_refines cond b1 b2 :
  (forall node, refines (b1 node) (b2 node)) ->
  forall f1 f2, f1 <= f2 ->
  forall node, refines (while_ f1 cond b1 node) (while_ f2 cond b2 node).
Proof.
  intros Hb f1; induction f1 as [|f1 IH]; intros f2 Hle node lex r H Hr.
  - cbn [while_] in H. destruct (cond (peek lex)) eqn:Ec; [congruence|].
    destruct f2; cbn [while_]; rewrite Ec; assumption.
  - destruct f2 as [|f2]; [lia|].
    cbn [while_] in H |- *. destruct (cond (peek lex)); [|assumption].
    destruct (b1 node lex) as [[node1 lex1]| |] eqn:Eb.
    + rewrite (Hb node lex _ Eb) by discriminate.
      apply (IH f2); [lia | assumption | assumption].
    + rewrite (Hb node lex _ Eb) by discriminate. assumption.
    + congruence.
Qed.

Lemma level_refines ops o1 o2 f1 f2 :
  refines o1 o2 -> f1 <= f2 ->
  refines (level f1 ops o1) (level f2 ops o2).
Proof.
  intros Ho Hle. unfold level.
  apply refines_bind; [assumption|]. intros node.
  apply while_refines; [|assumption]. intros node0.
  apply refines_bind; [apply refines_refl|]. intros t.
  apply refines_bind; [assumption|]. intros right. apply refines_refl.
Qed.

(** More fuel does not change an outcome. *)
Lemma E_refines f1 : forall f2, f1 <= f2 -> refines (E f1) (E f2).
Proof.
  induction f1 as [|f1 IH]; intros f2 Hle.
  - intros lex r H Hr. cbn [E] in H. congruence.
  - destruct f2 as [|f2]; [lia|]. cbn [E]. rewrite !E_level, !T_level.
    apply level_refines; [|lia]. apply level_refines; [|lia].
    apply F_refines, IH. lia.
Qed.

(** An outcome that [E] reaches with some fuel is its outcome with any fuel
    above the number of tokens left. *)
Lemma E_outcome_at lex f0 r fuel :
  E f0 lex = r -> r <> OutOfFuel -> remaining lex < fuel -> E fuel lex = r.
Proof.
  intros H0 Hr Hf. destruct fuel as [|f]; [lia|].
  pose proof (@E_refines f0 (Nat.max f0 (S f)) (Nat.le_max_l _ _)
                lex _ H0 Hr) as H1.
  assert (Hs : E (S f) lex <> OutOfFuel) by (apply E_safe; lia).
  pose proof (@E_refines (S f) (Nat.max f0 (S f)) (Nat.le_max_r _ _)
                lex _ eq_refl Hs) as H2.
  congruence.
Qed.

Lemma parses_at lex ast lex' fuel :
  parses lex ast lex' -> remaining lex < fuel ->
  E fuel lex = Ok (ast, lex').
Proof.
  intros [f0 H0] Hf. eapply E_outcome_at; eauto. discriminate.
Qed.

Lemma parse_expression_tokens U text :
  parse_expression U text = parse_tokens (tokens (ExprLexer_init U text)).
Proof. reflexivity. Qed.

Lemma parse_tokens_fuel ts : parse_tokens ts <> OutOfFuel.
Proof.
  unfold parse_tokens.
  pose proof (@E_safe (length ts) {| tokens := ts; pos := 0 |}) as Hs.
  cbn [tokens] in *.
  destruct (E (S (length ts)) {| tokens := ts; pos := 0 |})
    as [[ast lex']| |].
  - destruct (negb (kind_is "EOF" (peek lex'))); discriminate.
  - discriminate.
  - intros _. apply Hs; [unfold remaining; simpl; lia | reflexivity].
Qed.

(** [parse_expression] returns a tree or raises: the fuel of the model is
    never used up. *)
Lemma parse_expression_fuel U text : parse_expression U text <> OutOfFuel.
Proof. rewrite parse_expression_tokens. apply parse_tokens_fuel. Qed.

(** ** The tokens of the lexer *)

Lemma lexer_step_kind acc m :
  Forall (fun t => kind_is "EOF" t = false) acc ->
  Forall (fun t => kind_is "EOF" t = false) (lexer_step acc m).
Proof.
  intros Hacc. unfold lexer_step.
  destruct (m_groups m) as [num|ident|other].
  - destruct (truthy num); [|assumption].
    destruct (substr_in (str_of ".") num);
      apply Forall_app; split; auto; repeat constructor.
  - destruct (truthy ident); [|assumption].
    apply Forall_app; split; auto; repeat constructor.
  - destruct (substr_in other (str_of "+-*/()")) eqn:Es.
    + apply Forall_app; split; auto. repeat constructor.
      unfold kind_is; cbn [fst].
      destruct (str_eqb other (str_of "EOF")) eqn:Eo; [|reflexivity].
      apply str_eqb_eq in Eo; subst other. vm_compute in Es. discriminate.
    + destruct (str_eqb other []); [assumption|].
      apply Forall_app; split; auto; repeat constructor.
Qed.

(** The kind EOF is the sentinel's alone. *)
Lemma ExprLexer_init_kinds U text :
  Forall (fun t => kind_is "EOF" t = false) (tokens (ExprLexer_init U text)).
Proof.
  unfold ExprLexer_init; cbn [tokens].
  generalize (finditer (TOKEN_RE U) 0 0 text).
  assert (H : Forall (fun t : ExprToken => kind_is "EOF" t = false) [])
    by constructor.
  revert H. generalize (@nil ExprToken).
  intros acc H ms; revert acc H.
  induction ms as [|m ms IH]; intros acc H; simpl; [assumption|].
  apply IH, lexer_step_kind, H.
Qed.

Lemma peek_EOF_end lex :
  Forall (fun t => kind_is "EOF" t = false) (tokens lex) ->
  kind_is "EOF" (peek lex) = true -> length (tokens lex) <= pos lex.
Proof.
  intros Hall H. unfold peek in H.
  destruct (Nat.ltb_spec (pos lex) (length (tokens lex))) as [Hlt|Hge];
    [|assumption].
  rewrite Forall_forall in Hall.
  rewrite (Hall (nth (pos lex) (tokens lex) EOF_token)) in H;
    [discriminate | apply nth_In; assumption].
Qed.

Lemma m_star_result (A : Type) p (k : matcher A) s n a :
  m_star p k s = Some (n, a) -> exists s' n', k s' = Some (n', a).
Proof.
  revert n; induction s as [|c rest IH]; intros n; simpl.
  - intros H; exists [], n; assumption.
  - destruct (p c); [|intros H; exists (c :: rest), n; assumption].
    destruct (m_star p k rest) as [[n' a']|] eqn:E.
    + simpl. intros H; inversion H; subst. apply (IH n'). reflexivity.
    + intros H; exists (c :: rest), n; assumption.
Qed.

Lemma truthy_firstn n (s : str) :
  1 <= n <= length s -> truthy (firstn n s) = true.
Proof. destruct n, s; simpl; intros H; try lia; reflexivity. Qed.

Lemma alt_capture_groups (a b c : matcher unit) s n g :
  m_alt (m_capture a GNum)
    (m_alt (m_capture b GIdent) (m_capture c GOther)) s = Some (n, g) ->
  (exists k, a s = Some (k, tt) /\ g = GNum (firstn k s)) \/
  (exists k, b s = Some (k, tt) /\ g = GIdent (firstn k s)) \/
  (exists k, c s = Some (k, tt) /\ g = GOther (firstn k s)).
Proof.
  unfold m_alt, m_capture.
  destruct (a s) as [[k []]|].
  { intros H; inversion H; left; eauto. }
  destruct (b s) as [[k []]|].
  { intros H; inversion H; right; left; eauto. }
  destruct (c s) as [[k []]|]; [|discriminate].
  intros H; inversion H; right; right; eauto.
Qed.

(** The group that took part in a match of [TOKEN_RE] is not empty, so it
    is true in the tests of [ExprLexer.__init__], and the third group is one
    character. *)
Lemma TOKEN_RE_groups U s n g :
  TOKEN_RE U s = Some (n, g) ->
  match g with
  | GNum num => truthy num = true
  | GIdent ident => truthy ident = true
  | GOther other => length other = 1
  end.
Proof.
  unfold TOKEN_RE. intros H.
  apply m_star_result in H as (s' & n' & H).
  apply alt_capture_groups in H as [(k & H & ->)|[(k & H & ->)|(k & H & ->)]].
  - apply truthy_firstn. split.
    + revert H. apply positive_alt; auto with matchers.
    + revert H. apply bounded_alt; auto 20 with matchers.
  - apply truthy_firstn. split.
    + revert H. apply positive_class.
    + revert H. apply bounded_class; auto with matchers.
  - destruct s' as [|c rest]; simpl in H; [discriminate|].
    destruct (re_dot c); simpl in H; [|discriminate].
    inversion H; subst. reflexivity.
Qed.

(** ** Claims on the parser *)

(** C2.  [parse_expression] of [1+2*3] returns the tree
    BinOp(+, Number(1), BinOp( *, Number(2), Number(3))).  The operators
    [*] and [/] bind tighter than [+] and [-] on either side: for three
    tokens [a], [b], [c] that are numbers or identifiers, a sum or
    difference [lo] and a product or quotient [hi], the tokens
    [a lo b hi c] give [lo] at the root with [b hi c] as its right operand,
    and [a hi b lo c] give [lo] at the root with [a hi b] as its left
    operand. *)
Theorem parse_precedence (U : UnicodeTables) :
  parse_expression U (str_of "1+2*3")
  = Ok (BinOp (str_of "+") (Number (str_of "1"))
          (BinOp (str_of "*") (Number (str_of "2")) (Number (str_of "3"))))
  /\
  (forall a lo b hi c,
     is_atom a = true -> is_atom b = true -> is_atom c = true ->
     kind_in ["+"; "-"]%string lo = true ->
     kind_in ["*"; "/"]%string hi = true ->
     parse_tokens [a; lo; b; hi; c]
     = Ok (BinOp (fst lo) (atom a) (BinOp (fst hi) (atom b) (atom c))) /\
     parse_tokens [a; hi; b; lo; c]
     = Ok (BinOp (fst lo) (BinOp (fst hi) (atom a) (atom b)) (atom c))).
Proof.
  split; [vm_compute; reflexivity|].
  intros [ka va] [klo vlo] [kb vb] [khi vhi] [kc vc] Ha Hb Hc Hlo Hhi.
  apply orb_true_iff in Ha, Hb, Hc.
  rewrite !kind_is_eq in Ha, Hb, Hc. rewrite kind_in_In in Hlo, Hhi.
  cbn [fst map In] in *.
  destruct Ha as [->| ->], Hb as [->| ->], Hc as [->| ->],
    Hlo as [<-|[<-|[]]], Hhi as [<-|[<-|[]]];
    split; vm_compute; reflexivity.
Qed.

Lemma parse_precedence_witness :
  parse_tokens [ (str_of "ID", str_of "x"); (str_of "-", str_of "-");
                 (str_of "NUMBER", str_of "2"); (str_of "/", str_of "/");
                 (str_of "ID", str_of "y") ]
  = Ok (BinOp (str_of "-") (Identifier (str_of "x"))
          (BinOp (str_of "/") (Number (str_of "2"))
             (Identifier (str_of "y")))).
Proof.
  apply (proj2 (parse_precedence latin1_only)
           (str_of "ID", str_of "x") (str_of "-", str_of "-")
           (str_of "NUMBER", str_of "2") (str_of "/", str_of "/")
           (str_of "ID", str_of "y")); reflexivity.
Defined.

(** ** Chains of operators of one level *)

Lemma peek_nth ts n t :
  nth_error ts n = Some t -> peek {| tokens := ts; pos := n |} = t.
Proof.
  intros H. unfold peek; cbn [tokens pos].
  assert (Hlt : n < length ts) by (apply nth_error_Some; congruence).
  destruct (Nat.ltb_spec n (length ts)); [|lia].
  apply nth_error_nth; assumption.
Qed.

Lemma while_exit fuel cond body node lex :
  cond (peek lex) = false -> while_ fuel cond body node lex = Ok (node, lex).
Proof. intros H; destruct fuel; cbn [while_]; rewrite H; reflexivity. Qed.

Lemma F_atom X lex :
  is_atom (peek lex) = true ->
  F_ X lex = Ok (atom (peek lex), snd (next lex)).
Proof.
  unfold is_atom, atom.
  cbv beta iota delta [F_ bind lex_peek lex_next ret raise].
  destruct (kind_is "NUMBER" (peek lex)); [reflexivity|].
  destruct (kind_is "ID" (peek lex)); [reflexivity | discriminate].
Qed.

Section Chain.

Variable ops : list string.
Variable opd : Parser AST.

(** The operand reads one number or identifier when what follows is an
    operator of the level or the end of the tokens. *)
Hypothesis Hopd : forall ts n a,
  nth_error ts n = Some a -> is_atom a = true ->
  (length ts <= S n \/
   exists t, nth_error ts (S n) = Some t /\ kind_in ops t = true) ->
  opd {| tokens := ts; pos := n |} = Ok (atom a, {| tokens := ts; pos := n + 1 |}).

Hypothesis Hops : kind_in ops EOF_token = false.

Lemma chain_while pairs :
  Forall (fun p => kind_in ops (fst p) = true /\ is_atom (snd p) = true)
    pairs ->
  forall fuel node pre,
    length pairs <= fuel ->
    while_ fuel (kind_in ops)
      (fun node =>
         t <- lex_next ;;
         let op := fst t in
         right <- opd ;; ret (BinOp op node right))
      node {| tokens := pre ++ chain pairs; pos := length pre |}
    = Ok (fold_binop node pairs,
          {| tokens := pre ++ chain pairs;
             pos := length (pre ++ chain pairs) |}).
Proof.
  induction 1 as [|[op a] rest [Hop Ha] Hrest IH]; intros fuel node pre Hf.
  - cbn [chain flat_map fold_binop fold_left]. rewrite app_nil_r.
    apply while_exit. rewrite peek_past_end by (simpl; lia). assumption.
  - destruct fuel as [|fuel]; [simpl in Hf; lia|].
    cbn [fst snd] in Hop, Ha.
    change (chain ((op, a) :: rest)) with (op :: a :: chain rest).
    assert (Hnth : nth_error (pre ++ op :: a :: chain rest) (length pre)
                   = Some op).
    { rewrite nth_error_app2, Nat.sub_diag by lia. reflexivity. }
    assert (Hnth' : nth_error (pre ++ op :: a :: chain rest) (S (length pre))
                    = Some a).
    { rewrite nth_error_app2 by lia.
      replace (S (length pre) - length pre) with 1 by lia. reflexivity. }
    cbn [while_]. rewrite (@peek_nth _ _ _ Hnth), Hop.
    cbv beta iota zeta delta [bind lex_next ret next].
    rewrite (@peek_nth _ _ _ Hnth). cbn [tokens pos fst].
    rewrite Nat.add_1_r.
    rewrite (@Hopd _ _ _ Hnth' Ha).
    + replace {| tokens := pre ++ op :: a :: chain rest;
                 pos := S (length pre) + 1 |}
        with {| tokens := (pre ++ [op; a]) ++ chain rest;
                pos := length (pre ++ [op; a]) |}.
      * rewrite IH by (simpl in Hf; lia).
        rewrite <- app_assoc. reflexivity.
      * rewrite <- app_assoc, length_app. simpl. f_equal. lia.
    + destruct Hrest as [|[op' a'] rest' [Hop' _] _].
      * left. rewrite length_app. simpl. lia.
      * right. exists op'. split; [|assumption].
        rewrite nth_error_app2 by lia.
        replace (S (S (length pre)) - length pre) with 2 by lia.
        reflexivity.
Qed.

Lemma chain_level fuel a0 pairs :
  is_atom a0 = true ->
  Forall (fun p => kind_in ops (fst p) = true /\ is_atom (snd p) = true)
    pairs ->
  length pairs <= fuel ->
  level fuel ops opd {| tokens := a0 :: chain pairs; pos := 0 |}
  = Ok (fold_binop (atom a0) pairs,
        {| tokens := a0 :: chain pairs;
           pos := length (a0 :: chain pairs) |}).
Proof.
  intros Ha Hall Hf. unfold level, bind.
  rewrite (@Hopd (a0 :: chain pairs) 0 a0 eq_refl Ha).
  - apply (@chain_while pairs Hall fuel (atom a0) [a0] Hf).
  - destruct Hall as [|[op a] rest [Hop _] _].
    + left; simpl; lia.
    + right. exists op. split; [reflexivity | assumption].
Qed.

End Chain.

Lemma F_operand X ts n a :
  nth_error ts n = Some a -> is_atom a = true ->
  F_ X {| tokens := ts; pos := n |}
  = Ok (atom a, {| tokens := ts; pos := n + 1 |}).
Proof.
  intros Hn Ha. rewrite F_atom; rewrite (@peek_nth _ _ _ Hn); [|assumption].
  reflexivity.
Qed.

Lemma sum_not_product t :
  kind_in ["+"; "-"]%string t = true -> kind_in ["*"; "/"]%string t = false.
Proof.
  intros H. apply kind_in_In in H. unfold kind_in.
  destruct H as [<-|[<-|[]]]; reflexivity.
Qed.

Lemma T_operand fuel X ts n a :
  nth_error ts n = Some a -> is_atom a = true ->
  (length ts <= S n \/
   exists t, nth_error ts (S n) = Some t /\
             kind_in ["+"; "-"]%string t = true) ->
  level fuel ["*"; "/"]%string (F_ X) {| tokens := ts; pos := n |}
  = Ok (atom a, {| tokens := ts; pos := n + 1 |}).
Proof.
  intros Hn Ha Hnext. unfold level, bind.
  rewrite (@F_operand X _ _ _ Hn Ha). apply while_exit.
  rewrite Nat.add_1_r.
  destruct Hnext as [Hend|(t & Ht & Hk)].
  - rewrite peek_past_end by (simpl; lia). reflexivity.
  - rewrite (@peek_nth _ _ _ Ht). apply sum_not_product; assumption.
Qed.

Lemma length_chain pairs : length (chain pairs) = 2 * length pairs.
Proof. induction pairs as [|p ps IH]; simpl; [reflexivity | lia]. Qed.

(** C3.  [parse_expression] of [a - b - c] returns the tree
    BinOp(-, BinOp(-, Identifier(a), Identifier(b)), Identifier(c)).  In
    general a number or identifier followed by any number of operators of
    one level ([+] and [-], or [*] and [/]), each with a number or
    identifier, parses to the tree that folds them from left to right. *)
Theorem parse_left_assoc (U : UnicodeTables) :
  parse_expression U (str_of "a - b - c")
  = Ok (BinOp (str_of "-")
          (BinOp (str_of "-") (Identifier (str_of "a"))
             (Identifier (str_of "b")))
          (Identifier (str_of "c")))
  /\
  (forall ops a0 pairs,
     ops = ["+"; "-"]%string \/ ops = ["*"; "/"]%string ->
     is_atom a0 = true ->
     Forall (fun p => kind_in ops (fst p) = true /\ is_atom (snd p) = true)
       pairs ->
     parse_tokens (a0 :: chain pairs) = Ok (fold_binop (atom a0) pairs)).
Proof.
  split; [vm_compute; reflexivity|].
  intros ops a0 pairs Hops Ha Hall. unfold parse_tokens. cbn [tokens].
  assert (Hf : length pairs <= length (a0 :: chain pairs))
    by (simpl; rewrite length_chain; lia).
  rewrite E_unfold. destruct Hops as [-> | ->].
  - rewrite (@chain_level ["+"; "-"]%string _
               (fun ts n a => @T_operand _ _ ts n a) eq_refl
               _ a0 pairs Ha Hall Hf).
    rewrite peek_past_end by (simpl; lia). reflexivity.
  - unfold level at 1, bind at 1.
    rewrite (@chain_level ["*"; "/"]%string _
               (fun ts n a Hn Hat _ => @F_operand _ ts n a Hn Hat) eq_refl
               _ a0 pairs Ha Hall Hf).
    rewrite while_exit by (rewrite peek_past_end by (simpl; lia); reflexivity).
    rewrite peek_past_end by (simpl; lia). reflexivity.
Qed.

Lemma parse_left_assoc_witness :
  parse_tokens [ (str_of "NUMBER", str_of "8"); (str_of "/", str_of "/");
                 (str_of "NUMBER", str_of "4"); (str_of "*", str_of "*");
                 (str_of "ID", str_of "k"); (str_of "/", str_of "/");
                 (str_of "NUMBER", str_of "2") ]
  = Ok (BinOp (str_of "/")
          (BinOp (str_of "*")
             (BinOp (str_of "/") (Number (str_of "8")) (Number (str_of "4")))
             (Identifier (str_of "k")))
          (Number (str_of "2"))).
Proof.
  apply (proj2 (parse_left_assoc latin1_only) ["*"; "/"]%string
           (str_of "NUMBER", str_of "8")
           [ ((str_of "/", str_of "/"), (str_of "NUMBER", str_of "4"));
             ((str_of "*", str_of "*"), (str_of "ID", str_of "k"));
             ((str_of "/", str_of "/"), (str_of "NUMBER", str_of "2")) ]).
  - right; reflexivity.
  - reflexivity.
  - repeat constructor.
Defined.

(** C4.  When [E] has parsed a complete expression of the text and the next
    token is not the sentinel EOF, [parse_expression] raises the
    SyntaxError of extra input.  Nothing is left unread in silence: when
    [parse_expression] returns a tree, [E] has read every token of the
    text.  The text [1 2] raises this error. *)
Theorem trailing_input_rejected (U : UnicodeTables) :
  (forall text ast lex',
     parses (ExprLexer_init U text) ast lex' ->
     kind_is "EOF" (peek lex') = false ->
     parse_expression U text = Raise (SyntaxError ExtraInput)) /\
  (forall text ast,
     parse_expression U text = Ok ast ->
     exists lex',
       parses (ExprLexer_init U text) ast lex' /\
       tokens lex' = tokens (ExprLexer_init U text) /\
       pos lex' = length (tokens lex')) /\
  parse_expression U (str_of "1 2") = Raise (SyntaxError ExtraInput).
Proof.
  split; [|split; [|vm_compute; reflexivity]].
  - intros text ast lex' Hp Hk. unfold parse_expression.
    rewrite (@parses_at _ _ _ (S (length (tokens (ExprLexer_init U text)))) Hp)
      by (unfold remaining; simpl; lia).
    rewrite Hk. reflexivity.
  - intros text ast H. unfold parse_expression in H.
    destruct (E (S (length (tokens (ExprLexer_init U text))))
                (ExprLexer_init U text)) as [[ast0 lex']| |] eqn:HE;
      try discriminate.
    destruct (kind_is "EOF" (peek lex')) eqn:Hk; cbn [negb] in H;
      [|discriminate].
    inversion H; subst ast0.
    pose proof (E_advancing _ _ HE) as (Ht & Hpos).
    exists lex'. split; [eexists; eassumption|]. split; [assumption|].
    apply peek_EOF_end in Hk;
      [|rewrite Ht; apply ExprLexer_init_kinds].
    rewrite Ht in *. lia.
Qed.

Lemma trailing_input_rejected_witness :
  parse_expression latin1_only (str_of "1 2") = Raise (SyntaxError ExtraInput).
Proof.
  apply (proj1 (trailing_input_rejected latin1_only) (str_of "1 2")
           (Number (str_of "1"))
           {| tokens := [ (str_of "NUMBER", str_of "1");
                          (str_of "NUMBER", str_of "2") ];
              pos := 1 |}).
  - exists 1. vm_compute. reflexivity.
  - reflexivity.
Defined.

Lemma bind_Raise (A B : Type) (m : Parser A) (f : A -> Parser B) lex e :
  m lex = Raise e -> bind m f lex = Raise e.
Proof. intros H; unfold bind; rewrite H; reflexivity. Qed.
(** * Further properties *)

(** ** The tree printer *)

Lemma pad_inj i j x y c d :
  c <> chr " " -> d <> chr " " ->
  pad i ++ c :: x = pad j ++ d :: y ->
  Z.to_nat i = Z.to_nat j /\ c :: x = d :: y.
Proof.
  unfold pad. generalize (Z.to_nat i) (Z.to_nat j). intros n m Hc Hd.
  revert m. induction n as [|n IH]; intros [|m] H; cbn [repeat concat app] in H.
  - auto.
  - change (str_of "  ") with [chr " "; chr " "] in H. cbn [app] in H.
    inversion H. congruence.
  - change (str_of "  ") with [chr " "; chr " "] in H. cbn [app] in H.
    inversion H. congruence.
  - change (str_of "  ") with [chr " "; chr " "] in H. cbn [app] in H.
    inversion H as [H']. apply IH in H' as [-> H']. auto.
Qed.

Lemma lines_of_length a : forall i, length (lines_of a i) = nodes a.
Proof.
  induction a as [v|v|op l IHl r IHr]; intros i; cbn [lines_of];
    try reflexivity.
  cbn [length nodes]. rewrite length_app, IHl, IHr. reflexivity.
Qed.

(** With room for the deepest node the call returns. *)
Lemma pretty_print_ast_returns stack : forall a i,
  height a <= stack -> pretty_print_ast stack a i = (lines_of a i, true).
Proof.
  induction stack as [|s IH]; intros a i H.
  - destruct a; cbn [height] in H; lia.
  - destruct a as [v|v|op l r]; cbn [pretty_print_ast lines_of];
      try reflexivity.
    cbn [height] in H.
    rewrite (IH l (i + 1)%Z) by lia. rewrite (IH r (i + 1)%Z) by lia.
    reflexivity.
Qed.

(** Without it the call raises RecursionError, after the first lines. *)
Lemma pretty_print_ast_overflows stack : forall a i,
  stack < height a ->
  snd (pretty_print_ast stack a i) = false /\
  exists more,
    more <> [] /\ lines_of a i = fst (pretty_print_ast stack a i) ++ more.
Proof.
  induction stack as [|s IH]; intros a i H.
  - split; [reflexivity|]. exists (lines_of a i). split; [|reflexivity].
    destruct a; discriminate.
  - destruct a as [v|v|op l r]; cbn [height] in H; try lia.
    cbn [pretty_print_ast lines_of].
    destruct (Nat.le_gt_cases (height l) s) as [Hl|Hl].
    + rewrite (@pretty_print_ast_returns s l (i + 1)%Z Hl).
      destruct (IH r (i + 1)%Z ltac:(lia)) as [Hr (more & Hne & Hmore)].
      destruct (pretty_print_ast s r (i + 1)) as [rs ok]. cbn [fst snd] in *.
      split; [assumption|]. exists more. split; [assumption|].
      rewrite Hmore. cbn [app]. f_equal. apply app_assoc.
    + destruct (IH l (i + 1)%Z Hl) as [Hf (more & Hne & Hmore)].
      destruct (pretty_print_ast s l (i + 1)) as [ls ok]. cbn [fst snd] in *.
      subst ok. cbn [fst snd]. split; [reflexivity|].
      exists (more ++ lines_of r (i + 1)). split.
      * destruct more; [contradiction | discriminate].
      * rewrite Hmore. cbn [app]. f_equal. symmetry. apply app_assoc.
Qed.

Lemma pretty_print_ast_returned stack a i ls :
  pretty_print_ast stack a i = (ls, true) ->
  height a <= stack /\ ls = lines_of a i.
Proof.
  intros H. destruct (Nat.le_gt_cases (height a) stack) as [Hle|Hgt].
  - rewrite (@pretty_print_ast_returns stack a i Hle) in H. inversion H; auto.
  - destruct (@pretty_print_ast_overflows stack a i Hgt) as [Hf _].
    rewrite H in Hf. discriminate.
Qed.

Lemma line_no_lt path : forall a sub,
  subtree path a = Some sub -> line_no path a < nodes a.
Proof.
  induction path as [|[|] path IH]; intros a sub H.
  - destruct a; cbn [line_no nodes]; lia.
  - destruct a as [v|v|op l r]; try discriminate. cbn [subtree] in H.
    apply IH in H. cbn [line_no nodes]. lia.
  - destruct a as [v|v|op l r]; try discriminate. cbn [subtree] in H.
    apply IH in H. cbn [line_no nodes]. lia.
Qed.

(** The line of every node: where it stands and how it is indented. *)
Lemma lines_of_nth path : forall a i sub,
  subtree path a = Some sub ->
  nth_error (lines_of a i) (line_no path a)
  = Some (pad (i + Z.of_nat (length path)) ++ label sub).
Proof.
  induction path as [|[|] path IH]; intros a i sub H.
  - cbn [subtree] in H. inversion H; subst sub.
    cbn [length Z.of_nat]. rewrite Z.add_0_r.
    destruct a; reflexivity.
  - destruct a as [v|v|op l r]; try discriminate. cbn [subtree] in H.
    cbn [line_no lines_of nth_error].
    rewrite nth_error_app2 by (rewrite lines_of_length; lia).
    rewrite lines_of_length.
    replace (nodes l + line_no path r - nodes l) with (line_no path r)
      by lia.
    rewrite (IH r (i + 1)%Z sub H). do 3 f_equal. cbn [length]. lia.
  - destruct a as [v|v|op l r]; try discriminate. cbn [subtree] in H.
    cbn [line_no lines_of nth_error].
    rewrite nth_error_app1
      by (rewrite lines_of_length; eapply line_no_lt; eassumption).
    rewrite (IH l (i + 1)%Z sub H). do 3 f_equal. cbn [length]. lia.
Qed.

(** X1.  With room on the call stack for the deepest node of the tree,
    [pretty_print_ast] returns after it has printed one line for each node.
    The line of a node says its class and its text after two spaces for
    each level that the node is below the root, added to the indentation of
    the call; and it stands after the lines of the nodes above it, of all
    that is below their left operands where it is below the right one, and
    of its own left brothers: the root first, then the left operand with
    all below it, then the right operand.  With less room the call raises
    RecursionError when it has printed the first lines of these, and not
    all of them. *)
Theorem pretty_print_ast_lines (stack : nat) (node : AST) (indent : Z) :
  (height node <= stack ->
   snd (pretty_print_ast stack node indent) = true /\
   length (fst (pretty_print_ast stack node indent)) = nodes node /\
   forall path sub,
     subtree path node = Some sub ->
     nth_error (fst (pretty_print_ast stack node indent))
       (line_no path node)
     = Some (pad (indent + Z.of_nat (length path)) ++ label sub)) /\
  (stack < height node ->
   snd (pretty_print_ast stack node indent) = false /\
   length (fst (pretty_print_ast stack node indent)) < nodes node /\
   exists more,
     fst (pretty_print_ast (height node) node indent)
     = fst (pretty_print_ast stack node indent) ++ more).
Proof.
  split; intros H.
  - rewrite (@pretty_print_ast_returns stack node indent H). cbn [fst snd].
    split; [reflexivity|]. split; [apply lines_of_length|].
    intros path sub Hs. apply lines_of_nth; assumption.
  - destruct (@pretty_print_ast_overflows stack node indent H)
      as [Hf (more & Hne & Hmore)].
    split; [assumption|].
    rewrite (@pretty_print_ast_returns (height node) node indent
               (Nat.le_refl (height node))).
    cbn [fst]. split; [|exists more; assumption].
    rewrite <- (lines_of_length node indent), Hmore, length_app.
    destruct more; [contradiction | cbn [length]; lia].
Qed.

Lemma pretty_print_ast_lines_witness :
  nth_error
    (fst (pretty_print_ast 2
            (BinOp (str_of "+") (Number (str_of "1"))
               (Identifier (str_of "x"))) (-3)))
    2
  = Some (pad (-3 + 1) ++ str_of "ID: x").
Proof.
  assert (H : height (BinOp (str_of "+") (Number (str_of "1"))
                        (Identifier (str_of "x"))) <= 2)
    by (cbn [height Nat.max]; lia).
  destruct (proj1 (pretty_print_ast_lines 2
                     (BinOp (str_of "+") (Number (str_of "1"))
                        (Identifier (str_of "x"))) (-3)) H)
    as (_ & _ & Hn).
  exact (Hn [true] (Identifier (str_of "x")) eq_refl).
Defined.

Lemma lines_of_app_inj a : forall b i j r1 r2,
  lines_of a i ++ r1 = lines_of b j ++ r2 -> a = b /\ r1 = r2.
Proof.
  induction a as [v|v|op l IHl r IHr]; intros [v'|v'|op' l' r'] i j r1 r2 H;
    cbn [lines_of app] in H; inversion H as [[Hline Hrest]];
    apply pad_inj in Hline; try discriminate;
    destruct Hline as [_ Hline]; try discriminate Hline.
  - inversion Hline; auto.
  - inversion Hline; auto.
  - inversion Hline; subst.
    rewrite <- !app_assoc in Hrest.
    apply IHl in Hrest as (-> & Hrest).
    apply IHr in Hrest as (-> & ->). auto.
Qed.

Lemma lines_of_indent a i j :
  lines_of a i = lines_of a j -> Z.to_nat i = Z.to_nat j.
Proof.
  destruct a as [v|v|op l r]; cbn [lines_of]; intros H;
    inversion H as [[Hline]]; apply pad_inj in Hline;
    try discriminate; tauto.
Qed.

(** X2.  The tree can be read back from what the printer writes: two calls
    that return after they have printed the same strings in the same order
    were given the same tree, and the same indentation where it is not
    negative; a negative indentation prints as none. *)
Theorem pretty_print_ast_inj (s s' : nat) (a b : AST) (i j : Z)
    (ls : list str) :
  pretty_print_ast s a i = (ls, true) ->
  pretty_print_ast s' b j = (ls, true) ->
  a = b /\ Z.to_nat i = Z.to_nat j /\
  ((0 <= i)%Z -> (0 <= j)%Z -> i = j).
Proof.
  intros Ha Hb.
  apply pretty_print_ast_returned in Ha as [_ Ha].
  apply pretty_print_ast_returned in Hb as [_ Hb].
  assert (Hab : a = b).
  { destruct (@lines_of_app_inj a b i j [] []) as [Hab _]; [|assumption].
    rewrite !app_nil_r. congruence. }
  subst b. assert (Hij : Z.to_nat i = Z.to_nat j)
    by (apply (@lines_of_indent a); congruence).
  repeat split; [assumption|]. intros Hi Hj. lia.
Qed.

Lemma pretty_print_ast_inj_witness :
  BinOp (str_of "+") (Number (str_of "1")) (Identifier (str_of "x"))
  = BinOp (str_of "+") (Number (str_of "1")) (Identifier (str_of "x")) /\
  Z.to_nat (-1) = Z.to_nat (-2) /\
  ((0 <= -1)%Z -> (0 <= -2)%Z -> (-1 = -2)%Z).
Proof.
  apply (@pretty_print_ast_inj 2 5
           (BinOp (str_of "+") (Number (str_of "1"))
              (Identifier (str_of "x")))
           (BinOp (str_of "+") (Number (str_of "1"))
              (Identifier (str_of "x")))
           (-1) (-2)
           [str_of "BINOP +"; str_of "NUMBER: 1"; str_of "ID: x"]);
    reflexivity.
Defined.

(** ** The rules of the tokenizer, one by one *)

Lemma m_star_split (A : Type) p (k : matcher A) s : forall n a,
  m_star p k s = Some (n, a) ->
  exists j m,
    n = j + m /\ j <= length s /\
    Forall (fun c => p c = true) (firstn j s) /\
    k (skipn j s) = Some (m, a).
Proof.
  induction s as [|c rest IH]; intros n a; simpl.
  - intros H. exists 0, n. simpl. auto.
  - assert (Hk : k (c :: rest) = Some (n, a) ->
             exists j m, n = j + m /\ j <= S (length rest) /\
               Forall (fun c => p c = true) (firstn j (c :: rest)) /\
               k (skipn j (c :: rest)) = Some (m, a)).
    { intros H. exists 0, n. simpl. repeat split; auto; lia. }
    destruct (p c) eqn:Ep; [|assumption].
    destruct (m_star p k rest) as [[n' a']|] eqn:E; [|assumption].
    simpl. intros H; inversion H; subst.
    destruct (IH _ _ eq_refl) as (j & m & -> & Hj & Hall & Hm).
    exists (S j), m. simpl. repeat split; auto; lia.
Qed.

Lemma m_star_end_eq p s : m_star p m_end s = Some (run p s, tt).
Proof.
  induction s as [|c rest IH]; simpl; [reflexivity|].
  destruct (p c); [|reflexivity]. rewrite IH. reflexivity.
Qed.

Lemma m_plus_end_eq p c rest :
  m_plus p m_end (c :: rest)
  = if p c then Some (S (run p rest), tt) else None.
Proof.
  unfold m_plus; simpl. destruct (p c); [|reflexivity].
  rewrite m_star_end_eq. reflexivity.
Qed.

Lemma run_all p s : Forall (fun c => p c = true) (firstn (run p s) s).
Proof.
  induction s as [|c rest IH]; simpl; [constructor|].
  destruct (p c) eqn:E; simpl; constructor; assumption.
Qed.

Lemma run_le p s : run p s <= length s.
Proof.
  induction s as [|c rest IH]; simpl; [lia|]. destruct (p c); simpl; lia.
Qed.

(** The run ends where the class does. *)
Lemma run_stop p s c : nth_error s (run p s) = Some c -> p c = false.
Proof.
  induction s as [|x rest IH]; simpl; [discriminate|].
  destruct (p x) eqn:E; simpl; [assumption|].
  intros H; inversion H; subst; assumption.
Qed.

Lemma run_forallb p s : forallb p s = true -> run p s = length s.
Proof.
  induction s as [|c rest IH]; simpl; [reflexivity|].
  intros H; apply andb_true_iff in H as [-> H]. rewrite IH; auto.
Qed.

Lemma m_lit_text w s n :
  m_lit w m_end s = Some (n, tt) -> firstn n s = str_of w.
Proof.
  unfold m_lit. revert s n.
  induction (str_of w) as [|x l IH]; intros s n; simpl.
  - intros H; inversion H; reflexivity.
  - destruct s as [|c rest]; cbn [m_class]; [discriminate|].
    destruct (char_eqb x c) eqn:E; [|discriminate].
    apply char_eqb_eq in E; subst c.
    intros H; apply advance_Some in H as (n' & -> & H).
    simpl. rewrite (IH _ _ H). reflexivity.
Qed.

Lemma rule_INT U s n :
  m_plus (re_digit U) m_end s = Some (n, tt) -> digits U (firstn n s).
Proof.
  destruct s as [|c rest]; [discriminate|].
  rewrite m_plus_end_eq. destruct (re_digit U c) eqn:E; [|discriminate].
  intros H; inversion H; subst. simpl. split; [discriminate|].
  constructor; [assumption | apply run_all].
Qed.

Lemma rule_FLOAT U s n :
  m_plus (re_digit U) (m_lit "." (m_plus (re_digit U) m_end)) s
  = Some (n, tt) ->
  exists a b r,
    s = a ++ chr "." :: b ++ r /\ n = length a + S (length b) /\
    digits U a /\ digits U b /\
    match r with c :: _ => re_digit U c = false | [] => True end.
Proof.
  destruct s as [|c rest]; [discriminate|].
  unfold m_plus at 1; cbn [m_class].
  destruct (re_digit U c) eqn:Ec; [|discriminate].
  intros H; apply advance_Some in H as (n' & -> & H).
  apply m_star_split in H as (j & m & -> & Hj & Hall & H).
  change (m_lit "." (m_plus (re_digit U) m_end))
    with (m_class (char_eqb (chr ".")) (m_plus (re_digit U) m_end)) in H.
  destruct (skipn j rest) as [|x r'] eqn:Er; cbn [m_class] in H;
    [discriminate|].
  destruct (char_eqb (chr ".") x) eqn:Ex; [|discriminate].
  apply char_eqb_eq in Ex; subst x.
  apply advance_Some in H as (m' & -> & H).
  destruct r' as [|d r2]; [discriminate|].
  rewrite m_plus_end_eq in H.
  destruct (re_digit U d) eqn:Ed; [|discriminate].
  inversion H; subst m'.
  exists (c :: firstn j rest), (d :: firstn (run (re_digit U) r2) r2),
    (skipn (run (re_digit U) r2) r2).
  assert (Hlen : length (firstn j rest) = j)
    by (apply firstn_length_le; assumption).
  repeat split.
  - cbn [app]. rewrite firstn_skipn, <- Er, firstn_skipn. reflexivity.
  - cbn [length]. rewrite Hlen, firstn_length_le by apply run_le. lia.
  - discriminate.
  - constructor; assumption.
  - discriminate.
  - constructor; [assumption | apply run_all].
  - destruct (skipn (run (re_digit U) r2) r2) as [|y r3] eqn:E3; [exact I|].
    apply (@run_stop (re_digit U) r2).
    rewrite <- (Nat.add_0_r (run (re_digit U) r2)), <- nth_error_skipn, E3.
    reflexivity.
Qed.

Lemma rule_ID s n :
  m_class id_start (m_star id_part m_end) s = Some (n, tt) ->
  fullmatch_ident (firstn n s) = true.
Proof.
  destruct s as [|c rest]; [discriminate|]. cbn [m_class].
  destruct (id_start c) eqn:Ec; [|discriminate].
  rewrite m_star_end_eq. simpl. intros H; inversion H; subst.
  cbn [firstn fullmatch_ident]. rewrite Ec. cbn [andb].
  apply forallb_forall. apply Forall_forall. apply run_all.
Qed.

Lemma rule_OP s n :
  m_alt (m_lit "==" m_end) (m_alt (m_lit "!=" m_end)
    (m_alt (m_lit "<=" m_end) (m_alt (m_lit ">=" m_end)
    (m_alt (m_lit "+" m_end) (m_alt (m_lit "-" m_end)
    (m_alt (m_lit "*" m_end) (m_alt (m_lit "/" m_end)
           (m_lit "=" m_end)))))))) s = Some (n, tt) ->
  In (firstn n s)
    (map str_of ["=="; "!="; "<="; ">="; "+"; "-"; "*"; "/"; "="]%string).
Proof.
  unfold m_alt.
  repeat match goal with
  | |- context [match m_lit ?w m_end s with Some _ => _ | None => _ end] =>
      destruct (m_lit w m_end s) as [[k []]|] eqn:?
  end;
  intros H; inversion H; subst;
  match goal with
  | E : m_lit _ m_end s = Some _ |- _ =>
      apply m_lit_text in E; rewrite E; cbn [map In]; tauto
  end.
Qed.

(** What the text of a match of each group is. *)
Lemma MASTER_text U s n g :
  MASTER U s = Some (n, g) ->
  match g with
  | FLOAT =>
      exists a b, firstn n s = a ++ chr "." :: b /\ digits U a /\ digits U b
  | INT => digits U (firstn n s)
  | ID => fullmatch_ident (firstn n s) = true
  | OP =>
      In (firstn n s)
        (map str_of ["=="; "!="; "<="; ">="; "+"; "-"; "*"; "/"; "="]%string)
  | LPAREN => firstn n s = str_of "("
  | RPAREN => firstn n s = str_of ")"
  | SEMI => firstn n s = str_of ";"
  | COMMA => firstn n s = str_of ","
  | SKIP => Forall (fun c => skip_char c = true) (firstn n s)
  | UNKNOWN => exists c, firstn n s = [c] /\ skip_char c = false
  | KEYWORD | ERROR => False
  end.
Proof.
  intros H. pose proof H as Hm.
  apply first_group_In in H as (p & Hin & Hp).
  unfold TOKEN_SPEC in Hin; cbn [In] in Hin.
  repeat (destruct Hin as [Hin|Hin]; [inversion Hin; subst; clear Hin|]);
    try destruct Hin.
  - apply rule_FLOAT in Hp as (a & b & r & -> & -> & Ha & Hb & _).
    exists a, b. split; [|auto].
    replace (a ++ chr "." :: b ++ r) with ((a ++ chr "." :: b) ++ r)
      by (rewrite <- app_assoc; reflexivity).
    replace (length a + S (length b)) with (length (a ++ chr "." :: b))
      by (rewrite length_app; reflexivity).
    apply firstn_length_app.
  - apply rule_INT; assumption.
  - apply rule_ID; assumption.
  - apply rule_OP; assumption.
  - apply m_lit_text in Hp; assumption.
  - apply m_lit_text in Hp; assumption.
  - apply m_lit_text in Hp; assumption.
  - apply m_lit_text in Hp; assumption.
  - eapply MASTER_SKIP; eassumption.
  - apply MASTER_UNKNOWN in Hm as (c & rest & -> & -> & Hc).
    exists c; auto.
Qed.

(** A token of [tokenize] is a match of [MASTER] in the text. *)
Lemma tokenize_match U src t :
  In t (tokenize U src) ->
  exists g pre post,
    g <> SKIP /\ src = pre ++ tok_val t ++ post /\
    tok_pos t = length pre /\ tok_kind t = out_kind g (tok_val t) /\
    MASTER U (tok_val t ++ post) = Some (length (tok_val t), g).
Proof.
  intros Ht. apply In_tokenize in Ht as (m & Hm & Hg & ->).
  apply (finditer_In (MASTER_ok U)) in Hm as (pre & post & Hs & Hst & Hre).
  exists (m_groups m), pre, post. unfold tok_val, tok_pos, tok_kind.
  cbn [fst snd]. auto.
Qed.

Lemma out_kind_cases g v :
  (g = ID /\ In v KEYWORDS /\ out_kind g v = KEYWORD) \/
  (g = ID /\ ~ In v KEYWORDS /\ out_kind g v = ID) \/
  (g = UNKNOWN /\ out_kind g v = ERROR) \/
  (g <> ID /\ g <> UNKNOWN /\ out_kind g v = g).
Proof.
  unfold out_kind. destruct (TokKind_eqb g ID) eqn:Ei; cbn [andb].
  - apply TokKind_eqb_eq in Ei; subst g.
    destruct (str_in v KEYWORDS) eqn:Ek.
    + left. repeat split. apply str_in_In; assumption.
    + right; left. repeat split.
      intros Hin; apply str_in_In in Hin; congruence.
  - assert (g <> ID) by (intros ->; discriminate).
    destruct (TokKind_eqb g UNKNOWN) eqn:Eu.
    + apply TokKind_eqb_eq in Eu. right; right; left. auto.
    + right; right; right. repeat split; auto.
      intros ->; discriminate.
Qed.

Lemma tokenize_In_shape U src t :
  In t (tokenize U src) -> token_shape U t.
Proof.
  intros Ht.
  apply tokenize_match in Ht as (g & pre & post & Hg & _ & _ & Hk & Hm).
  apply MASTER_text in Hm. rewrite firstn_length_app in Hm.
  unfold token_shape. rewrite Hk.
  destruct (out_kind_cases g (tok_val t))
    as [(-> & Hin & ->)|[(-> & Hin & ->)|[(-> & ->)|(Hi & Hu & ->)]]];
    auto.
  destruct g; try contradiction; try congruence; auto.
Qed.

(** X3.  The text of every token of [tokenize] has the form of its kind:
    digits, a dot and digits for FLOAT; digits for INT; a letter or
    underscore followed by letters, digits and underscores for ID and not
    a reserved word; a reserved word for KEYWORD; one of the nine operators
    for OP; the one character of LPAREN, RPAREN, SEMI and COMMA; one
    character outside the skipped spaces for ERROR.  No token has the kind
    SKIP or UNKNOWN. *)
Theorem tokenize_token_shape (U : UnicodeTables) (src : str) :
  Forall (token_shape U) (tokenize U src).
Proof.
  apply Forall_forall. intros t Ht.
  apply (@tokenize_In_shape U src t Ht).
Qed.

Lemma filter_nil_all (A : Type) (f : A -> bool) l :
  filter f l = [] -> Forall (fun x => f x = false) l.
Proof.
  induction l as [|x l IH]; simpl; [constructor|].
  destruct (f x) eqn:E; [discriminate|]. intros H; constructor; auto.
Qed.

(** X4.  [tokenize] returns no token exactly for the texts made of spaces,
    tabs, carriage returns and newlines only, the empty text among them:
    every other character comes out in some token. *)
Theorem tokenize_empty_iff (U : UnicodeTables) (src : str) :
  tokenize U src = [] <-> forallb skip_char src = true.
Proof.
  pose proof (tokenize_cover U src) as Hc. split.
  - intros H. rewrite H in Hc. simpl in Hc. symmetry in Hc.
    apply filter_nil_all in Hc. apply forallb_forall.
    rewrite Forall_forall in Hc. intros c Hin.
    apply Hc in Hin. apply negb_false_iff in Hin. assumption.
  - intros H. rewrite filter_none in Hc.
    + destruct (tokenize U src) as [|t ts] eqn:E; [reflexivity|].
      assert (Ht : In t (tokenize U src)) by (rewrite E; left; reflexivity).
      apply tokenize_token in Ht as (Hne & _).
      simpl in Hc. destruct (tok_val t); [congruence | discriminate].
    + rewrite forallb_forall in H. apply Forall_forall.
      intros c Hin. rewrite (H _ Hin). reflexivity.
Qed.

Lemma id_start_not_digit U c : id_start c = true -> re_digit U c = false.
Proof. intros H. char_solve. Qed.

Lemma MASTER_ident U s :
  fullmatch_ident s = true -> MASTER U s = Some (length s, ID).
Proof.
  destruct s as [|c rest]; [discriminate|]. cbn [fullmatch_ident].
  intros H; apply andb_true_iff in H as [Hc Hrest].
  unfold MASTER, TOKEN_SPEC; cbn [first_group].
  unfold m_plus at 1. cbn [m_class].
  rewrite m_plus_end_eq, (id_start_not_digit U c Hc), Hc, m_star_end_eq.
  rewrite (run_forallb _ _ Hrest). reflexivity.
Qed.

Lemma afd_ascii U s :
  Forall (fun c => (c < 128)%N) s ->
  afd_identificador U s = fullmatch_ident s.
Proof.
  intros Hs. destruct s as [|c rest]; [reflexivity|].
  inversion Hs as [|c' rest' Hc Hrest]; subst.
  cbn [afd_identificador fullmatch_ident].
  rewrite (@ascii_isalpha U c Hc). clear Hs Hc.
  destruct (id_start c); cbn [negb andb]; [|reflexivity].
  induction Hrest as [|x l Hx Hl IH]; [reflexivity|].
  cbn [forallb]. rewrite (@ascii_isalnum U x Hx), IH. reflexivity.
Qed.

Lemma keywords_fullmatch v : In v KEYWORDS -> fullmatch_ident v = true.
Proof.
  unfold KEYWORDS; cbn [map In].
  intros H; repeat (destruct H as [<-|H]; [reflexivity|]). destruct H.
Qed.

(** X5.  A text is one single token of kind ID or KEYWORD, itself at
    offset 0, exactly when it matches [[A-Za-z_][A-Za-z0-9_]*].  On ASCII
    texts these are the texts that [afd_identificador] accepts: the
    automaton and the tokenizer agree on what an identifier is. *)
Theorem identifier_one_token (U : UnicodeTables) :
  (forall s, fullmatch_ident s = true <-> one_word U s) /\
  (forall s, Forall (fun c => (c < 128)%N) s ->
             (afd_identificador U s = true <-> one_word U s)).
Proof.
  assert (H1 : forall s, fullmatch_ident s = true <-> one_word U s).
  { intros s; split.
    - intros H. pose proof (MASTER_ident U s H) as Hm.
      unfold one_word. rewrite !tokenize_flat_map.
      destruct s as [|c rest]; [discriminate|].
      rewrite (finditer_cons (MASTER_ok U)), Hm.
      rewrite firstn_all, skipn_all, (finditer_nil (MASTER_ok U)).
      cbn [flat_map]. unfold emitted, out_kind; cbn [m_groups m_group m_start
        TokKind_eqb andb app].
      destruct (str_in (c :: rest) KEYWORDS); auto.
    - intros [H|H].
      + assert (Ht : token_shape U (ID, s, 0)).
        { apply (@tokenize_In_shape U s). rewrite H. left; reflexivity. }
        apply Ht.
      + assert (Ht : token_shape U (KEYWORD, s, 0)).
        { apply (@tokenize_In_shape U s). rewrite H. left; reflexivity. }
        apply keywords_fullmatch. apply Ht. }
  split; [assumption|].
  intros s Hs. rewrite (afd_ascii U Hs). apply H1.
Qed.

Lemma identifier_one_token_witness :
  afd_identificador latin1_only (str_of "while") = true <->
  one_word latin1_only (str_of "while").
Proof.
  apply (proj2 (identifier_one_token latin1_only) (str_of "while")).
  repeat constructor.
Defined.

Lemma out_kind_from g v k :
  out_kind g v = k ->
  (k = ID \/ k = KEYWORD -> g <> KEYWORD -> g = ID) /\
  (k = INT -> g = INT) /\ (k = FLOAT -> g = FLOAT).
Proof.
  intros <-.
  destruct (out_kind_cases g v)
    as [(-> & _ & E)|[(-> & _ & E)|[(-> & E)|(Hi & Hu & E)]]];
    rewrite E; repeat split; intros H; try discriminate H; auto;
    try (destruct H; discriminate); try congruence.
  intros Hk. destruct H; congruence.
Qed.

(** A match of ID, INT or FLOAT ends where its class of characters does. *)
Lemma MASTER_longest U s n g c :
  MASTER U s = Some (n, g) -> nth_error s n = Some c ->
  (g = ID -> id_part c = false) /\
  (g = INT \/ g = FLOAT -> re_digit U c = false).
Proof.
  intros H Hc. apply first_group_In in H as (p & Hin & Hp).
  unfold TOKEN_SPEC in Hin; cbn [In] in Hin.
  repeat (destruct Hin as [Hin|Hin]; [inversion Hin; subst; clear Hin|]);
    try destruct Hin;
    (split; [intros Hg; try discriminate Hg
            | intros [Hg|Hg]; try discriminate Hg]).
  - apply rule_FLOAT in Hp as (a & b & r & -> & -> & _ & _ & Hr).
    replace (a ++ chr "." :: b ++ r) with ((a ++ chr "." :: b) ++ r) in Hc
      by (rewrite <- app_assoc; reflexivity).
    rewrite nth_error_app2 in Hc by (rewrite length_app; simpl; lia).
    replace (length a + S (length b) - length (a ++ chr "." :: b)) with 0
      in Hc by (rewrite length_app; simpl; lia).
    destruct r; inversion Hc; subst; assumption.
  - destruct s as [|x rest]; [discriminate|].
    rewrite m_plus_end_eq in Hp.
    destruct (re_digit U x); inversion Hp; subst.
    simpl in Hc. eapply run_stop; eassumption.
  - destruct s as [|x rest]; [discriminate|]. cbn [m_class] in Hp.
    destruct (id_start x); [|discriminate].
    rewrite m_star_end_eq in Hp. inversion Hp; subst.
    simpl in Hc. eapply run_stop; eassumption.
Qed.

(** X6.  The tokenizer takes the longest identifier and the longest number:
    the character that follows a token of kind ID or KEYWORD in the text is
    no letter, digit or underscore, and the character that follows a token
    of kind INT or FLOAT is no digit. *)
Theorem tokenize_longest_match (U : UnicodeTables) (src : str) (t : Token)
    (c : char) :
  In t (tokenize U src) ->
  nth_error src (tok_pos t + length (tok_val t)) = Some c ->
  (tok_kind t = ID \/ tok_kind t = KEYWORD -> id_part c = false) /\
  (tok_kind t = INT \/ tok_kind t = FLOAT -> re_digit U c = false).
Proof.
  intros Ht Hc.
  apply tokenize_match in Ht as (g & pre & post & Hg & Hs & Hp & Hk & Hm).
  assert (Hc' : nth_error (tok_val t ++ post) (length (tok_val t)) = Some c).
  { rewrite Hs, Hp in Hc. rewrite nth_error_app2 in Hc by lia.
    replace (length pre + length (tok_val t) - length pre)
      with (length (tok_val t)) in Hc by lia. assumption. }
  destruct (MASTER_longest _ _ Hm Hc') as [Hid Hnum].
  destruct (MASTER_group _ _ Hm) as [Hkw _].
  destruct (out_kind_from _ _ (eq_sym Hk)) as (Hi & Hint & Hfl).
  split.
  - intros H. apply Hid. apply Hi; assumption.
  - intros [H|H]; apply Hnum; [left; apply Hint | right; apply Hfl];
      assumption.
Qed.

Lemma tokenize_longest_match_witness :
  id_part (chr "+") = false.
Proof.
  refine (proj1 (@tokenize_longest_match latin1_only (str_of "ab+1")
                   (ID, str_of "ab", 0) (chr "+") _ _) _).
  - vm_compute. tauto.
  - reflexivity.
  - left; reflexivity.
Defined.

(** ** Skipped spaces between tokens *)

Lemma skip_char_facts U c :
  skip_char c = true ->
  re_digit U c = false /\ id_start c = false /\ id_part c = false /\
  Forall (fun x => char_eqb x c = false) (str_of "=!<>+-*/();,.").
Proof.
  intros H. repeat split; try (repeat constructor); char_solve.
Qed.

Lemma rules8_stop U c :
  skip_char c = true ->
  Forall (fun e => stops_at c (snd e)) (firstn 8 (TOKEN_SPEC U)).
Proof.
  intros H.
  destruct (skip_char_facts U c H) as (Hd & Hs & Hp & Hl).
  assert (Hlit : forall w, Forall (fun x => In x (str_of "=!<>+-*/();,."))
                             (str_of w) ->
                           Forall (fun x => char_eqb x c = false) (str_of w)).
  { intros w Hw. rewrite Forall_forall in *. intros x Hx.
    apply Hl, Hw, Hx. }
  unfold TOKEN_SPEC; cbn [firstn snd].
  repeat (apply Forall_cons;
    [cbn [snd];
     repeat first
       [ apply stops_end
       | apply stops_plus; [assumption|]
       | apply stops_class; [assumption|]
       | apply stops_star; [assumption|]
       | apply stops_alt
       | apply stops_lit; [apply Hlit; repeat constructor; simpl; tauto|] ]
    |]).
  apply Forall_nil.
Qed.

Lemma TOKEN_SPEC_split8 U :
  TOKEN_SPEC U
  = firstn 8 (TOKEN_SPEC U)
    ++ [(SKIP, m_plus skip_char m_end); (UNKNOWN, m_class re_dot m_end)].
Proof. reflexivity. Qed.

(** At a skipped space the match is the whole run of them. *)
Lemma MASTER_skip U c rest :
  skip_char c = true ->
  MASTER U (c :: rest) = Some (S (run skip_char rest), SKIP).
Proof.
  intros H. pose proof (rules8_stop U c H) as Hst.
  unfold MASTER. rewrite TOKEN_SPEC_split8, first_group_app.
  rewrite (@first_group_ext (firstn 8 (TOKEN_SPEC U)) (c :: rest) []).
  - change (first_group (firstn 8 (TOKEN_SPEC U)) []) with
      (@None (nat * TokKind)).
    cbn [first_group]. rewrite m_plus_end_eq, H. reflexivity.
  - eapply Forall_impl; [|exact Hst]. intros e He. apply (He [] rest).
Qed.

Lemma MASTER_before_skip U c x s post :
  skip_char c = true -> skip_char x = false ->
  MASTER U ((x :: s) ++ c :: post) = MASTER U (x :: s).
Proof.
  intros H Hx. pose proof (rules8_stop U c H) as Hst.
  unfold MASTER. rewrite TOKEN_SPEC_split8, !first_group_app.
  rewrite (@first_group_ext (firstn 8 (TOKEN_SPEC U))
             ((x :: s) ++ c :: post) (x :: s)).
  - cbn [first_group app]. rewrite !m_plus_end_eq, Hx. reflexivity.
  - eapply Forall_impl; [|exact Hst]. intros e He. apply He.
Qed.

Section Separation.

Variable U : UnicodeTables.

Let T (pos : nat) (s : str) : list Token :=
  flat_map emitted (finditer (MASTER U) pos 0 s).

Lemma scan_skip c rest pos :
  skip_char c = true ->
  T pos (c :: rest)
  = T (pos + S (run skip_char rest)) (skipn (run skip_char rest) rest).
Proof.
  intros H. unfold T.
  rewrite (finditer_cons (MASTER_ok U)), (@MASTER_skip U c rest H).
  reflexivity.
Qed.

Lemma scan_lead s pos :
  T pos s = T (pos + run skip_char s) (skipn (run skip_char s) s).
Proof.
  destruct s as [|x r]; simpl.
  - rewrite Nat.add_0_r; reflexivity.
  - destruct (skip_char x) eqn:E.
    + apply scan_skip; assumption.
    + rewrite Nat.add_0_r; reflexivity.
Qed.

Lemma scan_skip_one c rest pos :
  skip_char c = true -> T pos (c :: rest) = T (S pos) rest.
Proof.
  intros H. rewrite (@scan_skip c rest pos H), (@scan_lead rest (S pos)).
  f_equal. lia.
Qed.

Lemma scan_separated c post : skip_char c = true ->
  forall pre pos,
    T pos (pre ++ c :: post) = T pos pre ++ T (S (pos + length pre)) post.
Proof.
  intros H pre. remember (length pre) as len eqn:Hlen. revert pre Hlen.
  induction len as [len IH] using lt_wf_ind; intros pre Hlen pos.
  destruct pre as [|x s].
  - subst len. cbn [app length]. rewrite (@scan_skip_one c post pos H).
    rewrite Nat.add_0_r. reflexivity.
  - destruct (skip_char x) eqn:Ex.
    + cbn [app]. rewrite !(@scan_skip_one x _ pos Ex).
      rewrite (IH (length s)) by (subst len; simpl; auto).
      subst len. cbn [length]. do 3 f_equal. lia.
    + unfold T.
      change ((x :: s) ++ c :: post) with (x :: (s ++ c :: post)).
      rewrite !(finditer_cons (MASTER_ok U)).
      change (x :: (s ++ c :: post)) with ((x :: s) ++ c :: post).
      rewrite (@MASTER_before_skip U c x s post H Ex).
      destruct (MASTER U (x :: s)) as [[n g]|] eqn:E;
        [|destruct (MASTER_total _ _ _ E)].
      pose proof (MASTER_ok U _ E) as Hn.
      rewrite firstn_app, skipn_app.
      replace (n - length (x :: s)) with 0 by lia.
      rewrite firstn_O, skipn_O, app_nil_r.
      cbn [flat_map]. rewrite <- app_assoc. f_equal.
      fold (T (pos + n) (skipn n (x :: s) ++ c :: post)).
      fold (T (pos + n) (skipn n (x :: s))).
      rewrite (IH (length (skipn n (x :: s))))
        by (try rewrite length_skipn; subst len; auto; lia).
      rewrite length_skipn. unfold T. do 3 f_equal. subst len. lia.
Qed.

End Separation.

(** X7.  A space, tab, carriage return or newline separates the tokens on
    its two sides: the tokens of a text around such a character are the
    tokens of what is before it, followed by the tokens of what is after
    it, with their offsets moved by the length before and the character. *)
Theorem tokenize_separated (U : UnicodeTables) (pre : str) (c : char)
    (post : str) :
  skip_char c = true ->
  tokenize U (pre ++ c :: post)
  = tokenize U pre
    ++ map (shift_token (S (length pre))) (tokenize U post).
Proof.
  intros H. rewrite (tokenize_flat_map U (pre ++ c :: post)).
  rewrite (@scan_separated U c post H pre 0).
  rewrite <- tokenize_flat_map, tokenize_shift. reflexivity.
Qed.

Lemma tokenize_separated_witness :
  tokenize latin1_only (str_of "x" ++ chr " " :: str_of "= 1")
  = tokenize latin1_only (str_of "x")
    ++ map (shift_token 2) (tokenize latin1_only (str_of "= 1")).
Proof.
  apply (@tokenize_separated latin1_only (str_of "x") (chr " ")
           (str_of "= 1")).
  reflexivity.
Defined.

(** ** The cursor of the lexer *)

Lemma skipn_nth (A : Type) (d : A) l : forall n,
  n < length l -> skipn n l = nth n l d :: skipn (S n) l.
Proof.
  induction l as [|x l IH]; intros [|n] H; simpl in *; try lia;
    [reflexivity|].
  apply IH; lia.
Qed.

(** X8.  [n] calls of [next] from any state of the lexer return the tokens
    from the cursor on, in their order, and the sentinel EOF for every call
    after the last token; the cursor has moved by [n] and the tokens are
    as they were. *)
Theorem next_n_reads (n : nat) (lex : ExprLexer) :
  fst (next_n n lex)
  = firstn n (skipn (pos lex) (tokens lex))
    ++ repeat EOF_token (n - (length (tokens lex) - pos lex)) /\
  tokens (snd (next_n n lex)) = tokens lex /\
  pos (snd (next_n n lex)) = pos lex + n.
Proof.
  revert lex; induction n as [|n IH]; intros lex.
  - simpl. rewrite Nat.add_0_r. auto.
  - cbn [next_n]. unfold next.
    specialize (IH {| tokens := tokens lex; pos := pos lex + 1 |}).
    destruct (next_n n {| tokens := tokens lex; pos := pos lex + 1 |})
      as [ts lex2].
    cbn [fst snd tokens pos] in IH |- *.
    destruct IH as (Hts & Htok & Hpos). rewrite Hts, Htok, Hpos.
    split; [|split; [reflexivity | lia]].
    unfold peek.
    destruct (Nat.ltb_spec (pos lex) (length (tokens lex))) as [Hlt|Hge].
    + rewrite (@skipn_nth _ EOF_token (tokens lex) (pos lex) Hlt).
      rewrite Nat.add_1_r. cbn [firstn app].
      replace (S n - (length (tokens lex) - pos lex))
        with (n - (length (tokens lex) - S (pos lex))) by lia.
      reflexivity.
    + rewrite !skipn_all2 by lia. rewrite !firstn_nil. cbn [app].
      replace (S n - (length (tokens lex) - pos lex)) with (S n) by lia.
      replace (n - (length (tokens lex) - (pos lex + 1))) with n by lia.
      reflexivity.
Qed.

(** ** The tokens of the lexer, one by one *)

Lemma substr_in_single c s :
  substr_in [c] s = existsb (char_eqb c) s.
Proof.
  induction s as [|x s IH]; [reflexivity|].
  cbn [substr_in is_prefix existsb]. rewrite IH.
  rewrite andb_true_r. reflexivity.
Qed.

Lemma existsb_char_In c s : existsb (char_eqb c) s = true <-> In c s.
Proof.
  rewrite existsb_exists. split.
  - intros (x & Hx & E). apply char_eqb_eq in E; subst; assumption.
  - intros H; exists c; split; [assumption | apply char_eqb_eq; reflexivity].
Qed.

Lemma alt_capture_groups_fail (a b c : matcher unit) s n g :
  m_alt (m_capture a GNum)
    (m_alt (m_capture b GIdent) (m_capture c GOther)) s = Some (n, g) ->
  (exists k, a s = Some (k, tt) /\ g = GNum (firstn k s)) \/
  (exists k, b s = Some (k, tt) /\ g = GIdent (firstn k s)) \/
  (exists k, a s = None /\ b s = None /\
             c s = Some (k, tt) /\ g = GOther (firstn k s)).
Proof.
  unfold m_alt, m_capture.
  destruct (a s) as [[k []]|] eqn:Ea.
  { intros H; inversion H; left; eauto. }
  destruct (b s) as [[k []]|] eqn:Eb.
  { intros H; inversion H; right; left; eauto. }
  destruct (c s) as [[k []]|] eqn:Ec; [|discriminate].
  intros H; inversion H; subst; right; right.
  eexists; repeat split; reflexivity.
Qed.

Lemma TOKEN_RE_shape U s n g :
  TOKEN_RE U s = Some (n, g) -> groups_shape U g.
Proof.
  unfold TOKEN_RE. intros H.
  apply m_star_result in H as (s' & n' & H).
  apply alt_capture_groups_fail in H
    as [(k & H & ->)|[(k & H & ->)|(k & Ha & Hb & H & ->)]];
    cbn [groups_shape].
  - unfold m_alt in H.
    destruct (m_plus (re_digit U) (m_lit "." (m_plus (re_digit U) m_end)) s')
      as [[k' []]|] eqn:Ef.
    + inversion H; subst k'.
      apply rule_FLOAT in Ef as (a & b & r & -> & -> & Ha & Hb & _).
      right. exists a, b. split; [|auto].
      replace (a ++ chr "." :: b ++ r) with ((a ++ chr "." :: b) ++ r)
        by (rewrite <- app_assoc; reflexivity).
      replace (length a + S (length b)) with (length (a ++ chr "." :: b))
        by (rewrite length_app; reflexivity).
      apply firstn_length_app.
    + left. apply rule_INT; assumption.
  - apply rule_ID; assumption.
  - destruct s' as [|x rest]; [discriminate|]. cbn [m_class] in H.
    destruct (re_dot x) eqn:Ed; [|discriminate].
    inversion H; subst k. exists x. cbn [firstn].
    repeat split.
    + intros ->. discriminate Ed.
    + unfold m_alt in Ha.
      destruct (m_plus (re_digit U)
                  (m_lit "." (m_plus (re_digit U) m_end)) (x :: rest));
        [discriminate|].
      rewrite m_plus_end_eq in Ha.
      destruct (re_digit U x); [discriminate | reflexivity].
    + cbn [m_class] in Hb.
      destruct (id_start x); [|reflexivity].
      rewrite m_star_end_eq in Hb. discriminate.
Qed.

Lemma lexer_step_shape U acc m :
  groups_shape U (m_groups m) ->
  Forall (expr_token_shape U) acc ->
  Forall (expr_token_shape U) (lexer_step acc m).
Proof.
  intros Hg Hacc.
  assert (Hone : forall t, expr_token_shape U t ->
                           Forall (expr_token_shape U) (acc ++ [t])).
  { intros t Ht. apply Forall_app; split; [assumption|].
    apply Forall_cons; [assumption | apply Forall_nil]. }
  unfold lexer_step.
  destruct (m_groups m) as [num|ident|other]; cbn [groups_shape] in Hg.
  - destruct (truthy num); [|assumption].
    destruct (substr_in (str_of ".") num); apply Hone; left; auto.
  - destruct (truthy ident); [|assumption].
    apply Hone. right; left; auto.
  - destruct Hg as (c & -> & Hn & Hd & Hi).
    rewrite substr_in_single.
    destruct (existsb (char_eqb c) (str_of "+-*/()")) eqn:Es.
    + apply Hone. right; right; left. exists c. split; [|reflexivity].
      apply existsb_char_In; assumption.
    + cbn [str_eqb]. apply Hone.
      right; right; right. exists c. repeat split; auto.
      intros Hin. apply existsb_char_In in Hin. congruence.
Qed.

Lemma finditer_TOKEN_RE_shape U pos text :
  Forall (fun m => groups_shape U (m_groups m))
    (finditer (TOKEN_RE U) pos 0 text).
Proof.
  apply Forall_forall; intros m Hm.
  apply (finditer_In (TOKEN_RE_ok U)) in Hm as (pre & post & _ & _ & Hre).
  eapply TOKEN_RE_shape; eassumption.
Qed.

Lemma lexer_fold_shape U ms : forall acc,
  Forall (fun m => groups_shape U (m_groups m)) ms ->
  Forall (expr_token_shape U) acc ->
  Forall (expr_token_shape U) (fold_left lexer_step ms acc).
Proof.
  induction ms as [|m ms IH]; intros acc Hms H; cbn [fold_left];
    [assumption|].
  inversion Hms; subst. apply IH; [assumption|].
  apply lexer_step_shape; assumption.
Qed.

(** X9.  Every token of [ExprLexer] is a NUMBER whose text is digits, or
    digits, a dot and digits; or an ID whose text matches the pattern of
    identifiers; or one of the six characters [+ - * / ( )], which is then
    its own kind and text; or an ERROR with one other character, which is
    no newline, no digit and no first character of an identifier. *)
Theorem ExprLexer_token_shape (U : UnicodeTables) (text : str) :
  Forall (expr_token_shape U) (tokens (ExprLexer_init U text)).
Proof.
  unfold ExprLexer_init; cbn [tokens].
  apply lexer_fold_shape; [apply finditer_TOKEN_RE_shape | constructor].
Qed.

(** ** Texts without a token *)

Lemma TOKEN_RE_newlines U s :
  Forall (fun c => c = chr "010") s -> TOKEN_RE U s = None.
Proof.
  induction 1 as [|c rest Hc _ IH]; [reflexivity|]. subst c.
  unfold TOKEN_RE in *. cbn [m_star].
  change (re_space U (chr "010")) with true. cbv iota.
  rewrite IH. reflexivity.
Qed.

Lemma m_star_fallback (A : Type) p (k : matcher A) s :
  k s <> None -> m_star p k s <> None.
Proof.
  intros Hk. destruct s as [|c rest]; simpl; [assumption|].
  destruct (p c); [|assumption].
  destruct (m_star p k rest) as [[n a]|]; [discriminate | assumption].
Qed.

Lemma TOKEN_RE_some U x rest :
  re_dot x = true -> TOKEN_RE U (x :: rest) <> None.
Proof.
  intros Hx. unfold TOKEN_RE. apply m_star_fallback.
  unfold m_alt at 1 3, m_capture.
  destruct (m_alt _ _ (x :: rest)) as [[k []]|]; [discriminate|].
  destruct (m_class id_start _ (x :: rest)) as [[k []]|]; [discriminate|].
  cbn [m_class]. rewrite Hx. discriminate.
Qed.

Lemma finditer_nil_iff U text : forall pos,
  finditer (TOKEN_RE U) pos 0 text = [] <->
  Forall (fun c => c = chr "010") text.
Proof.
  induction text as [|x rest IH]; intros pos.
  - rewrite (finditer_nil (TOKEN_RE_ok U)). split; auto.
  - rewrite (finditer_cons (TOKEN_RE_ok U)). split.
    + destruct (TOKEN_RE U (x :: rest)) as [[n g]|] eqn:E; [discriminate|].
      intros H. apply IH in H. constructor; [|assumption].
      destruct (re_dot x) eqn:Ex.
      * destruct (@TOKEN_RE_some U x rest Ex E).
      * unfold re_dot in Ex. apply negb_false_iff, char_eqb_eq in Ex.
        assumption.
    + intros H. rewrite (@TOKEN_RE_newlines U _ H).
      inversion H; subst. apply IH. assumption.
Qed.

Lemma lexer_step_length U acc m :
  groups_shape U (m_groups m) ->
  length (lexer_step acc m) = S (length acc).
Proof.
  intros Hg. unfold lexer_step.
  destruct (m_groups m) as [num|ident|other]; cbn [groups_shape] in Hg.
  - assert (Hn : truthy num = true).
    { destruct Hg as [[Hne _]|(a & b & -> & [Hne _] & _)];
        [destruct num | destruct a]; try congruence; reflexivity. }
    rewrite Hn. destruct (substr_in (str_of ".") num);
      rewrite length_app; simpl; lia.
  - destruct ident as [|c i]; [discriminate|]. cbn [truthy].
    rewrite length_app; simpl; lia.
  - destruct Hg as (c & -> & _).
    destruct (substr_in [c] (str_of "+-*/()")); cbn [str_eqb];
      rewrite length_app; simpl; lia.
Qed.

(** Every match of [TOKEN_RE] gives one token. *)
Lemma ExprLexer_init_length U text :
  length (tokens (ExprLexer_init U text))
  = length (finditer (TOKEN_RE U) 0 0 text).
Proof.
  unfold ExprLexer_init; cbn [tokens].
  assert (Hms : Forall (fun m => groups_shape U (m_groups m))
                  (finditer (TOKEN_RE U) 0 0 text)).
  { apply Forall_forall; intros m Hm.
    apply (finditer_In (TOKEN_RE_ok U)) in Hm as (pre & post & _ & _ & Hre).
    eapply TOKEN_RE_shape; eassumption. }
  revert Hms. generalize (finditer (TOKEN_RE U) 0 0 text).
  intros ms Hms.
  assert (H : forall acc,
            length (fold_left lexer_step ms acc) = length acc + length ms).
  { induction Hms as [|m ms Hm _ IH]; intros acc; cbn [fold_left length];
      [lia|].
    rewrite IH, (@lexer_step_length U acc m Hm). lia. }
  apply (H []).
Qed.

(** X10.  The lexer of the parser makes no token exactly for the texts
    made of newlines only, the empty text among them, and
    [parse_expression] of such a text raises the SyntaxError of the token
    not expected in F, which is the sentinel EOF. *)
Theorem parse_expression_no_token (U : UnicodeTables) (text : str) :
  (tokens (ExprLexer_init U text) = [] <->
   Forall (fun c => c = chr "010") text) /\
  (Forall (fun c => c = chr "010") text ->
   parse_expression U text
   = Raise (SyntaxError (UnexpectedTokenInF EOF_token))).
Proof.
  assert (H : tokens (ExprLexer_init U text) = [] <->
              Forall (fun c => c = chr "010") text).
  { rewrite <- (finditer_nil_iff U text 0).
    pose proof (ExprLexer_init_length U text) as Hl.
    split; intros E.
    - rewrite E in Hl.
      destruct (finditer (TOKEN_RE U) 0 0 text); simpl in Hl;
        [reflexivity | discriminate Hl].
    - rewrite E in Hl.
      destruct (tokens (ExprLexer_init U text)); simpl in Hl;
        [reflexivity | discriminate Hl]. }
  split; [assumption|].
  intros Hn. apply H in Hn.
  rewrite parse_expression_tokens, Hn. reflexivity.
Qed.

Lemma parse_expression_no_token_witness :
  parse_expression latin1_only [chr "010"; chr "010"]
  = Raise (SyntaxError (UnexpectedTokenInF EOF_token)).
Proof.
  apply (proj2 (parse_expression_no_token latin1_only
                  [chr "010"; chr "010"])).
  repeat constructor.
Defined.

(** ** The parser and its grammar: what is parsed is derived *)

Lemma reads_nil lex : reads lex [] lex.
Proof. unfold reads; simpl. rewrite Nat.add_0_r. auto. Qed.

Lemma reads_app a t1 b t2 c :
  reads a t1 b -> reads b t2 c -> reads a (t1 ++ t2) c.
Proof.
  unfold reads. intros (Ht & Hp & Hs) (Ht' & Hp' & Hs').
  rewrite Ht in *. repeat split.
  - assumption.
  - rewrite length_app; lia.
  - rewrite Hs, Hs', app_assoc. reflexivity.
Qed.

Lemma reads_next lex :
  pos lex < length (tokens lex) -> reads lex [peek lex] (snd (next lex)).
Proof.
  intros H. unfold reads, next, peek; cbn [snd tokens pos length app].
  destruct (Nat.ltb_spec (pos lex) (length (tokens lex))); [|lia].
  repeat split. rewrite Nat.add_1_r.
  apply skipn_nth; assumption.
Qed.

Lemma F_sound Erec Ex : sound Ex Erec -> sound (g_factor Ex) (F_ Erec).
Proof.
  intros HE lex a lex' H.
  cbv beta iota delta [F_ bind lex_peek lex_next ret raise] in H.
  destruct (kind_is "NUMBER" (peek lex)) eqn:E1.
  { inversion H; subst. exists [peek lex]. split.
    - apply reads_next. eapply kind_is_real; [|eassumption]. reflexivity.
    - apply g_number; assumption. }
  destruct (kind_is "ID" (peek lex)) eqn:E2.
  { inversion H; subst. exists [peek lex]. split.
    - apply reads_next. eapply kind_is_real; [|eassumption]. reflexivity.
    - apply g_ident; assumption. }
  destruct (kind_is "(" (peek lex)) eqn:E3; [|discriminate].
  assert (Hn : reads lex [peek lex] (snd (next lex))).
  { apply reads_next. eapply kind_is_real; [|eassumption]. reflexivity. }
  destruct (next lex) as [t lex1] eqn:En. cbn [snd] in Hn.
  destruct (Erec lex1) as [[node lex2]| |] eqn:Ee; try discriminate.
  apply HE in Ee as (ts & Hr & Hx).
  destruct (kind_is ")" (peek lex2)) eqn:E4; cbn [negb] in H;
    [|discriminate].
  inversion H; subst.
  exists (peek lex :: ts ++ [peek lex2]). split.
  - apply (@reads_app lex [peek lex] lex1); [assumption|].
    apply (@reads_app lex1 ts lex2); [assumption|].
    apply reads_next. eapply kind_is_real; [|eassumption]. reflexivity.
  - apply g_paren; assumption.
Qed.

Lemma while_sound ops operand X :
  forallb (fun k => negb (str_eqb (str_of k) (str_of "EOF"))) ops = true ->
  sound X operand ->
  forall fuel node lex a lex',
    while_ fuel (kind_in ops)
      (fun node =>
         t <- lex_next ;;
         let op := fst t in
         right <- operand ;; ret (BinOp op node right))
      node lex = Ok (a, lex') ->
    exists ts, reads lex ts lex' /\ g_rep ops X node ts a.
Proof.
  intros Hops Ho fuel; induction fuel as [|fuel IH]; intros node lex a lex' H;
    cbn [while_] in H; destruct (kind_in ops (peek lex)) eqn:Ec;
    try discriminate;
    try (inversion H; subst; exists []; split;
         [apply reads_nil | apply g_rep_nil]).
  cbv beta iota zeta delta [bind lex_next ret] in H.
  assert (Hn : reads lex [peek lex] (snd (next lex)))
    by (apply reads_next; eapply kind_in_real; eassumption).
  assert (Hp : fst (next lex) = peek lex) by reflexivity.
  destruct (next lex) as [t lex1]. cbn [snd fst] in Hn, Hp. subst t.
  destruct (operand lex1) as [[right lex2]| |] eqn:Eo; try discriminate.
  apply Ho in Eo as (ts & Hr & Hx).
  apply IH in H as (rest & Hr' & Hrep).
  exists (peek lex :: ts ++ rest). split.
  - apply (@reads_app lex [peek lex] lex1); [assumption|].
    apply (@reads_app lex1 ts lex2); assumption.
  - eapply g_rep_cons; eassumption.
Qed.

Lemma level_sound fuel ops operand X :
  forallb (fun k => negb (str_eqb (str_of k) (str_of "EOF"))) ops = true ->
  sound X operand -> sound (g_level ops X) (level fuel ops operand).
Proof.
  intros Hops Ho lex a lex' H. unfold level in H.
  apply bind_Ok in H as (node & lex1 & H1 & H2).
  apply Ho in H1 as (ts0 & Hr & Hx).
  apply (@while_sound ops operand X Hops Ho) in H2 as (rest & Hr' & Hrep).
  exists (ts0 ++ rest). split.
  - eapply reads_app; eassumption.
  - apply g_level_intro with (a0 := node); assumption.
Qed.

Lemma E_sound fuel : sound (g_E fuel) (E fuel).
Proof.
  induction fuel as [|fuel IH]; [intros lex a lex' H; discriminate H|].
  rewrite E_unfold. cbn [g_E].
  apply level_sound; [reflexivity|].
  apply level_sound; [reflexivity|].
  apply F_sound, IH.
Qed.

(** ** The parser and its grammar: what is derived is parsed *)

Lemma peek_skipn all n :
  peek {| tokens := all; pos := n |} = hd EOF_token (skipn n all).
Proof.
  unfold peek; cbn [tokens pos].
  destruct (Nat.ltb_spec n (length all)) as [Hlt|Hge].
  - rewrite (@skipn_nth _ EOF_token all n Hlt). reflexivity.
  - rewrite skipn_all2 by assumption. reflexivity.
Qed.

Lemma skipn_after (A : Type) (all : list A) n a b :
  skipn n all = a ++ b -> skipn (n + length a) all = b.
Proof.
  intros H. rewrite Nat.add_comm, <- skipn_skipn, H.
  rewrite skipn_app, skipn_all, Nat.sub_diag, skipn_O. reflexivity.
Qed.

Lemma kind_is_excl k1 k2 t :
  kind_is k1 t = true -> str_eqb (str_of k1) (str_of k2) = false ->
  kind_is k2 t = false.
Proof.
  intros H Hk. apply kind_is_eq in H. unfold kind_is. rewrite H. assumption.
Qed.

Lemma close_paren_follow r : kind_is ")" r = true -> follow_E r = false.
Proof.
  intros H. apply kind_is_eq in H.
  unfold follow_E, follow_T, follow_F, kind_in. rewrite H. reflexivity.
Qed.

Lemma F_complete m Erec Ex :
  (forall all n ts post a,
     Ex ts a -> skipn n all = ts ++ post ->
     follow_E (hd EOF_token post) = false ->
     length (ts ++ post) < m ->
     Erec {| tokens := all; pos := n |}
     = Ok (a, {| tokens := all; pos := n + length ts |})) ->
  complete_upto m follow_F (g_factor Ex) (F_ Erec).
Proof.
  intros HE all n ts post a Hx Hs _ Hm.
  assert (Hp : peek {| tokens := all; pos := n |} = hd EOF_token (ts ++ post))
    by (rewrite peek_skipn, Hs; reflexivity).
  destruct Hx as [t Hk|t Hk|l ts a r Hl Hx Hr]; cbn [app hd] in Hp.
  - unfold F_, bind, lex_peek, lex_next, ret, raise, next.
    rewrite Hp, Hk. reflexivity.
  - unfold F_, bind, lex_peek, lex_next, ret, raise, next.
    rewrite Hp, Hk, (@kind_is_excl "ID" "NUMBER" t Hk eq_refl). reflexivity.
  - assert (Hs1 : skipn (n + 1) all = ts ++ r :: post).
    { apply (@skipn_after _ all n [l]). rewrite Hs. cbn [app].
      rewrite <- app_assoc. reflexivity. }
    assert (Hs2 : skipn (n + 1 + length ts) all = r :: post)
      by (apply (@skipn_after _ all (n + 1) ts (r :: post) Hs1)).
    assert (Hlen : length (ts ++ r :: post) < m).
    { rewrite !length_app in *. cbn [length] in *.
      rewrite !length_app in *. cbn [length] in *. lia. }
    unfold F_, bind, lex_peek, lex_next, ret, raise, next.
    cbn [tokens pos]. rewrite Hp.
    rewrite (@kind_is_excl "(" "NUMBER" l Hl eq_refl),
      (@kind_is_excl "(" "ID" l Hl eq_refl), Hl.
    cbn [tokens pos].
    rewrite (HE all (n + 1) ts (r :: post) a Hx Hs1
               (close_paren_follow r Hr) Hlen).
    rewrite peek_skipn, Hs2. cbn [hd]. rewrite Hr. cbn [negb tokens pos].
    do 3 f_equal. cbn [length]. rewrite length_app. simpl. lia.
Qed.

Lemma rep_head ops X node rest a :
  g_rep ops X node rest a ->
  rest = [] \/ exists op rest', rest = op :: rest' /\ kind_in ops op = true.
Proof.
  intros [|n op ts b r a' Hop _ _]; [left; reflexivity|].
  right. eexists _, _. split; [reflexivity | assumption].
Qed.

Lemma while_step fuel cond body node lex node' lex' :
  cond (peek lex) = true -> body node lex = Ok (node', lex') ->
  while_ (S fuel) cond body node lex = while_ fuel cond body node' lex'.
Proof. intros Hc Hb. cbn [while_]. rewrite Hc, Hb. reflexivity. Qed.

Lemma operator_step operand node lex b lex2 :
  operand (snd (next lex)) = Ok (b, lex2) ->
  (t <- lex_next ;;
   let op := fst t in
   right <- operand ;; ret (BinOp op node right)) lex
  = Ok (BinOp (fst (peek lex)) node b, lex2).
Proof.
  intros H. unfold bind, lex_next, ret. 
  destruct (next lex) as [t lex1] eqn:En.
  assert (Ht : t = peek lex) by (unfold next in En; congruence).
  cbn [snd fst] in *. rewrite H, Ht. reflexivity.
Qed.

Lemma while_raise fuel cond body node lex e :
  cond (peek lex) = true -> body node lex = Raise e ->
  while_ (S fuel) cond body node lex = Raise e.
Proof. intros Hc Hb. cbn [while_]. rewrite Hc, Hb. reflexivity. Qed.

Lemma operator_raise operand node lex e :
  operand (snd (next lex)) = Raise e ->
  (t <- lex_next ;;
   let op := fst t in
   right <- operand ;; ret (BinOp op node right)) lex
  = Raise e.
Proof.
  intros H. unfold bind, lex_next, ret.
  destruct (next lex) as [t lex1]. cbn [snd] in H. rewrite H. reflexivity.
Qed.

Section Levels.

Variable ops : list string.
Variable operand : Parser AST.
Variable X : list ExprToken -> AST -> Prop.
Variable folX : ExprToken -> bool.
Variable m : nat.

Hypothesis Hopd : complete_upto m folX X operand.
Hypothesis Hfol : forall op, kind_in ops op = true -> folX op = false.

(** An operand is followed by an operator of the level or by what follows
    the whole level. *)
Lemma follow_operand node rest a post :
  g_rep ops X node rest a ->
  folX (hd EOF_token post) || kind_in ops (hd EOF_token post) = false ->
  folX (hd EOF_token (rest ++ post)) = false.
Proof.
  intros Hrep Hf. apply orb_false_iff in Hf as [Hf _].
  destruct (@rep_head ops X node rest a Hrep)
    as [->|(op & rest' & -> & Hop)];
    [assumption | apply Hfol; assumption].
Qed.

Lemma rep_complete node rest a :
  g_rep ops X node rest a ->
  forall all n post fuel,
    skipn n all = rest ++ post ->
    folX (hd EOF_token post) || kind_in ops (hd EOF_token post) = false ->
    length (rest ++ post) <= m ->
    length (rest ++ post) <= fuel ->
    while_ fuel (kind_in ops)
      (fun node =>
         t <- lex_next ;;
         let op := fst t in
         right <- operand ;; ret (BinOp op node right))
      node {| tokens := all; pos := n |}
    = Ok (a, {| tokens := all; pos := n + length rest |}).
Proof.
  induction 1 as [node|node op ts b rest a Hop Hx Hrep IH];
    intros all n post fuel Hs Hf Hm Hfuel.
  - cbn [app] in Hs. rewrite while_exit.
    + cbn [length]. rewrite Nat.add_0_r. reflexivity.
    + rewrite peek_skipn, Hs. apply orb_false_iff in Hf. tauto.
  - destruct fuel as [|fuel]; [cbn [app length] in Hfuel; lia|].
    assert (Hs1 : skipn (n + 1) all = ts ++ rest ++ post).
    { apply (@skipn_after _ all n [op]). rewrite Hs. cbn [app].
      rewrite <- app_assoc. reflexivity. }
    assert (Hs2 : skipn (n + 1 + length ts) all = rest ++ post)
      by (apply (@skipn_after _ all (n + 1) ts (rest ++ post) Hs1)).
    assert (Hlen : length (ts ++ rest ++ post) < length ((op :: ts ++ rest) ++ post)).
    { cbn [app length]. rewrite <- app_assoc. lia. }
    assert (Hlen' : length (rest ++ post) <= length (ts ++ rest ++ post))
      by (rewrite (length_app ts); lia).
    assert (Hpk : peek {| tokens := all; pos := n |} = op)
      by (rewrite peek_skipn, Hs; reflexivity).
    rewrite (@while_step fuel _ _ node {| tokens := all; pos := n |}
               (BinOp (fst op) node b)
               {| tokens := all; pos := n + 1 + length ts |}).
    + rewrite (IH all (n + 1 + length ts) post fuel Hs2 Hf) by lia.
      do 3 f_equal. cbn [length]. rewrite length_app. lia.
    + rewrite Hpk. assumption.
    + rewrite <- Hpk at 1. apply operator_step. cbn [next snd tokens pos].
      apply (@Hopd all (n + 1) ts (rest ++ post) b Hx Hs1
               (@follow_operand _ rest a post Hrep Hf)).
      lia.
Qed.

Lemma level_complete fuel :
  m <= fuel ->
  complete_upto m (fun t => folX t || kind_in ops t) (g_level ops X)
    (level fuel ops operand).
Proof.
  intros Hfuel all n ts post a Hx Hs Hf Hm.
  destruct Hx as [ts0 a0 rest a Hx Hrep].
  rewrite <- app_assoc in Hs.
  assert (Hs1 : skipn (n + length ts0) all = rest ++ post)
    by (apply (@skipn_after _ all n ts0 (rest ++ post) Hs)).
  assert (Hlen : length (rest ++ post) <= length ((ts0 ++ rest) ++ post))
    by (rewrite <- app_assoc, (length_app ts0); lia).
  unfold level, bind at 1.
  rewrite (@Hopd all n ts0 (rest ++ post) a0 Hx Hs
             (@follow_operand a0 rest a post Hrep Hf))
    by (rewrite app_assoc; assumption).
  cbv beta iota.
  eapply eq_trans;
    [apply (@rep_complete a0 rest a Hrep all (n + length ts0) post fuel
              Hs1 Hf); lia|].
  do 3 f_equal. rewrite length_app. lia.
Qed.

(** *** An operator with no operand after it *)

Lemma follow_dangling node rest a op post :
  g_rep ops X node rest a -> kind_in ops op = true ->
  folX (hd EOF_token (rest ++ op :: post)) = false.
Proof.
  intros Hrep Hop.
  destruct (@rep_head ops X node rest a Hrep)
    as [->|(op' & rest' & -> & Hop')]; apply Hfol; assumption.
Qed.

Lemma rep_dangling node rest a :
  g_rep ops X node rest a ->
  forall all n op post fuel e,
    skipn n all = rest ++ op :: post ->
    kind_in ops op = true ->
    operand {| tokens := all; pos := n + length rest + 1 |} = Raise e ->
    length (rest ++ op :: post) <= m ->
    length (rest ++ op :: post) <= fuel ->
    while_ fuel (kind_in ops)
      (fun node =>
         t <- lex_next ;;
         let op := fst t in
         right <- operand ;; ret (BinOp op node right))
      node {| tokens := all; pos := n |}
    = Raise e.
Proof.
  induction 1 as [node|node op0 ts b rest a Hop0 Hx Hrep IH];
    intros all n op post fuel e Hs Hop He Hm Hfuel.
  - cbn [app length] in *. destruct fuel as [|fuel]; [lia|].
    apply while_raise.
    + rewrite peek_skipn, Hs. assumption.
    + apply operator_raise. cbn [next snd tokens pos].
      rewrite Nat.add_0_r in He. exact He.
  - destruct fuel as [|fuel]; [cbn [app length] in Hfuel; lia|].
    assert (Hs1 : skipn (n + 1) all = ts ++ rest ++ op :: post).
    { apply (@skipn_after _ all n [op0]). rewrite Hs. cbn [app].
      rewrite <- app_assoc. reflexivity. }
    assert (Hs2 : skipn (n + 1 + length ts) all = rest ++ op :: post)
      by (apply (@skipn_after _ all (n + 1) ts (rest ++ op :: post) Hs1)).
    assert (Hlen : length (ts ++ rest ++ op :: post)
                   < length ((op0 :: ts ++ rest) ++ op :: post)).
    { cbn [app length]. rewrite <- app_assoc. lia. }
    assert (Hlen' : length (rest ++ op :: post)
                    <= length (ts ++ rest ++ op :: post))
      by (rewrite (length_app ts); lia).
    assert (Hpk : peek {| tokens := all; pos := n |} = op0)
      by (rewrite peek_skipn, Hs; reflexivity).
    rewrite (@while_step fuel _ _ node {| tokens := all; pos := n |}
               (BinOp (fst op0) node b)
               {| tokens := all; pos := n + 1 + length ts |}).
    + apply (IH all (n + 1 + length ts) op post fuel e Hs2 Hop); [|lia|lia].
      rewrite <- He. do 2 f_equal. cbn [length]. rewrite length_app. lia.
    + rewrite Hpk. assumption.
    + rewrite <- Hpk at 1. apply operator_step. cbn [next snd tokens pos].
      apply (@Hopd all (n + 1) ts (rest ++ op :: post) b Hx Hs1
               (@follow_dangling _ rest a op post Hrep Hop)).
      lia.
Qed.

Lemma level_dangling fuel ts a all n op post e :
  m <= fuel ->
  g_level ops X ts a ->
  skipn n all = ts ++ op :: post ->
  kind_in ops op = true ->
  operand {| tokens := all; pos := n + length ts + 1 |} = Raise e ->
  length (ts ++ op :: post) <= m ->
  level fuel ops operand {| tokens := all; pos := n |} = Raise e.
Proof.
  intros Hfuel Hx Hs Hop He Hm.
  destruct Hx as [ts0 a0 rest a Hx Hrep].
  rewrite <- app_assoc in Hs, Hm.
  assert (Hs1 : skipn (n + length ts0) all = rest ++ op :: post)
    by (apply (@skipn_after _ all n ts0 (rest ++ op :: post) Hs)).
  assert (Hlen : length (rest ++ op :: post)
                 <= length (ts0 ++ rest ++ op :: post))
    by (rewrite (length_app ts0); lia).
  unfold level, bind at 1.
  rewrite (@Hopd all n ts0 (rest ++ op :: post) a0 Hx Hs
             (@follow_dangling a0 rest a op post Hrep Hop) Hm).
  cbv beta iota.
  apply (@rep_dangling a0 rest a Hrep all (n + length ts0) op post fuel e
           Hs1 Hop); [|lia|lia].
  rewrite <- He. do 2 f_equal. rewrite length_app. lia.
Qed.

End Levels.

(** With [f] tokens left at most, [E] with the fuel [S f] parses every
    expression of the grammar. *)
Lemma E_complete f : forall d, complete_upto f follow_E (g_E d) (E (S f)).
Proof.
  induction f as [|f IH]; intros d;
    (destruct d as [|d]; [intros all n ts post a []|]);
    rewrite E_unfold; cbn [g_E].
  - apply (@level_complete _ _ _ follow_T 0); [| |lia].
    + apply (@level_complete _ _ _ follow_F 0); [| |lia].
      * apply F_complete. intros; lia.
      * reflexivity.
    + intros op Hop. unfold follow_T, follow_F. cbn [orb].
      apply sum_not_product; assumption.
  - apply (@level_complete _ _ _ follow_T (S f)); [| |lia].
    + apply (@level_complete _ _ _ follow_F (S f)); [| |lia].
      * apply F_complete. intros all n ts post a Hx Hs Hf Hm.
        apply (IH d all n ts post a Hx Hs Hf). lia.
      * reflexivity.
    + intros op Hop. unfold follow_T, follow_F. cbn [orb].
      apply sum_not_product; assumption.
Qed.

Lemma F_E_complete f d :
  complete_upto f follow_F (g_factor (g_E d)) (F_ (E f)).
Proof.
  apply F_complete. intros all n ts post a Hx Hs Hf Hm.
  destruct f as [|f]; [lia|].
  apply (@E_complete f d all n ts post a Hx Hs Hf). lia.
Qed.

Lemma T_complete f d :
  complete_upto f follow_T
    (g_level ["*"; "/"]%string (g_factor (g_E d)))
    (level f ["*"; "/"]%string (F_ (E f))).
Proof.
  apply (@level_complete _ _ _ follow_F f); [| |lia].
  - apply F_E_complete.
  - reflexivity.
Qed.

Lemma derives_parse_tokens ts a : derives ts a -> parse_tokens ts = Ok a.
Proof.
  intros [d Hd]. unfold parse_tokens. cbn [tokens].
  rewrite (@E_complete (length ts) d ts 0 ts [] a Hd).
  - rewrite peek_past_end by (simpl; lia). reflexivity.
  - rewrite app_nil_r. reflexivity.
  - reflexivity.
  - rewrite app_nil_r. lia.
Qed.

Lemma parse_tokens_derives ts a :
  Forall (fun t => kind_is "EOF" t = false) ts ->
  parse_tokens ts = Ok a -> derives ts a.
Proof.
  intros Hk H. unfold parse_tokens in H. cbn [tokens] in H.
  destruct (E (S (length ts)) {| tokens := ts; pos := 0 |})
    as [[a0 lex']| |] eqn:HE; try discriminate.
  destruct (kind_is "EOF" (peek lex')) eqn:Hp; cbn [negb] in H;
    [|discriminate].
  inversion H; subst a0.
  apply E_sound in HE as (ts' & (Ht & Hpos & Hs) & Hd).
  cbn [tokens pos] in *.
  apply peek_EOF_end in Hp; [|rewrite Ht; assumption].
  rewrite Ht in Hp. rewrite skipn_O in Hs.
  rewrite skipn_all2 in Hs by assumption.
  rewrite app_nil_r in Hs. subst ts'.
  eexists; eassumption.
Qed.

(** *** The expressions with one more operator *)

Lemma g_rep_snoc ops X node rest a op ts b :
  g_rep ops X node rest a -> kind_in ops op = true -> X ts b ->
  g_rep ops X node (rest ++ op :: ts) (BinOp (fst op) a b).
Proof.
  intros Hrep Hop Hx.
  induction Hrep as [node|node op0 ts0 b0 rest a Hop0 Hx0 _ IH].
  - cbn [app]. rewrite <- (app_nil_r ts).
    eapply g_rep_cons; [assumption | eassumption | apply g_rep_nil].
  - replace ((op0 :: ts0 ++ rest) ++ op :: ts)
      with (op0 :: ts0 ++ rest ++ op :: ts)
      by (cbn [app]; rewrite <- app_assoc; reflexivity).
    eapply g_rep_cons; eassumption.
Qed.

Lemma g_level_snoc ops X pre a op ts b :
  g_level ops X pre a -> kind_in ops op = true -> X ts b ->
  g_level ops X (pre ++ op :: ts) (BinOp (fst op) a b).
Proof.
  intros [ts0 a0 rest a' H0 Hrep] Hop Hx. rewrite <- app_assoc.
  apply g_level_intro with (a0 := a0); [assumption|].
  apply g_rep_snoc; assumption.
Qed.

(** An expression of a level is one operand, or an expression of the level,
    an operator of the level and the last operand. *)
Lemma g_rep_last ops X node rest a :
  g_rep ops X node rest a ->
  forall pre,
    g_level ops X pre node ->
    rest = [] \/
    exists pre' a1 op last b,
      pre ++ rest = pre' ++ op :: last /\ g_level ops X pre' a1 /\
      kind_in ops op = true /\ X last b.
Proof.
  induction 1 as [node|node op ts b rest a Hop Hx Hrep IH]; intros pre Hpre;
    [left; reflexivity|].
  right.
  destruct (IH (pre ++ op :: ts)
              (@g_level_snoc ops X pre node op ts b Hpre Hop Hx))
    as [->|(pre' & a1 & op' & last & b' & Heq & Hl & Hop' & Hx')].
  - exists pre, node, op, ts, b. rewrite app_nil_r. auto.
  - exists pre', a1, op', last, b'. rewrite <- Heq, <- app_assoc.
    cbn [app]. auto.
Qed.

Lemma g_level_last ops X ts a :
  g_level ops X ts a ->
  X ts a \/
  exists pre a1 op last b,
    ts = pre ++ op :: last /\ g_level ops X pre a1 /\
    kind_in ops op = true /\ X last b.
Proof.
  intros [ts0 a0 rest a' H0 Hrep].
  assert (Hpre : g_level ops X ts0 a0).
  { rewrite <- (app_nil_r ts0).
    apply g_level_intro with (a0 := a0); [assumption | apply g_rep_nil]. }
  destruct (@g_rep_last ops X a0 rest a' Hrep ts0 Hpre) as [->|H].
  - left. rewrite app_nil_r. inversion Hrep; subst. assumption.
  - right. assumption.
Qed.

Lemma skipn_past (A : Type) (all : list A) n ts op post :
  skipn n all = ts ++ op :: post -> skipn (n + length ts + 1) all = post.
Proof.
  intros H.
  apply (@skipn_after _ all (n + length ts) [op] post).
  apply (@skipn_after _ all n ts (op :: post) H).
Qed.

Lemma F_unexpected Erec lex :
  kind_in ["NUMBER"; "ID"; "("]%string (peek lex) = false ->
  F_ Erec lex = Raise (SyntaxError (UnexpectedTokenInF (peek lex))).
Proof.
  intros H. unfold kind_in, str_in in H. cbn [map existsb] in H.
  apply orb_false_iff in H as [H1 H].
  apply orb_false_iff in H as [H2 H].
  apply orb_false_iff in H as [H3 _].
  cbv beta iota delta [F_ bind lex_peek lex_next ret raise kind_is].
  rewrite H1, H2, H3. reflexivity.
Qed.

Lemma operator_cases op :
  kind_in ["+"; "-"; "*"; "/"]%string op = true ->
  kind_in ["+"; "-"]%string op = true \/
  kind_in ["*"; "/"]%string op = true.
Proof.
  intros H. apply kind_in_In in H. rewrite !kind_in_In.
  simpl in *. tauto.
Qed.

(** A product with an operator of products after it and no factor then. *)
Lemma T_dangling f d all n ts a op post :
  g_level ["*"; "/"]%string (g_factor (g_E d)) ts a ->
  skipn n all = ts ++ op :: post ->
  kind_in ["*"; "/"]%string op = true ->
  kind_in ["NUMBER"; "ID"; "("]%string (hd EOF_token post) = false ->
  length (ts ++ op :: post) <= f ->
  level f ["*"; "/"]%string (F_ (E f)) {| tokens := all; pos := n |}
  = Raise (SyntaxError (UnexpectedTokenInF (hd EOF_token post))).
Proof.
  intros Hx Hs Hop Hbad Hlen.
  apply (@level_dangling ["*"; "/"]%string (F_ (E f))
           (g_factor (g_E d)) follow_F f (@F_E_complete f d)
           (fun _ _ => eq_refl) f ts a all n op post _
           (Nat.le_refl f) Hx Hs Hop); [|assumption].
  assert (Hpk : peek {| tokens := all; pos := n + length ts + 1 |}
                = hd EOF_token post).
  { rewrite peek_skipn, (@skipn_past _ all n ts op post Hs). reflexivity. }
  rewrite <- Hpk. apply F_unexpected. rewrite Hpk. assumption.
Qed.

(** An expression with an operator after it and no factor then: what [E]
    does from the cursor [n]. *)
Lemma E_dangling f d all n ts a op post :
  g_E d ts a ->
  skipn n all = ts ++ op :: post ->
  kind_in ["+"; "-"; "*"; "/"]%string op = true ->
  kind_in ["NUMBER"; "ID"; "("]%string (hd EOF_token post) = false ->
  length (ts ++ op :: post) <= f ->
  E (S f) {| tokens := all; pos := n |}
  = Raise (SyntaxError (UnexpectedTokenInF (hd EOF_token post))).
Proof.
  intros Hx Hs Hop Hbad Hlen.
  destruct d as [|d]; [destruct Hx|]. cbn [g_E] in Hx.
  rewrite E_unfold.
  assert (Hfol : forall o, kind_in ["+"; "-"]%string o = true ->
                           follow_T o = false).
  { intros o Ho. unfold follow_T, follow_F. cbn [orb].
    apply sum_not_product; assumption. }
  destruct (operator_cases op Hop) as [Hsum|Hprod].
  - apply (@level_dangling ["+"; "-"]%string _ _ follow_T f
             (@T_complete f d) Hfol f ts a all n op post _
             (Nat.le_refl f) Hx Hs Hsum); [|assumption].
    unfold level. apply bind_Raise.
    assert (Hpk : peek {| tokens := all; pos := n + length ts + 1 |}
                  = hd EOF_token post).
    { rewrite peek_skipn, (@skipn_past _ all n ts op post Hs).
      reflexivity. }
    rewrite <- Hpk. apply F_unexpected. rewrite Hpk. assumption.
  - destruct (g_level_last Hx)
      as [Ht|(pre & a1 & op' & last & b & -> & Hpre & Hop' & Hlast)].
    + unfold level at 1. apply bind_Raise.
      apply (@T_dangling f d all n ts a op post Ht Hs Hprod Hbad Hlen).
    + rewrite <- app_assoc in Hs, Hlen. cbn [app] in Hs, Hlen.
      apply (@level_dangling ["+"; "-"]%string _ _ follow_T f
               (@T_complete f d) Hfol f pre a1 all n op'
               (last ++ op :: post) _ (Nat.le_refl f) Hpre Hs Hop');
        [|assumption].
      apply (@T_dangling f d all (n + length pre + 1) last b op post
               Hlast); try assumption.
      * apply (@skipn_past _ all n pre op' (last ++ op :: post) Hs).
      * rewrite length_app in Hlen. cbn [length] in Hlen. lia.
Qed.

Lemma parse_tokens_dangling d ts a op post :
  g_E d ts a ->
  kind_in ["+"; "-"; "*"; "/"]%string op = true ->
  kind_in ["NUMBER"; "ID"; "("]%string (hd EOF_token post) = false ->
  parse_tokens (ts ++ op :: post)
  = Raise (SyntaxError (UnexpectedTokenInF (hd EOF_token post))).
Proof.
  intros Hx Hop Hbad. unfold parse_tokens. cbn [tokens].
  rewrite (@E_dangling (length (ts ++ op :: post)) d (ts ++ op :: post) 0
             ts a op post Hx eq_refl Hop Hbad (Nat.le_refl _)).
  reflexivity.
Qed.

Lemma derives_unique ts a b : derives ts a -> derives ts b -> a = b.
Proof.
  intros Ha Hb. apply derives_parse_tokens in Ha, Hb. congruence.
Qed.

(** X11.  [parse_expression] is right by the grammar that the source states
    in its comment, with the operators of one level folded to the left,
    whenever it gives its verdict.  The tree that it returns is the tree of
    the tokens of the text as an expression of the grammar, which gives them
    no other tree; and where it raises a SyntaxError the tokens of the text
    are no expression of the grammar. *)
Theorem parse_expression_grammar (U : UnicodeTables) (text : str) :
  (forall a,
     parse_expression U text = Ok a ->
     derives (tokens (ExprLexer_init U text)) a /\
     forall b, derives (tokens (ExprLexer_init U text)) b -> b = a) /\
  (forall msg,
     parse_expression U text = Raise (SyntaxError msg) ->
     forall a, ~ derives (tokens (ExprLexer_init U text)) a).
Proof.
  rewrite parse_expression_tokens. split.
  - intros a H.
    apply parse_tokens_derives in H; [|apply ExprLexer_init_kinds].
    split; [assumption|]. intros b Hb. eapply derives_unique; eassumption.
  - intros msg H a Ha. apply derives_parse_tokens in Ha. congruence.
Qed.

Lemma parse_expression_grammar_witness :
  derives (tokens (ExprLexer_init latin1_only (str_of "(x)")))
    (Identifier (str_of "x")).
Proof.
  apply (proj1 (parse_expression_grammar latin1_only (str_of "(x)"))
           (Identifier (str_of "x"))).
  reflexivity.
Defined.

(** ** What every parsed text has *)

(** Induction on the expressions of the grammar, with its three levels
    taken as one: a number, an identifier, an expression in parentheses,
    and two expressions around an operator. *)
Section Derivations.

Variable P : list ExprToken -> AST -> Prop.

Hypothesis P_number :
  forall t, kind_is "NUMBER" t = true -> P [t] (Number (snd t)).
Hypothesis P_ident :
  forall t, kind_is "ID" t = true -> P [t] (Identifier (snd t)).
Hypothesis P_paren :
  forall l ts a r,
    kind_is "(" l = true -> P ts a -> kind_is ")" r = true ->
    P (l :: ts ++ [r]) a.
Hypothesis P_binop :
  forall op ts1 a1 ts2 a2,
    kind_in ["+"; "-"; "*"; "/"]%string op = true ->
    P ts1 a1 -> P ts2 a2 -> P (ts1 ++ op :: ts2) (BinOp (fst op) a1 a2).

Lemma rep_P ops (X : list ExprToken -> AST -> Prop) :
  (forall op, kind_in ops op = true ->
              kind_in ["+"; "-"; "*"; "/"]%string op = true) ->
  (forall ts a, X ts a -> P ts a) ->
  forall node rest a, g_rep ops X node rest a ->
  forall ts0, P ts0 node -> P (ts0 ++ rest) a.
Proof.
  intros Hops HX node rest a H.
  induction H as [node|node op ts b rest a Hop Hb _ IH]; intros ts0 H0.
  - rewrite app_nil_r. assumption.
  - replace (ts0 ++ op :: ts ++ rest) with ((ts0 ++ op :: ts) ++ rest)
      by (rewrite <- app_assoc; reflexivity).
    apply IH. apply P_binop; auto.
Qed.

Lemma level_P ops (X : list ExprToken -> AST -> Prop) :
  (forall op, kind_in ops op = true ->
              kind_in ["+"; "-"; "*"; "/"]%string op = true) ->
  (forall ts a, X ts a -> P ts a) ->
  forall ts a, g_level ops X ts a -> P ts a.
Proof.
  intros Hops HX ts a [ts0 a0 rest a' H0 Hr].
  eapply rep_P; eauto.
Qed.

Lemma g_E_P : forall d ts a, g_E d ts a -> P ts a.
Proof.
  induction d as [|d IH]; intros ts a H; [destruct H|].
  cbn [g_E] in H. revert ts a H. apply level_P.
  { intros op Hop. apply kind_in_In in Hop. apply kind_in_In.
    simpl in *. tauto. }
  apply level_P.
  { intros op Hop. apply kind_in_In in Hop. apply kind_in_In.
    simpl in *. tauto. }
  intros ts a [t Hk|t Hk|l ts' a' r Hl Hx Hr]; auto.
Qed.

Lemma derives_P ts a : derives ts a -> P ts a.
Proof. intros [d H]. eapply g_E_P; eassumption. Qed.

End Derivations.

Lemma filter_single_paren (t : ExprToken) :
  is_paren t = false -> filter (fun t => negb (is_paren t)) [t] = [t].
Proof. intros H. cbn [filter]. rewrite H. reflexivity. Qed.

Lemma is_paren_kind k t :
  kind_is k t = true -> is_paren t = is_paren (str_of k, @nil char).
Proof.
  intros H. apply kind_is_eq in H. unfold is_paren, kind_in. rewrite H.
  reflexivity.
Qed.

Lemma operator_not_paren op :
  kind_in ["+"; "-"; "*"; "/"]%string op = true -> is_paren op = false.
Proof.
  intros H. apply kind_in_In in H. unfold is_paren, kind_in.
  simpl in H. destruct H as [H|[H|[H|[H|[]]]]]; rewrite <- H; reflexivity.
Qed.

(** The tree keeps the tokens in their order, and leaves out the
    parentheses. *)
Lemma derives_inorder ts a :
  derives ts a ->
  Forall (fun t => kind_in ["+"; "-"; "*"; "/"]%string t = true ->
                   fst t = snd t) ts ->
  inorder a = map snd (filter (fun t => negb (is_paren t)) ts).
Proof.
  revert ts a.
  apply (@derives_P (fun ts a =>
           Forall (fun t => kind_in ["+"; "-"; "*"; "/"]%string t = true ->
                            fst t = snd t) ts ->
           inorder a = map snd (filter (fun t => negb (is_paren t)) ts))).
  - intros t Hk _. rewrite filter_single_paren; [reflexivity|].
    rewrite (@is_paren_kind "NUMBER" t Hk). reflexivity.
  - intros t Hk _. rewrite filter_single_paren; [reflexivity|].
    rewrite (@is_paren_kind "ID" t Hk). reflexivity.
  - intros l ts a r Hl IH Hr Hall.
    inversion Hall as [|? ? _ Hall']; subst.
    apply Forall_app in Hall' as [Hts _].
    cbn [filter]. rewrite filter_app. cbn [filter].
    rewrite (@is_paren_kind "(" l Hl), (@is_paren_kind ")" r Hr).
    cbn [negb]. change (is_paren (str_of "(", [])) with true.
    change (is_paren (str_of ")", [])) with true. cbn [negb].
    rewrite app_nil_r. apply IH; assumption.
  - intros op ts1 a1 ts2 a2 Hop IH1 IH2 Hall.
    apply Forall_app in Hall as [H1 H2].
    inversion H2 as [|? ? Hfs H2']; subst.
    cbn [inorder]. rewrite filter_app. cbn [filter].
    rewrite (operator_not_paren op Hop). cbn [negb].
    rewrite map_app. cbn [map].
    rewrite (IH1 H1), (IH2 H2'), (Hfs Hop). reflexivity.
Qed.

Lemma expr_token_operator U t :
  expr_token_shape U t ->
  kind_in ["+"; "-"; "*"; "/"]%string t = true -> fst t = snd t.
Proof.
  intros [[Hk _]|[[Hk _]|[(c & _ & ->)|(c & Hk & _)]]] Hop;
    try reflexivity;
    apply kind_in_In in Hop; rewrite Hk in Hop; simpl in Hop;
    repeat (destruct Hop as [Hop|Hop]; [discriminate Hop|]); destruct Hop.
Qed.

(** X12.  The tree that [parse_expression] returns keeps every number,
    identifier and operator of the text, in the order of the text: read
    from left to right, the leaves and operators of the tree are the texts
    of the tokens without the parentheses.  Nothing of the text is dropped
    or moved but the parentheses. *)
Theorem parse_expression_inorder (U : UnicodeTables) (text : str) (a : AST) :
  parse_expression U text = Ok a ->
  inorder a
  = map snd (filter (fun t => negb (is_paren t))
               (tokens (ExprLexer_init U text))).
Proof.
  intros H. rewrite parse_expression_tokens in H.
  apply parse_tokens_derives in H; [|apply ExprLexer_init_kinds].
  apply derives_inorder; [assumption|].
  eapply Forall_impl;
    [|apply (@lexer_fold_shape U);
      [apply finditer_TOKEN_RE_shape | constructor]].
  intros t Ht. eapply expr_token_operator; eassumption.
Qed.

Lemma parse_expression_inorder_witness :
  inorder (BinOp (str_of "*") (BinOp (str_of "+") (Identifier (str_of "a"))
                                 (Number (str_of "2")))
             (Identifier (str_of "c")))
  = map snd (filter (fun t => negb (is_paren t))
               (tokens (ExprLexer_init latin1_only (str_of "(a + 2)*c")))).
Proof.
  apply (@parse_expression_inorder latin1_only (str_of "(a + 2)*c")).
  vm_compute. reflexivity.
Defined.

Lemma paren_depth_app ts1 : forall d ts2,
  paren_depth d (ts1 ++ ts2)
  = match paren_depth d ts1 with
    | Some d' => paren_depth d' ts2
    | None => None
    end.
Proof.
  induction ts1 as [|t ts1 IH]; intros d ts2; cbn [app paren_depth];
    [reflexivity|].
  destruct (kind_is "(" t); [apply IH|].
  destruct (kind_is ")" t); [|apply IH].
  destruct d; [reflexivity | apply IH].
Qed.

Lemma paren_depth_other t d :
  kind_is "(" t = false -> kind_is ")" t = false ->
  paren_depth d [t] = Some d.
Proof. intros H1 H2. cbn [paren_depth]. rewrite H1, H2. reflexivity. Qed.

Lemma accepted_kind_of k t :
  kind_is k t = true -> accepted_kind t = accepted_kind (str_of k, @nil char).
Proof.
  intros H. apply kind_is_eq in H. unfold accepted_kind, kind_in.
  rewrite H. reflexivity.
Qed.

Lemma operator_kinds op :
  kind_in ["+"; "-"; "*"; "/"]%string op = true ->
  accepted_kind op = true /\
  kind_is "(" op = false /\ kind_is ")" op = false.
Proof.
  intros H. apply kind_in_In in H. unfold accepted_kind, kind_in, kind_is.
  simpl in H. destruct H as [H|[H|[H|[H|[]]]]]; rewrite <- H;
    repeat split; reflexivity.
Qed.

(** The tokens of an expression have the eight kinds of the grammar and
    their parentheses match. *)
Lemma derives_accepted ts a :
  derives ts a ->
  Forall (fun t => accepted_kind t = true) ts /\
  forall d, paren_depth d ts = Some d.
Proof.
  revert ts a.
  apply (@derives_P (fun ts a =>
           Forall (fun t => accepted_kind t = true) ts /\
           forall d, paren_depth d ts = Some d)).
  - intros t Hk. split.
    + repeat constructor. rewrite (@accepted_kind_of "NUMBER" t Hk).
      reflexivity.
    + intros d. apply paren_depth_other.
      * apply (@kind_is_excl "NUMBER" "(" t Hk eq_refl).
      * apply (@kind_is_excl "NUMBER" ")" t Hk eq_refl).
  - intros t Hk. split.
    + repeat constructor. rewrite (@accepted_kind_of "ID" t Hk).
      reflexivity.
    + intros d. apply paren_depth_other.
      * apply (@kind_is_excl "ID" "(" t Hk eq_refl).
      * apply (@kind_is_excl "ID" ")" t Hk eq_refl).
  - intros l ts a r Hl [IHk IHd] Hr. split.
    + constructor.
      * rewrite (@accepted_kind_of "(" l Hl). reflexivity.
      * apply Forall_app; split; [assumption|].
        repeat constructor. rewrite (@accepted_kind_of ")" r Hr).
        reflexivity.
    + intros d. cbn [paren_depth]. rewrite Hl.
      rewrite paren_depth_app, IHd. cbn [paren_depth].
      rewrite (@kind_is_excl ")" "(" r Hr eq_refl), Hr. reflexivity.
  - intros op ts1 a1 ts2 a2 Hop [IHk1 IHd1] [IHk2 IHd2].
    destruct (operator_kinds op Hop) as (Ha & Hl & Hr). split.
    + apply Forall_app; split; [assumption|].
      constructor; assumption.
    + intros d. rewrite paren_depth_app, IHd1. cbn [paren_depth].
      rewrite Hl, Hr. apply IHd2.
Qed.

(** X13.  A text that [parse_expression] returns a tree for has only
    tokens of the kinds NUMBER, ID, [+], [-], [*], [/] and the two
    parentheses, so none of kind ERROR, and its parentheses match: read
    from left to right none closes that was not open, and none is open at
    the end. *)
Theorem parse_expression_accepts (U : UnicodeTables) (text : str)
    (a : AST) :
  parse_expression U text = Ok a ->
  Forall (fun t => accepted_kind t = true)
    (tokens (ExprLexer_init U text)) /\
  Forall (fun t => kind_is "ERROR" t = false)
    (tokens (ExprLexer_init U text)) /\
  paren_depth 0 (tokens (ExprLexer_init U text)) = Some 0.
Proof.
  intros H. rewrite parse_expression_tokens in H.
  apply parse_tokens_derives in H; [|apply ExprLexer_init_kinds].
  apply derives_accepted in H as [Hk Hd].
  split; [assumption|]. split; [|apply Hd].
  eapply Forall_impl; [|exact Hk].
  intros t Ht. apply kind_in_In in Ht. unfold kind_is.
  simpl in Ht.
  repeat (destruct Ht as [Ht|Ht]; [rewrite <- Ht; reflexivity|]).
  destruct Ht.
Qed.

Lemma parse_expression_accepts_witness :
  paren_depth 0 (tokens (ExprLexer_init latin1_only (str_of "((x))")))
  = Some 0.
Proof.
  apply (@parse_expression_accepts latin1_only (str_of "((x))")
           (Identifier (str_of "x"))).
  vm_compute. reflexivity.
Defined.

(** ** Whitespace around an expression *)

Lemma blank_facts U c :
  blank c = true ->
  re_space U c = true /\ re_dot c = true /\ re_digit U c = false /\
  id_part c = false /\ id_start c = false.
Proof.
  unfold blank. intros H. apply andb_true_iff in H as [Hs Hd].
  repeat split; try assumption; char_solve.
Qed.

Lemma lexer_step_app acc m : lexer_step acc m = acc ++ lexer_step [] m.
Proof.
  unfold lexer_step. destruct (m_groups m) as [num|ident|other].
  - destruct (truthy num); [|rewrite app_nil_r; reflexivity].
    destruct (substr_in (str_of ".") num); reflexivity.
  - destruct (truthy ident); [reflexivity | rewrite app_nil_r; reflexivity].
  - destruct (substr_in other (str_of "+-*/()")); [reflexivity|].
    destruct (str_eqb other []); [rewrite app_nil_r|]; reflexivity.
Qed.

Lemma lexer_fold_acc ms : forall acc,
  fold_left lexer_step ms acc = acc ++ fold_left lexer_step ms [].
Proof.
  induction ms as [|m ms IH]; intros acc; cbn [fold_left].
  - rewrite app_nil_r; reflexivity.
  - rewrite IH, (IH (lexer_step [] m)), (lexer_step_app acc m), app_assoc.
    reflexivity.
Qed.

(** The tokens do not depend on where the matches stand. *)
Lemma lexer_fold_pos U pos s :
  fold_left lexer_step (finditer (TOKEN_RE U) pos 0 s) []
  = fold_left lexer_step (finditer (TOKEN_RE U) 0 0 s) [].
Proof.
  rewrite <- (Nat.add_0_r pos), finditer_shift.
  generalize (@nil ExprToken).
  induction (finditer (TOKEN_RE U) 0 0 s) as [|m ms IH]; intros acc;
    cbn [map fold_left]; [reflexivity|].
  rewrite IH. reflexivity.
Qed.

(** The tokens of a text, one match at a time. *)
Lemma ExprLexer_tokens_match U s n g :
  TOKEN_RE U s = Some (n, g) ->
  tokens (ExprLexer_init U s)
  = lexer_step [] {| m_start := 0; m_group := firstn n s; m_groups := g |}
    ++ tokens (ExprLexer_init U (skipn n s)).
Proof.
  intros H. destruct s as [|c rest].
  { rewrite (re_nil (TOKEN_RE_ok U)) in H. discriminate. }
  unfold ExprLexer_init; cbn [tokens].
  rewrite (finditer_cons (TOKEN_RE_ok U)), H. cbn [fold_left].
  rewrite lexer_fold_acc, lexer_fold_pos. reflexivity.
Qed.

Lemma ExprLexer_tokens_skip U c rest :
  TOKEN_RE U (c :: rest) = None ->
  tokens (ExprLexer_init U (c :: rest)) = tokens (ExprLexer_init U rest).
Proof.
  intros H. unfold ExprLexer_init; cbn [tokens].
  rewrite (finditer_cons (TOKEN_RE_ok U)), H. apply lexer_fold_pos.
Qed.

Lemma TOKEN_RE_lead U c s n g :
  re_space U c = true -> TOKEN_RE U s = Some (n, g) ->
  TOKEN_RE U (c :: s) = Some (S n, g).
Proof.
  intros Hc H. unfold TOKEN_RE in *. cbn [m_star]. rewrite Hc, H.
  reflexivity.
Qed.

Lemma TOKEN_RE_None U s :
  TOKEN_RE U s = None -> Forall (fun c => c = chr "010") s.
Proof.
  induction s as [|x rest IH]; intros H; [constructor|].
  destruct (re_dot x) eqn:Ex; [destruct (@TOKEN_RE_some U x rest Ex H)|].
  unfold re_dot in Ex. apply negb_false_iff, char_eqb_eq in Ex. subst x.
  constructor; [reflexivity|]. apply IH.
  unfold TOKEN_RE in *. cbn [m_star] in H.
  change (re_space U (chr "010")) with true in H. cbv iota in H.
  destruct (m_star (re_space U) _ rest) as [[n g]|];
    [discriminate H | reflexivity].
Qed.

Lemma tokens_lead U c text :
  re_space U c = true -> ~ Forall (fun c => c = chr "010") text ->
  tokens (ExprLexer_init U (c :: text)) = tokens (ExprLexer_init U text).
Proof.
  intros Hc Hn. destruct (TOKEN_RE U text) as [[n g]|] eqn:E.
  - rewrite (@ExprLexer_tokens_match U (c :: text) (S n) g
               (@TOKEN_RE_lead U c text n g Hc E)),
      (@ExprLexer_tokens_match U text n g E).
    reflexivity.
  - destruct Hn. apply (TOKEN_RE_None U); assumption.
Qed.

(** X14.  Whitespace before an expression is ignored: in front of a text
    that is not made of newlines only, characters of the class [\s] change
    neither the tokens of the lexer nor what [parse_expression] returns or
    raises. *)
Theorem leading_whitespace_ignored (U : UnicodeTables) (ws text : str) :
  Forall (fun c => re_space U c = true) ws ->
  ~ Forall (fun c => c = chr "010") text ->
  tokens (ExprLexer_init U (ws ++ text)) = tokens (ExprLexer_init U text) /\
  parse_expression U (ws ++ text) = parse_expression U text.
Proof.
  intros Hws Hn.
  assert (H : tokens (ExprLexer_init U (ws ++ text))
              = tokens (ExprLexer_init U text)).
  { induction Hws as [|c ws Hc _ IH]; [reflexivity|].
    cbn [app]. rewrite tokens_lead; [exact IH | exact Hc |].
    intros Hall. apply Forall_app in Hall as [_ Hall]. auto. }
  split; [assumption|].
  rewrite !parse_expression_tokens, H. reflexivity.
Qed.

Lemma leading_whitespace_ignored_witness :
  parse_expression latin1_only (str_of "  " ++ [chr "010"] ++ str_of "x")
  = parse_expression latin1_only (str_of "x").
Proof.
  apply (@leading_whitespace_ignored latin1_only
           (str_of "  " ++ [chr "010"]) (str_of "x")).
  - repeat constructor.
  - intros H. inversion H as [|? ? Hx _]. discriminate Hx.
Defined.

(** *** After the expression *)

Lemma capture_text (a b c : matcher unit) s n g :
  m_alt (m_capture a GNum)
    (m_alt (m_capture b GIdent) (m_capture c GOther)) s = Some (n, g) ->
  match g with
  | GNum v | GIdent v | GOther v => v = firstn n s
  end.
Proof.
  unfold m_alt, m_capture.
  destruct (a s) as [[k []]|].
  { intros H; inversion H; reflexivity. }
  destruct (b s) as [[k []]|].
  { intros H; inversion H; reflexivity. }
  destruct (c s) as [[k []]|]; [|discriminate].
  intros H; inversion H; reflexivity.
Qed.

(** A match that ends with a blank is an ERROR token of this blank. *)
Lemma TOKEN_RE_whole U pre c g :
  blank c = true ->
  TOKEN_RE U (pre ++ [c]) = Some (S (length pre), g) -> g = GOther [c].
Proof.
  intros Hb H.
  destruct (blank_facts U c Hb) as (_ & _ & Hd & Hp & Hi).
  pose proof (@TOKEN_RE_shape U _ _ _ H) as Hg.
  unfold TOKEN_RE in H.
  apply m_star_split in H as (j & m & Hn & Hj & _ & H).
  apply capture_text in H.
  assert (Hv : exists v, v <> [] /\ v = skipn j (pre ++ [c]) /\
                 match g with GNum x | GIdent x | GOther x => x = v end).
  { assert (Hall : firstn m (skipn j (pre ++ [c])) = skipn j (pre ++ [c])).
    { apply firstn_all2. rewrite length_skipn, length_app. simpl. lia. }
    rewrite Hall in H. exists (skipn j (pre ++ [c])).
    split; [|split; [reflexivity | assumption]].
    destruct g as [x|x|x]; cbn [groups_shape] in Hg; rewrite <- H.
    - destruct Hg as [[Hne _]|(a & b & -> & _)]; [assumption|].
      destruct a; discriminate.
    - destruct x; [discriminate Hg | discriminate].
    - destruct Hg as (y & -> & _). discriminate. }
  destruct Hv as (v & Hne & Hv & Hgv). clear H.
  assert (Hw : exists w, v = w ++ [c]).
  { destruct (Nat.le_gt_cases j (length pre)) as [Hle|Hgt].
    - exists (skipn j pre). rewrite Hv, skipn_app.
      replace (j - length pre) with 0 by lia. reflexivity.
    - rewrite skipn_all2 in Hv by (rewrite length_app; simpl; lia).
      contradiction. }
  destruct Hw as (w & ->).
  destruct g as [x|x|x]; cbn [groups_shape] in Hg; subst x.
  - exfalso. destruct Hg as [[_ Hall]|(a & b & Hab & _ & [Hbne Hball])].
    + apply Forall_app in Hall as [_ Hall].
      inversion Hall; subst. congruence.
    + destruct (exists_last Hbne) as (b' & x & ->).
      replace (a ++ chr "." :: b' ++ [x]) with ((a ++ chr "." :: b') ++ [x])
        in Hab by (rewrite <- app_assoc; reflexivity).
      apply app_inj_tail in Hab as [_ ->].
      apply Forall_app in Hball as [_ Hball].
      inversion Hball; subst. congruence.
  - exfalso. destruct w as [|x w]; cbn [app fullmatch_ident] in Hg.
    + rewrite Hi in Hg. discriminate.
    + apply andb_true_iff in Hg as [_ Hg].
      rewrite forallb_app in Hg. cbn [forallb] in Hg.
      rewrite Hp in Hg. rewrite andb_false_r in Hg. discriminate.
  - destruct Hg as (y & Hy & _).
    destruct w as [|x w]; cbn [app] in Hy.
    + reflexivity.
    + inversion Hy as [[Hx Hnil]]. destruct w; discriminate.
Qed.

Lemma blank_not_operator c :
  blank c = true -> existsb (char_eqb c) (str_of "+-*/()") = false.
Proof.
  unfold blank. intros H. apply andb_true_iff in H as [Hs Hd]. char_solve.
Qed.

Lemma lexer_step_blank c (m : Match Groups) :
  blank c = true -> m_groups m = GOther [c] ->
  lexer_step [] m = [(str_of "ERROR", [c])].
Proof.
  intros Hb Hg. unfold lexer_step.
  rewrite Hg, substr_in_single, (blank_not_operator c Hb). reflexivity.
Qed.

(** The last token of a text that ends with a blank. *)
Lemma tokens_trailing_blank U c :
  blank c = true ->
  forall pre, exists ts,
    tokens (ExprLexer_init U (pre ++ [c])) = ts ++ [(str_of "ERROR", [c])].
Proof.
  intros Hb pre. remember (length pre) as len eqn:Hlen. revert pre Hlen.
  induction len as [len IH] using lt_wf_ind; intros pre Hlen.
  destruct (TOKEN_RE U (pre ++ [c])) as [[n g]|] eqn:E.
  - pose proof (TOKEN_RE_ok U _ E) as [Hpos Hbound].
    rewrite length_app in Hbound. cbn [length] in Hbound.
    rewrite (@ExprLexer_tokens_match U _ n g E).
    destruct (Nat.eq_dec n (S (length pre))) as [->|Hlt].
    + apply TOKEN_RE_whole in E; [|assumption].
      rewrite skipn_all2 by (rewrite length_app; simpl; lia).
      exists []. subst g. rewrite (@lexer_step_blank c) by (assumption || reflexivity).
      reflexivity.
    + rewrite skipn_app. replace (n - length pre) with 0 by lia.
      cbn [skipn].
      destruct (IH (length (skipn n pre))
                  ltac:(rewrite length_skipn; lia) (skipn n pre) eq_refl)
        as (ts & ->).
      eexists. rewrite app_assoc. reflexivity.
  - destruct pre as [|x pre]; cbn [app] in *.
    + destruct (blank_facts U c Hb) as (_ & Hd & _).
      destruct (@TOKEN_RE_some U c [] Hd E).
    + rewrite (@ExprLexer_tokens_skip U x (pre ++ [c]) E).
      apply (IH (length pre)); [subst len; simpl; lia | reflexivity].
Qed.

(** X15.  Whitespace after an expression is not ignored: the lexer of the
    parser makes an ERROR token of a space, a tab or any other whitespace
    character of Latin-1 but the newline that ends the text.  So the tokens
    of a text that ends with such a character are no expression of the
    grammar, and [parse_expression] returns no tree for it, whatever stands
    before the character. *)
Theorem trailing_blank_rejected (U : UnicodeTables) (text : str) (c : char) :
  blank c = true ->
  (exists ts,
     tokens (ExprLexer_init U (text ++ [c]))
     = ts ++ [(str_of "ERROR", [c])]) /\
  (forall a, ~ derives (tokens (ExprLexer_init U (text ++ [c]))) a) /\
  (forall a, parse_expression U (text ++ [c]) <> Ok a).
Proof.
  intros Hb. destruct (@tokens_trailing_blank U c Hb text) as (ts & Hts).
  assert (Hno : forall a,
            ~ derives (tokens (ExprLexer_init U (text ++ [c]))) a).
  { intros a Ha. apply derives_accepted in Ha as [Hk _]. rewrite Hts in Hk.
    apply Forall_app in Hk as [_ Hk]. inversion Hk as [|? ? Hx _].
    discriminate Hx. }
  split; [exists ts; assumption|]. split; [assumption|].
  intros a E. rewrite parse_expression_tokens in E.
  apply parse_tokens_derives in E; [|apply ExprLexer_init_kinds].
  apply (Hno a E).
Qed.

Lemma trailing_blank_rejected_witness :
  exists ts,
    tokens (ExprLexer_init latin1_only (str_of "a+1" ++ [chr " "]))
    = ts ++ [(str_of "ERROR", [chr " "])].
Proof.
  apply (@trailing_blank_rejected latin1_only (str_of "a+1") (chr " ")).
  reflexivity.
Defined.

(** ** A parenthesis that is not closed *)

Lemma no_continuation t :
  kind_in ["+"; "-"; "*"; "/"; ")"]%string t = false ->
  follow_E t = false /\ kind_is ")" t = false.
Proof.
  unfold follow_E, follow_T, follow_F, kind_in, kind_is, str_in.
  cbn [map existsb orb]. intros H.
  repeat (apply orb_false_iff in H as [? H]).
  repeat match goal with E : _ = false |- _ => rewrite E; clear E end.
  split; reflexivity.
Qed.

Lemma F_missing_close f d all n l ts a post :
  skipn n all = l :: ts ++ post ->
  kind_is "(" l = true -> g_E d ts a ->
  kind_in ["+"; "-"; "*"; "/"; ")"]%string (hd EOF_token post) = false ->
  length (ts ++ post) <= f ->
  F_ (E (S f)) {| tokens := all; pos := n |}
  = Raise (SyntaxError CloseParenExpected).
Proof.
  intros Hs Hl Hd Hpost Hlen.
  apply no_continuation in Hpost as [Hfol Hclose].
  assert (Hp : peek {| tokens := all; pos := n |} = l)
    by (rewrite peek_skipn, Hs; reflexivity).
  assert (Hs1 : skipn (n + 1) all = ts ++ post)
    by (apply (@skipn_after _ all n [l] (ts ++ post) Hs)).
  assert (Hs2 : skipn (n + 1 + length ts) all = post)
    by (apply (@skipn_after _ all (n + 1) ts post Hs1)).
  unfold F_, bind, lex_peek, lex_next, ret, raise, next.
  cbn [tokens pos]. rewrite Hp.
  rewrite (@kind_is_excl "(" "NUMBER" l Hl eq_refl),
    (@kind_is_excl "(" "ID" l Hl eq_refl), Hl.
  cbn [tokens pos].
  rewrite (@E_complete f d all (n + 1) ts post a Hd Hs1 Hfol Hlen).
  rewrite peek_skipn, Hs2, Hclose. reflexivity.
Qed.

Lemma parse_tokens_missing_close l ts a post :
  kind_is "(" l = true -> derives ts a ->
  kind_in ["+"; "-"; "*"; "/"; ")"]%string (hd EOF_token post) = false ->
  parse_tokens (l :: ts ++ post) = Raise (SyntaxError CloseParenExpected).
Proof.
  intros Hl [d Hd] Hpost. unfold parse_tokens. cbn [tokens length].
  rewrite E_unfold. unfold level at 1. unfold bind at 1.
  unfold level at 1. unfold bind at 1.
  rewrite (@F_missing_close (length (ts ++ post)) d (l :: ts ++ post) 0
             l ts a post eq_refl Hl Hd Hpost (Nat.le_refl _)).
  reflexivity.
Qed.

Lemma tokens_open_paren U text :
  tokens (ExprLexer_init U (chr "(" :: text))
  = (str_of "(", str_of "(") :: tokens (ExprLexer_init U text).
Proof.
  rewrite (@ExprLexer_tokens_match U (chr "(" :: text) 1
             (GOther (str_of "(")) eq_refl).
  reflexivity.
Qed.

(** *** Expressions without parentheses *)

Lemma g_rep_restrict ops (X Y : list ExprToken -> AST -> Prop)
    (Q : ExprToken -> Prop) :
  (forall ts a, Forall Q ts -> X ts a -> Y ts a) ->
  forall node rest a,
    g_rep ops X node rest a -> Forall Q rest -> g_rep ops Y node rest a.
Proof.
  intros HXY node rest a H.
  induction H as [node|node op ts b rest a Hop Hx _ IH]; intros HQ;
    [constructor|].
  inversion HQ as [|? ? _ HQ']; subst.
  apply Forall_app in HQ' as [H1 H2].
  eapply g_rep_cons; [assumption | apply HXY; eassumption | auto].
Qed.

Lemma g_level_restrict ops (X Y : list ExprToken -> AST -> Prop)
    (Q : ExprToken -> Prop) :
  (forall ts a, Forall Q ts -> X ts a -> Y ts a) ->
  forall ts a, Forall Q ts -> g_level ops X ts a -> g_level ops Y ts a.
Proof.
  intros HXY ts a HQ H. revert HQ.
  destruct H as [ts0 a0 rest a' H0 Hrep]. intros HQ.
  apply Forall_app in HQ as [H1 H2].
  apply g_level_intro with (a0 := a0); [apply HXY; assumption|].
  eapply g_rep_restrict; eassumption.
Qed.

Lemma derives_flat ts a :
  derives ts a -> Forall (fun t => is_paren t = false) ts -> flat_expr ts a.
Proof.
  intros [d Hd] HQ. destruct d as [|d]; [destruct Hd|].
  unfold flat_expr. cbn [g_E] in *.
  apply (@g_level_restrict _
           (g_level ["*"; "/"]%string (g_factor (g_E d))) _
           (fun t => is_paren t = false)); [|assumption|assumption].
  apply g_level_restrict.
  intros ts0 a0 HQ0 Hf. revert HQ0.
  destruct Hf as [t Hk|t Hk|l ts' a' r Hl Hx Hr]; intros HQ0.
  - apply g_number; assumption.
  - apply g_ident; assumption.
  - inversion HQ0 as [|? ? Hp _]; subst.
    rewrite (@is_paren_kind "(" l Hl) in Hp. discriminate Hp.
Qed.

(** A text without parentheses that is parsed. *)
Lemma parse_expression_flat U text a :
  parse_expression U text = Ok a ->
  forallb (fun t => negb (is_paren t)) (tokens (ExprLexer_init U text))
  = true ->
  flat_expr (tokens (ExprLexer_init U text)) a.
Proof.
  intros Hp Hf. rewrite parse_expression_tokens in Hp.
  apply parse_tokens_derives in Hp; [|apply ExprLexer_init_kinds].
  apply derives_flat; [assumption|].
  rewrite forallb_forall in Hf. apply Forall_forall. intros t Ht.
  apply Hf in Ht. apply negb_true_iff in Ht. assumption.
Qed.

(** X16.  A parenthesis that is open where [parse_expression] needs it
    closed raises the SyntaxError of the closing parenthesis expected.
    After an opening parenthesis and an expression without parentheses this
    error is raised when what follows is the end or a token other than [+],
    [-], [*], [/] and the closing parenthesis; so an opening parenthesis in
    front of a text that is such an expression gives a text that raises
    it.  In front of any text that [parse_expression] returns a tree for,
    an opening parenthesis gives a text that it returns no tree for, and
    the SyntaxError that it raises for it is this one. *)
Theorem missing_close_paren (U : UnicodeTables) :
  (forall l ts a post,
     kind_is "(" l = true -> flat_expr ts a ->
     kind_in ["+"; "-"; "*"; "/"; ")"]%string (hd EOF_token post) = false ->
     parse_tokens (l :: ts ++ post)
     = Raise (SyntaxError CloseParenExpected)) /\
  (forall text a,
     flat_expr (tokens (ExprLexer_init U text)) a ->
     parse_expression U (chr "(" :: text)
     = Raise (SyntaxError CloseParenExpected)) /\
  (forall text a,
     parse_expression U text = Ok a ->
     (forall b, parse_expression U (chr "(" :: text) <> Ok b) /\
     (forall msg,
        parse_expression U (chr "(" :: text) = Raise (SyntaxError msg) ->
        msg = CloseParenExpected)).
Proof.
  assert (H : forall text a,
            derives (tokens (ExprLexer_init U text)) a ->
            parse_expression U (chr "(" :: text)
            = Raise (SyntaxError CloseParenExpected)).
  { intros text a Hd. rewrite parse_expression_tokens, tokens_open_paren.
    rewrite <- (app_nil_r (tokens (ExprLexer_init U text))).
    eapply parse_tokens_missing_close; [reflexivity | eassumption |].
    reflexivity. }
  split; [|split].
  - intros l ts a post Hl Hd Hpost.
    eapply parse_tokens_missing_close; [assumption | exists 1; exact Hd |].
    assumption.
  - intros text a Hd. apply (H text a). exists 1. exact Hd.
  - intros text a Hp. rewrite parse_expression_tokens in Hp.
    apply parse_tokens_derives in Hp; [|apply ExprLexer_init_kinds].
    rewrite (H text a Hp). split.
    + intros b Hb. discriminate Hb.
    + intros msg Hm. inversion Hm. reflexivity.
Qed.

Lemma missing_close_paren_witness :
  parse_expression latin1_only (chr "(" :: str_of "a*b+1")
  = Raise (SyntaxError CloseParenExpected).
Proof.
  apply (proj1 (proj2 (missing_close_paren latin1_only)) (str_of "a*b+1")
           (BinOp (str_of "+")
              (BinOp (str_of "*") (Identifier (str_of "a"))
                 (Identifier (str_of "b")))
              (Number (str_of "1")))).
  apply (@parse_expression_flat latin1_only (str_of "a*b+1"));
    vm_compute; reflexivity.
Defined.

(** ** Where the parser stops *)

Lemma while_stops cond body (Q : ExprLexer -> Prop) :
  (forall node lex node' lex', body node lex = Ok (node', lex') -> Q lex') ->
  forall fuel node lex a lex',
    Q lex -> while_ fuel cond body node lex = Ok (a, lex') ->
    Q lex' /\ cond (peek lex') = false.
Proof.
  intros Hbody fuel; induction fuel as [|fuel IH]; intros node lex a lex' Hq H;
    cbn [while_] in H; destruct (cond (peek lex)) eqn:Ec;
    try discriminate; try (inversion H; subst; split; assumption).
  destruct (body node lex) as [[node1 lex1]| |] eqn:Eb; try discriminate.
  apply IH in H; [assumption|]. eapply Hbody; eassumption.
Qed.

Lemma level_stops fuel ops operand (Q : ExprLexer -> Prop) :
  (forall lex a lex', operand lex = Ok (a, lex') -> Q lex') ->
  forall lex a lex',
    level fuel ops operand lex = Ok (a, lex') ->
    Q lex' /\ kind_in ops (peek lex') = false.
Proof.
  intros Ho lex a lex' H. unfold level in H.
  apply bind_Ok in H as (node & lex1 & H1 & H2).
  apply (@while_stops _ _ Q) in H2; [assumption| |eapply Ho; eassumption].
  intros node0 lex0 node' lex0' Hb.
  cbv beta iota zeta delta [bind lex_next ret] in Hb.
  destruct (next lex0) as [t lex2].
  destruct (operand lex2) as [[right lex3]| |] eqn:Eo; try discriminate.
  inversion Hb; subst. eapply Ho; eassumption.
Qed.

(** [E] stops in front of a token that is no operator. *)
Lemma E_stops fuel lex a lex' :
  E fuel lex = Ok (a, lex') -> follow_E (peek lex') = false.
Proof.
  destruct fuel as [|f]; [discriminate|]. rewrite E_unfold. intros H.
  apply (@level_stops _ _ _
           (fun l => kind_in ["*"; "/"]%string (peek l) = false)) in H.
  - destruct H as [H1 H2]. unfold follow_E, follow_T, follow_F.
    rewrite H1, H2. reflexivity.
  - intros lex0 a0 lex0' H0.
    apply (@level_stops _ _ _ (fun _ => True)) in H0; [apply H0 | auto].
Qed.

(** *** The exceptions of [E] *)

Lemma while_raises (P : Exn -> Prop) cond body :
  (forall node lex e, body node lex = Raise e -> P e) ->
  forall fuel node lex e,
    while_ fuel cond body node lex = Raise e -> P e.
Proof.
  intros Hbody fuel; induction fuel as [|fuel IH]; intros node lex e H;
    cbn [while_] in H; destruct (cond (peek lex)); try discriminate.
  destruct (body node lex) as [[node1 lex1]| |] eqn:Eb; try discriminate.
  - eapply IH; eassumption.
  - inversion H; subst. eapply Hbody; eassumption.
Qed.

Lemma level_raises (P : Exn -> Prop) fuel ops operand :
  (forall lex e, operand lex = Raise e -> P e) ->
  forall lex e, level fuel ops operand lex = Raise e -> P e.
Proof.
  intros Ho lex e H. unfold level, bind at 1 in H.
  destruct (operand lex) as [[node lex1]| |] eqn:E1; try discriminate.
  - revert H. apply while_raises.
    intros node0 lex0 e0 Hb.
    cbv beta iota zeta delta [bind lex_next ret] in Hb.
    destruct (next lex0) as [t lex2].
    destruct (operand lex2) as [[right lex3]| |] eqn:Eo; try discriminate.
    inversion Hb; subst. eapply Ho; eassumption.
  - inversion H; subst. eapply Ho; eassumption.
Qed.

Lemma F_raises (P : Exn -> Prop) Erec :
  P (SyntaxError CloseParenExpected) ->
  (forall t, P (SyntaxError (UnexpectedTokenInF t))) ->
  (forall lex e, Erec lex = Raise e -> P e) ->
  forall lex e, F_ Erec lex = Raise e -> P e.
Proof.
  intros Hc Hu HE lex e H.
  cbv beta iota delta [F_ bind lex_peek lex_next ret raise] in H.
  destruct (kind_is "NUMBER" (peek lex)); [discriminate|].
  destruct (kind_is "ID" (peek lex)); [discriminate|].
  destruct (kind_is "(" (peek lex)); [|inversion H; apply Hu].
  destruct (next lex) as [t lex1].
  destruct (Erec lex1) as [[node lex2]| |] eqn:Ee; try discriminate.
  - destruct (kind_is ")" (peek lex2)); cbn [negb] in H; [discriminate|].
    inversion H; apply Hc.
  - inversion H; subst. eapply HE; eassumption.
Qed.

(** [E] raises the errors of [F] only. *)
Lemma E_raises fuel : forall lex e,
  E fuel lex = Raise e -> e <> SyntaxError ExtraInput.
Proof.
  induction fuel as [|f IH]; intros lex e; [discriminate|].
  rewrite E_unfold.
  apply (@level_raises (fun e => e <> SyntaxError ExtraInput)).
  apply (@level_raises (fun e => e <> SyntaxError ExtraInput)).
  apply (@F_raises (fun e => e <> SyntaxError ExtraInput));
    [discriminate | discriminate | exact IH].
Qed.

Lemma no_operator_no_EOF t :
  kind_in ["+"; "-"; "*"; "/"; "EOF"]%string t = false <->
  follow_E t = false /\ kind_is "EOF" t = false.
Proof.
  unfold follow_E, follow_T, follow_F, kind_in, kind_is, str_in.
  cbn [map existsb orb].
  destruct (str_eqb (fst t) (str_of "+")), (str_eqb (fst t) (str_of "-")),
    (str_eqb (fst t) (str_of "*")), (str_eqb (fst t) (str_of "/")),
    (str_eqb (fst t) (str_of "EOF")); cbn [orb]; intuition congruence.
Qed.

Lemma parse_tokens_extra all :
  parse_tokens all = Raise (SyntaxError ExtraInput) <->
  exists ts a t post,
    all = ts ++ t :: post /\ derives ts a /\
    kind_in ["+"; "-"; "*"; "/"; "EOF"]%string t = false.
Proof.
  split.
  - unfold parse_tokens. cbn [tokens]. intros H.
    destruct (E (S (length all)) {| tokens := all; pos := 0 |})
      as [[a lex']|e|] eqn:HE; try discriminate.
    + destruct (kind_is "EOF" (peek lex')) eqn:Hp; cbn [negb] in H;
        [discriminate|].
      pose proof (@E_stops _ _ _ _ HE) as Hstop.
      apply E_sound in HE as (ts & (Ht & Hpos & Hs) & Hd).
      cbn [tokens pos] in *. rewrite skipn_O in Hs.
      assert (Hpk : peek lex' = hd EOF_token (skipn (pos lex') all)).
      { destruct lex' as [tk p]. cbn [tokens pos] in *. subst tk.
        apply peek_skipn. }
      destruct (skipn (pos lex') all) as [|t post] eqn:Esk.
      { rewrite Hpk in Hp. discriminate Hp. }
      cbn [hd] in Hpk. rewrite Hpk in *.
      exists ts, a, t, post. split; [assumption|].
      split; [eexists; eassumption|].
      apply no_operator_no_EOF. split; assumption.
    + inversion H; subst e. destruct (@E_raises _ _ _ HE eq_refl).
  - intros (ts & a & t & post & -> & [d Hd] & Hk).
    apply no_operator_no_EOF in Hk as [Hfol Heof].
    unfold parse_tokens. cbn [tokens].
    rewrite (@E_complete (length (ts ++ t :: post)) d (ts ++ t :: post) 0
               ts (t :: post) a Hd eq_refl Hfol (Nat.le_refl _)).
    rewrite peek_skipn.
    rewrite (@skipn_after _ (ts ++ t :: post) 0 ts (t :: post) eq_refl).
    cbn [hd]. rewrite Heof. reflexivity.
Qed.

Lemma four_operators t :
  kind_is "EOF" t = false ->
  kind_in ["+"; "-"; "*"; "/"; "EOF"]%string t
  = kind_in ["+"; "-"; "*"; "/"]%string t.
Proof.
  unfold kind_is, kind_in, str_in. cbn [map existsb]. intros ->.
  rewrite !orb_false_r. reflexivity.
Qed.

Lemma five_kinds t :
  kind_in ["+"; "-"; "*"; "/"; "EOF"]%string t = false ->
  kind_in ["+"; "-"; "*"; "/"]%string t = false.
Proof.
  unfold kind_in, str_in. cbn [map existsb]. intros H.
  repeat (apply orb_false_iff in H as [? H]).
  repeat match goal with E : _ = false |- _ => rewrite E; clear E end.
  reflexivity.
Qed.

Lemma parse_expression_extra U text :
  parse_expression U text = Raise (SyntaxError ExtraInput) <->
  exists ts a t post,
    tokens (ExprLexer_init U text) = ts ++ t :: post /\ derives ts a /\
    kind_in ["+"; "-"; "*"; "/"]%string t = false.
Proof.
  rewrite parse_expression_tokens, parse_tokens_extra. split.
  - intros (ts & a & t & post & Hall & Hd & Hk).
    exists ts, a, t, post. split; [assumption|]. split; [assumption|].
    apply five_kinds; assumption.
  - intros (ts & a & t & post & Hall & Hd & Hk).
    exists ts, a, t, post. split; [assumption|]. split; [assumption|].
    assert (Heof : kind_is "EOF" t = false).
    { pose proof (ExprLexer_init_kinds U text) as Hks.
      rewrite Hall in Hks. apply Forall_app in Hks as [_ Hks].
      inversion Hks; assumption. }
    rewrite (four_operators t Heof). assumption.
Qed.

(** X17.  The SyntaxError of extra input is the error of a whole
    expression that something follows.  Where [parse_expression] raises it,
    the tokens of the text begin with an expression of the grammar and go on
    with a token that is none of [+], [-], [*], [/].  For the texts whose
    tokens do so, [parse_expression] returns no tree, and the SyntaxError
    that it raises is this one; it does raise it where the expression has no
    parentheses.  [E] never raises this error: only the last test of
    [parse_expression] does. *)
Theorem extra_input_raised (U : UnicodeTables) :
  (forall text,
     parse_expression U text = Raise (SyntaxError ExtraInput) ->
     exists ts a t post,
       tokens (ExprLexer_init U text) = ts ++ t :: post /\ derives ts a /\
       kind_in ["+"; "-"; "*"; "/"]%string t = false) /\
  (forall text ts a t post,
     tokens (ExprLexer_init U text) = ts ++ t :: post -> derives ts a ->
     kind_in ["+"; "-"; "*"; "/"]%string t = false ->
     (forall b, parse_expression U text <> Ok b) /\
     (forall msg,
        parse_expression U text = Raise (SyntaxError msg) ->
        msg = ExtraInput)) /\
  (forall text ts a t post,
     tokens (ExprLexer_init U text) = ts ++ t :: post -> flat_expr ts a ->
     kind_in ["+"; "-"; "*"; "/"]%string t = false ->
     parse_expression U text = Raise (SyntaxError ExtraInput)) /\
  (forall fuel lex e, E fuel lex = Raise e -> e <> SyntaxError ExtraInput).
Proof.
  assert (H : forall text ts a t post,
            tokens (ExprLexer_init U text) = ts ++ t :: post ->
            derives ts a ->
            kind_in ["+"; "-"; "*"; "/"]%string t = false ->
            parse_expression U text = Raise (SyntaxError ExtraInput)).
  { intros text ts a t post Hall Hd Hk. apply parse_expression_extra.
    exists ts, a, t, post. auto. }
  split; [|split; [|split]].
  - intros text Hr. apply parse_expression_extra; assumption.
  - intros text ts a t post Hall Hd Hk.
    rewrite (H text ts a t post Hall Hd Hk). split.
    + intros b Hb. discriminate Hb.
    + intros msg Hm. inversion Hm. reflexivity.
  - intros text ts a t post Hall Hd Hk.
    apply (H text ts a t post Hall); [exists 1; exact Hd | assumption].
  - intros fuel lex e. apply E_raises.
Qed.

Lemma extra_input_raised_witness :
  exists ts a t post,
    tokens (ExprLexer_init latin1_only (str_of "(1)2")) = ts ++ t :: post /\
    derives ts a /\ kind_in ["+"; "-"; "*"; "/"]%string t = false.
Proof.
  apply (proj1 (extra_input_raised latin1_only) (str_of "(1)2")).
  reflexivity.
Defined.

(** ** The parser and the printer *)

Lemma inorder_length a : length (inorder a) = nodes a.
Proof.
  induction a as [v|v|op l IHl r IHr]; cbn [inorder nodes];
    try reflexivity.
  rewrite length_app. cbn [length]. lia.
Qed.

(** X18.  The tree of a text is printed with one line for each token of
    the text that is no parenthesis: where [parse_expression] returns a tree
    and [pretty_print_ast] returns from printing it, as many lines were
    printed as the text has numbers, identifiers and operators. *)
Theorem parsed_tree_lines (U : UnicodeTables) (text : str) (a : AST)
    (stack : nat) (indent : Z) (ls : list str) :
  parse_expression U text = Ok a ->
  pretty_print_ast stack a indent = (ls, true) ->
  length ls
  = length (filter (fun t => negb (is_paren t))
              (tokens (ExprLexer_init U text))).
Proof.
  intros H Hp. rewrite parse_expression_tokens in H.
  apply parse_tokens_derives in H; [|apply ExprLexer_init_kinds].
  apply pretty_print_ast_returned in Hp as [_ ->].
  rewrite lines_of_length, <- inorder_length.
  rewrite (@derives_inorder _ a H), length_map; [reflexivity|].
  eapply Forall_impl;
    [|apply (@lexer_fold_shape U);
      [apply finditer_TOKEN_RE_shape | constructor]].
  intros t Ht. eapply expr_token_operator; eassumption.
Qed.

Lemma parsed_tree_lines_witness :
  length [str_of "BINOP *"; str_of "  ID: a"; str_of "  BINOP +";
          str_of "    ID: b"; str_of "    NUMBER: 1"]
  = length (filter (fun t => negb (is_paren t))
              (tokens (ExprLexer_init latin1_only (str_of "a*(b+1)")))).
Proof.
  apply (@parsed_tree_lines latin1_only (str_of "a*(b+1)")
           (BinOp (str_of "*") (Identifier (str_of "a"))
              (BinOp (str_of "+") (Identifier (str_of "b"))
                 (Number (str_of "1")))) 3 0);
    vm_compute; reflexivity.
Defined.

(** ** An error of [F] ends the call *)

Lemma T_loop_Raise fuel F0 lex node lex1 e :
  F0 lex = Ok (node, lex1) ->
  kind_in ["*"; "/"]%string (peek lex1) = true ->
  F0 (snd (next lex1)) = Raise e ->
  T_ (S fuel) F0 lex = Raise e.
Proof.
  intros H0 Hc He. unfold T_, bind at 1. rewrite H0.
  apply while_raise; [assumption|]. apply operator_raise. assumption.
Qed.

Lemma E_loop_Raise fuel T0 lex node lex1 e :
  T0 lex = Ok (node, lex1) ->
  kind_in ["+"; "-"]%string (peek lex1) = true ->
  T0 (snd (next lex1)) = Raise e ->
  E_ (S fuel) T0 lex = Raise e.
Proof.
  intros H0 Hc He. unfold E_, bind at 1. rewrite H0.
  apply while_raise; [assumption|]. apply operator_raise. assumption.
Qed.

(** C5.  Where [F] finds a token that is none of NUMBER, ID and [(], it
    raises the SyntaxError of the unexpected token.  No caller handles an
    exception, so the first one ends the call of [parse_expression] and no
    tree is returned: [F] passes on the exception of [E] between the
    parentheses, [T] and [E] pass on the exception of their first operand
    and, from their loops, that of the operand after an operator, and
    [parse_expression] passes on the exception of [E].  So a text raises
    this error where its first token is none of the three, and where an
    expression without parentheses and an operator come first and the token
    after the operator, or the end of the tokens there, is none of the
    three; [1+] is such a text.  Where the expression before the operator
    has parentheses, no tree is returned either, and the SyntaxError that is
    raised is this one.  No part of a text is ever returned as its tree: a
    tree that [parse_expression] returns is the tree of all the tokens of
    the text as an expression of the grammar. *)
Theorem factor_error_aborts (U : UnicodeTables) :
  (forall Erec lex,
     kind_is "NUMBER" (peek lex) = false ->
     kind_is "ID" (peek lex) = false ->
     kind_is "(" (peek lex) = false ->
     F_ Erec lex = Raise (SyntaxError (UnexpectedTokenInF (peek lex)))) /\
  (forall Erec lex e,
     kind_is "(" (peek lex) = true ->
     Erec (snd (next lex)) = Raise e -> F_ Erec lex = Raise e) /\
  (forall fuel F0 lex e,
     F0 lex = Raise e -> T_ fuel F0 lex = Raise e) /\
  (forall fuel T0 lex e,
     T0 lex = Raise e -> E_ fuel T0 lex = Raise e) /\
  (forall fuel F0 lex node lex1 e,
     F0 lex = Ok (node, lex1) ->
     kind_in ["*"; "/"]%string (peek lex1) = true ->
     F0 (snd (next lex1)) = Raise e ->
     T_ (S fuel) F0 lex = Raise e) /\
  (forall fuel T0 lex node lex1 e,
     T0 lex = Ok (node, lex1) ->
     kind_in ["+"; "-"]%string (peek lex1) = true ->
     T0 (snd (next lex1)) = Raise e ->
     E_ (S fuel) T0 lex = Raise e) /\
  (forall text fuel e,
     E fuel (ExprLexer_init U text) = Raise e ->
     parse_expression U text = Raise e) /\
  (forall text,
     let tok := peek (ExprLexer_init U text) in
     kind_is "NUMBER" tok = false -> kind_is "ID" tok = false ->
     kind_is "(" tok = false ->
     parse_expression U text = Raise (SyntaxError (UnexpectedTokenInF tok)))
  /\
  (forall text ts a op rest,
     tokens (ExprLexer_init U text) = ts ++ op :: rest ->
     flat_expr ts a ->
     kind_in ["+"; "-"; "*"; "/"]%string op = true ->
     kind_in ["NUMBER"; "ID"; "("]%string (hd EOF_token rest) = false ->
     parse_expression U text
     = Raise (SyntaxError (UnexpectedTokenInF (hd EOF_token rest)))) /\
  (forall text ts a op rest,
     tokens (ExprLexer_init U text) = ts ++ op :: rest ->
     derives ts a ->
     kind_in ["+"; "-"; "*"; "/"]%string op = true ->
     kind_in ["NUMBER"; "ID"; "("]%string (hd EOF_token rest) = false ->
     (forall b, parse_expression U text <> Ok b) /\
     (forall msg,
        parse_expression U text = Raise (SyntaxError msg) ->
        msg = UnexpectedTokenInF (hd EOF_token rest))) /\
  (forall text a,
     parse_expression U text = Ok a ->
     derives (tokens (ExprLexer_init U text)) a) /\
  parse_expression U (str_of "1+")
  = Raise (SyntaxError (UnexpectedTokenInF EOF_token)).
Proof.
  assert (HF : forall Erec lex,
             kind_is "NUMBER" (peek lex) = false ->
             kind_is "ID" (peek lex) = false ->
             kind_is "(" (peek lex) = false ->
             F_ Erec lex
             = Raise (SyntaxError (UnexpectedTokenInF (peek lex)))).
  { intros Erec lex H1 H2 H3.
    cbv beta iota delta [F_ bind lex_peek lex_next ret raise].
    rewrite H1, H2, H3. reflexivity. }
  assert (HT : forall fuel F0 lex e,
             F0 lex = Raise e -> T_ fuel F0 lex = Raise e).
  { intros fuel F0 lex e H. unfold T_. apply bind_Raise; assumption. }
  assert (HE : forall fuel T0 lex e,
             T0 lex = Raise e -> E_ fuel T0 lex = Raise e).
  { intros fuel T0 lex e H. unfold E_. apply bind_Raise; assumption. }
  assert (HP : forall text fuel e,
             E fuel (ExprLexer_init U text) = Raise e ->
             parse_expression U text = Raise e).
  { intros text fuel e H. unfold parse_expression.
    rewrite (@E_outcome_at _ fuel (Raise e)
               (S (length (tokens (ExprLexer_init U text)))) H)
      by (try discriminate; unfold remaining; simpl; lia).
    reflexivity. }
  split; [exact HF|]. split; [|split; [exact HT|]; split; [exact HE|];
    split; [exact T_loop_Raise|]; split; [exact E_loop_Raise|];
    split; [exact HP|]; split;
    [|split; [|split; [|split; [|vm_compute; reflexivity]]]]].
  - intros Erec lex e Hk He.
    assert (H1 : kind_is "NUMBER" (peek lex) = false).
    { apply kind_is_eq in Hk. unfold kind_is. rewrite Hk. reflexivity. }
    assert (H2 : kind_is "ID" (peek lex) = false).
    { apply kind_is_eq in Hk. unfold kind_is. rewrite Hk. reflexivity. }
    cbv beta iota delta [F_ bind lex_peek lex_next ret raise].
    rewrite H1, H2, Hk.
    destruct (next lex) as [t lex1]. cbn [snd] in He.
    rewrite He. reflexivity.
  - intros text tok H1 H2 H3.
    apply (HP text 1). cbn [E]. apply HE, HT, HF; assumption.
  - intros text ts a op rest Hall Hd Hop Hbad.
    rewrite parse_expression_tokens, Hall.
    apply (@parse_tokens_dangling 1 ts a op rest Hd Hop Hbad).
  - intros text ts a op rest Hall [d Hd] Hop Hbad.
    rewrite parse_expression_tokens, Hall.
    rewrite (@parse_tokens_dangling d ts a op rest Hd Hop Hbad). split.
    + intros b Hb. discriminate Hb.
    + intros msg Hm. inversion Hm. reflexivity.
  - intros text a H. rewrite parse_expression_tokens in H.
    apply parse_tokens_derives in H; [assumption|].
    apply ExprLexer_init_kinds.
Qed.

Lemma factor_error_aborts_witness :
  parse_expression latin1_only (str_of "a+b*)")
  = Raise (SyntaxError (UnexpectedTokenInF (str_of ")", str_of ")"))).
Proof.
  apply (proj1 (proj2 (proj2 (proj2 (proj2 (proj2 (proj2 (proj2 (proj2
           (factor_error_aborts latin1_only)))))))))
           (str_of "a+b*)")
           [ (str_of "ID", str_of "a"); (str_of "+", str_of "+");
             (str_of "ID", str_of "b") ]
           (BinOp (str_of "+") (Identifier (str_of "a"))
              (Identifier (str_of "b")))
           (str_of "*", str_of "*")
           [ (str_of ")", str_of ")") ]).
  - reflexivity.
  - apply (@parse_expression_flat latin1_only (str_of "a+b"));
      vm_compute; reflexivity.
  - reflexivity.
  - reflexivity.
Defined.
